(** * ESP32 dual-core test: a shallow embedding of [dual_core_test.c]

    The three FreeRTOS tasks ([core0_task], [core1_task], [monitor_task]),
    the console wrapper [safe_printf] and the coordinator [app_main] are
    written as programs over the calls they make to the SDK.  The SDK itself
    (clock, queue, mutex, scheduler) is the environment.  A sequential
    interpreter runs one task and answers its calls from an oracle; an
    interleaving semantics runs the whole program, main task and created
    tasks, against one console, one mutex and one set of globals. *)

From Stdlib Require Import ZArith List String Ascii Lia DecimalString Bool Arith.
From Stdlib Require Import Permutation.
Import ListNotations.
Local Open Scope Z_scope.

(** ** Machine integers *)

Module Int.

(** [uint32_t] and [uint64_t] arithmetic wraps around. *)
Definition wrap32 (z : Z) : Z := z mod 2 ^ 32.
Definition wrap64 (z : Z) : Z := z mod 2 ^ 64.

(** The value an [int] conversion ([%d]) sees in a 32-bit word. *)
Definition to_int32 (z : Z) : Z :=
  let u := wrap32 z in if u <? 2 ^ 31 then u else u - 2 ^ 32.

End Int.
Import Int.

(** ** Formatting *)

Module Fmt.

Definition dec (z : Z) : string := NilZero.string_of_int (Z.to_int z).

(** The conversions the format strings of the file use. *)
Definition fmt_d (v : Z) : string := dec (to_int32 v).
Definition fmt_lu (v : Z) : string := dec (wrap32 v).
Definition fmt_llu (v : Z) : string := dec (wrap64 v).

(** The two bytes of the UTF-8 letter mu in the source's format strings. *)
Definition mu : string := String "206"%char (String "188"%char EmptyString).

Definition NUL : ascii := "000"%char.
Definition LF : string := String "010"%char EmptyString.

(** [snprintf(buf, size, ...)] with the formatted text [s]: at most
    [size - 1] characters of [s] and a terminating NUL are stored at the
    start of [buf]; the bytes behind them keep their old contents. *)
Definition snprintf (buf : list ascii) (size : nat) (s : string) : list ascii :=
  match size with
  | O => buf
  | S n =>
      let body := firstn n (list_ascii_of_string s) in
      body ++ NUL :: skipn (S (List.length body)) buf
  end.

(** The text a [%s] conversion reads from a character array: the
    characters in front of its first NUL.  An array that holds no NUL has
    no text of its own ([None]): the conversion does not stop at the end of
    the array, it reads on in the memory behind it. *)
Fixpoint c_str (l : list ascii) : option string :=
  match l with
  | [] => None
  | c :: r => if Ascii.eqb c NUL then Some EmptyString else option_map (String c) (c_str r)
  end.

End Fmt.
Import Fmt.

(** ** Messages and globals *)

(** [core_message_t]; [data] is the [char data[32]] array. *)
Record core_message_t := mkMessage {
  sender_core : Z;
  message_id : Z;
  timestamp : Z;
  data : list ascii
}.

Definition DATA_SIZE : nat := 32.
Definition sizeof_core_message_t : Z := 4 + 4 + 8 + Z.of_nat DATA_SIZE.

(** The four [static volatile] performance counters. *)
Inductive global : Type :=
| core0_counter
| core1_counter
| core0_total_time
| core1_total_time.

(** The task entry points handed to the scheduler. *)
Inductive task_fn : Type :=
| fn_core0_task
| fn_core1_task
| fn_monitor_task.

(** ** Calls into the SDK *)

(** One constructor per call the file makes; the index is the type of what
    the call hands back.  [core_queue] and [print_mutex] are the only queue
    and the only mutex, so the calls on them carry no handle.
    [xSemaphoreTake] is always called with [portMAX_DELAY] and its result is
    ignored: it hands back nothing, and waits for the mutex.
    [read_past_array] is no call of the file: it is the read [vprintf] makes
    for a [%s] whose array holds no NUL, and hands back what the memory
    behind the array holds, up to the first NUL there (the read is taken to
    find one). *)
Inductive event : Type -> Type :=
| esp_timer_get_time : event Z
| xQueueSend (m : core_message_t) (ticks : Z) : event bool
| xQueueReceive (ticks : Z) : event (option core_message_t)
| uxQueueMessagesWaiting : event Z
| esp_get_free_heap_size : event Z
| xSemaphoreTake : event unit
| xSemaphoreGive : event unit
| putchar (c : ascii) : event unit
| vTaskDelay (ticks : Z) : event unit
| xTaskGetTickCount : event Z
| vTaskDelayUntil (previous_wake increment : Z) : event Z
| vTaskDelete : event unit
| Load (g : global) : event Z
| Store (g : global) (v : Z) : event unit
| xQueueCreate (len item_size : Z) : event bool
| xSemaphoreCreateMutex : event bool
| xTaskCreatePinnedToCore (f : task_fn) (name : string) (stack prio core : Z) : event bool
| xTaskCreate (f : task_fn) (name : string) (stack prio : Z) : event bool
| read_past_array : event string.

(** A program is a finite tree of calls; [Trap] is a division by zero. *)
Inductive prog (A : Type) : Type :=
| Ret (a : A)
| Vis {X : Type} (e : event X) (k : X -> prog A)
| Trap.

Arguments Ret {A} a.
Arguments Vis {A X} e k.
Arguments Trap {A}.

Fixpoint bind {A B : Type} (p : prog A) (f : A -> prog B) : prog B :=
  match p with
  | Ret a => f a
  | Vis e k => Vis e (fun x => bind (k x) f)
  | Trap => Trap
  end.

Definition call {X : Type} (e : event X) : prog X := Vis e Ret.

Declare Scope prog_scope.
Delimit Scope prog_scope with prog.
Notation "x <- p ;; q" := (bind p (fun x => q))
  (at level 61, p at next level, right associativity) : prog_scope.
Notation "p ;; q" := (bind p (fun _ => q))
  (at level 61, right associativity) : prog_scope.
Local Open Scope prog_scope.

(** [for (int i = lo; i < lo + n; i++) body], where [s] holds the locals
    of the enclosing function that the body reads and writes. *)
Fixpoint for_loop {L : Type} (n : nat) (i : Z) (body : Z -> L -> prog L) (s : L)
  : prog L :=
  match n with
  | O => Ret s
  | S n' => s' <- body i s ;; for_loop n' (i + 1) body s'
  end.

Definition for_lt {L : Type} (lo hi : Z) (body : Z -> L -> prog L) (s : L) : prog L :=
  for_loop (Z.to_nat (hi - lo)) lo body s.

(** Unsigned 64-bit division; the hardware traps on a zero divisor. *)
Definition udiv64 (a b : Z) : prog Z :=
  if b =? 0 then Trap else Ret (a / b).

(** ** The program *)

(** [vprintf] of an already formatted text: one character at a time. *)
Fixpoint vprintf (s : string) : prog unit :=
  match s with
  | EmptyString => Ret tt
  | String c r => call (putchar c) ;; vprintf r
  end.

(** [printf]: straight to the console, without the mutex. *)
Definition printf (s : string) : prog unit := vprintf s.

Definition safe_printf (s : string) : prog unit :=
  call xSemaphoreTake ;;
  vprintf s ;;
  call xSemaphoreGive.

(** The argument of a [%s] as [vprintf] reads it: the text of the array or,
    for an array that holds no NUL, its characters followed by what the
    memory behind it holds. *)
Definition read_str (l : list ascii) : prog string :=
  match c_str l with
  | Some text => Ret text
  | None =>
      behind <- call read_past_array ;;
      Ret (string_of_list_ascii l ++ behind)%string
  end.

(** [safe_printf] with a [%s] in its format: the argument is read by
    [vprintf], after the mutex has been taken; [text] reads it and hands
    back the formatted text. *)
Definition safe_printf_reading (text : prog string) : prog unit :=
  call xSemaphoreTake ;;
  (s <- text ;; vprintf s) ;;
  call xSemaphoreGive.

Section Tasks.

(** [pdMS_TO_TICKS] is a macro of the SDK that turns milliseconds into
    ticks of the configured tick rate; the program is read for any such
    conversion. *)
Variable pdMS_TO_TICKS : Z -> Z.

(** The [checksum] loop of [core0_task]; its value is never used. *)
Definition checksum_loop : Z :=
  fold_left (fun checksum j => wrap32 (checksum + wrap32 (j * 997)))
            (map Z.of_nat (seq 0 1000)) 0.

Definition core0_payload (i : Z) : string :=
  "Hello from Core 0 #" ++ fmt_d i.

(** The four assignments to [message] in [core0_task]: the sender, the
    iteration index, the clock reading [now] and the [snprintf] into the
    [data] array, whose other bytes survive from the previous send. *)
Definition core0_message (i : Z) (message : core_message_t) (now : Z)
  : core_message_t :=
  {| sender_core := 0;
     message_id := wrap32 i;
     timestamp := wrap64 now;
     data := snprintf (data message) DATA_SIZE (core0_payload i) |}.

Definition core0_sent_line (i : Z) : string :=
  "Core 0: Sent message " ++ fmt_d i ++ LF.

(** The body of the [if (i % 10 == 0)] of [core0_task]. *)
Definition core0_send (i : Z) (message : core_message_t) : prog core_message_t :=
  now <- call esp_timer_get_time ;;
  let message := core0_message i message now in
  sent <- call (xQueueSend message (pdMS_TO_TICKS 100)) ;;
  (if sent : bool then safe_printf (core0_sent_line i) else Ret tt) ;;
  Ret message.

(** One iteration of the loop of [core0_task]. *)
Definition core0_iteration (i : Z) (message : core_message_t) : prog core_message_t :=
  t <- call esp_timer_get_time ;;
  let iteration_start := wrap64 t in
  let checksum := checksum_loop in
  message <- (if Z.rem i 10 =? 0 then core0_send i message else Ret message) ;;
  c <- call (Load core0_counter) ;;
  call (Store core0_counter (wrap32 (c + 1))) ;;
  now <- call esp_timer_get_time ;;
  let iteration_time := wrap64 (wrap64 now - iteration_start) in
  total <- call (Load core0_total_time) ;;
  call (Store core0_total_time (wrap64 (total + iteration_time))) ;;
  call (vTaskDelay (pdMS_TO_TICKS 50)) ;;
  Ret message.

(** [core0_task]; [message] is what the uninitialised local holds. *)
Definition core0_task (message : core_message_t) : prog unit :=
  t <- call esp_timer_get_time ;;
  let task_start := wrap64 t in
  safe_printf ("Core 0 Task Started (PRO_CPU)" ++ LF) ;;
  for_lt 0 100 core0_iteration message ;;
  t <- call esp_timer_get_time ;;
  let task_end := wrap64 t in
  safe_printf ("Core 0 Task Completed in "
               ++ fmt_llu (wrap64 (task_end - task_start) / 1000) ++ " ms" ++ LF) ;;
  call vTaskDelete.

(** The line of a report, [text] being what the [%s] printed. *)
Definition core1_received_line (text : string) (latency : Z) : string :=
  "Core 1: Received '" ++ text
  ++ "' (latency: " ++ fmt_llu latency ++ " " ++ mu ++ "s)" ++ LF.

(** The branch of [core1_task] taken when [xQueueReceive] hands back
    [pdTRUE]. *)
Definition core1_report (received_message : core_message_t) : prog unit :=
  now <- call esp_timer_get_time ;;
  let latency := wrap64 (wrap64 now - timestamp received_message) in
  safe_printf_reading
    (text <- read_str (data received_message) ;;
     Ret (core1_received_line text latency)).

(** One iteration of the loop of [core1_task].  The floating-point sum
    [result] is never read and has no counterpart here. *)
Definition core1_iteration (i : Z) (received_message : core_message_t)
  : prog core_message_t :=
  t <- call esp_timer_get_time ;;
  let iteration_start := wrap64 t in
  r <- call (xQueueReceive (pdMS_TO_TICKS 10)) ;;
  received_message <-
    match r with
    | Some m => core1_report m ;; Ret m
    | None => Ret received_message
    end ;;
  c <- call (Load core1_counter) ;;
  call (Store core1_counter (wrap32 (c + 1))) ;;
  now <- call esp_timer_get_time ;;
  let iteration_time := wrap64 (wrap64 now - iteration_start) in
  total <- call (Load core1_total_time) ;;
  call (Store core1_total_time (wrap64 (total + iteration_time))) ;;
  call (vTaskDelay (pdMS_TO_TICKS 30)) ;;
  Ret received_message.

Definition core1_task (received_message : core_message_t) : prog unit :=
  t <- call esp_timer_get_time ;;
  let task_start := wrap64 t in
  safe_printf ("Core 1 Task Started (APP_CPU)" ++ LF) ;;
  for_lt 0 150 core1_iteration received_message ;;
  t <- call esp_timer_get_time ;;
  let task_end := wrap64 t in
  safe_printf ("Core 1 Task Completed in "
               ++ fmt_llu (wrap64 (task_end - task_start) / 1000) ++ " ms" ++ LF) ;;
  call vTaskDelete.

(** [counter > 0 ? total / counter : 0], each volatile read a [Load]. *)
Definition average (counter total : global) : prog Z :=
  c <- call (Load counter) ;;
  if 0 <? c
  then t <- call (Load total) ;;
       c' <- call (Load counter) ;;
       udiv64 t c'
  else Ret 0.

(** The five lines of a monitor report. *)
Definition monitor_banner (i : Z) : string :=
  LF ++ "=== Performance Monitor (Second " ++ fmt_d (i + 1) ++ ") ===" ++ LF.

Definition iterations_line (core : string) (c avg : Z) : string :=
  "Core " ++ core ++ " iterations: " ++ fmt_lu c
  ++ " (avg: " ++ fmt_llu avg ++ " " ++ mu ++ "s)" ++ LF.

Definition waiting_line (waiting : Z) : string :=
  "Queue messages waiting: " ++ fmt_d waiting ++ LF.

Definition heap_line (heap : Z) : string :=
  "Free heap: " ++ fmt_d heap ++ " bytes" ++ LF.

(** One cycle of the loop of [monitor_task]; the arguments of a call are
    read from left to right. *)
Definition monitor_iteration (i : Z) (last_wake_time : Z) : prog Z :=
  last_wake_time <- call (vTaskDelayUntil last_wake_time (pdMS_TO_TICKS 1000)) ;;
  safe_printf (monitor_banner i) ;;
  c0 <- call (Load core0_counter) ;;
  avg0 <- average core0_counter core0_total_time ;;
  safe_printf (iterations_line "0" c0 avg0) ;;
  c1 <- call (Load core1_counter) ;;
  avg1 <- average core1_counter core1_total_time ;;
  safe_printf (iterations_line "1" c1 avg1) ;;
  waiting <- call uxQueueMessagesWaiting ;;
  safe_printf (waiting_line waiting) ;;
  heap <- call esp_get_free_heap_size ;;
  safe_printf (heap_line heap) ;;
  Ret last_wake_time.

Definition monitor_task : prog unit :=
  last_wake_time <- call xTaskGetTickCount ;;
  for_lt 0 10 monitor_iteration last_wake_time ;;
  call vTaskDelete.

(** The lines of the final report. *)
Definition total_line (core : string) (c : Z) : string :=
  "Core " ++ core ++ " total iterations: " ++ fmt_lu c ++ LF.

Definition average_line (core : string) (avg : Z) : string :=
  "Core " ++ core ++ " average time per iteration: " ++ fmt_llu avg
  ++ " " ++ mu ++ "s" ++ LF.

Definition app_main : prog unit :=
  printf ("ESP32 Dual-Core Architecture Analysis" ++ LF) ;;
  printf ("=====================================" ++ LF) ;;
  core_queue <- call (xQueueCreate 10 sizeof_core_message_t) ;;
  print_mutex <- call xSemaphoreCreateMutex ;;
  if negb core_queue || negb print_mutex
  then printf ("Failed to create synchronization objects!" ++ LF)
  else
    printf ("Creating tasks..." ++ LF) ;;
    core0_result <- call (xTaskCreatePinnedToCore fn_core0_task "Core0Task" 4096 2 0) ;;
    core1_result <- call (xTaskCreatePinnedToCore fn_core1_task "Core1Task" 4096 2 1) ;;
    monitor_result <- call (xTaskCreate fn_monitor_task "MonitorTask" 2048 1) ;;
    if negb core0_result || negb core1_result || negb monitor_result
    then printf ("Failed to create tasks!" ++ LF)
    else
      printf ("Tasks created successfully. Monitoring dual-core performance..."
              ++ LF ++ LF) ;;
      call (vTaskDelay (pdMS_TO_TICKS 12000)) ;;
      printf (LF ++ "=== Final Results ===" ++ LF) ;;
      c0 <- call (Load core0_counter) ;;
      printf (total_line "0" c0) ;;
      c1 <- call (Load core1_counter) ;;
      printf (total_line "1" c1) ;;
      avg0 <- average core0_counter core0_total_time ;;
      printf (average_line "0" avg0) ;;
      avg1 <- average core1_counter core1_total_time ;;
      printf (average_line "1" avg1) ;;
      printf (LF ++ "Dual-core analysis complete!" ++ LF).

End Tasks.

(** ** Running one task against the SDK *)

(** A call together with what it handed back. *)
Inductive obs : Type :=
| Obs {X : Type} (e : event X) (x : X).

(** What the SDK answers.  The argument is the number of calls the task has
    made before the one answered, so every call has its own answer.
    [env_memory] is not an answer of the SDK: it is what the memory behind
    an array holds when [vprintf] reads past the array. *)
Record Env := mkEnv {
  env_clock : nat -> Z;
  env_send : nat -> bool;
  env_receive : nat -> option core_message_t;
  env_waiting : nat -> Z;
  env_heap : nat -> Z;
  env_ticks : nat -> Z;
  env_queue_create : nat -> bool;
  env_mutex_create : nat -> bool;
  env_task_create : nat -> bool;
  env_memory : nat -> string
}.

(** The globals, the console and the calls made so far. *)
Record World := mkWorld {
  w_core0_counter : Z;
  w_core1_counter : Z;
  w_core0_total_time : Z;
  w_core1_total_time : Z;
  w_stdout : list ascii;
  w_trace : list obs
}.

(** The globals are zero-initialised statics. *)
Definition boot : World := mkWorld 0 0 0 0 [] [].

Definition read (g : global) (w : World) : Z :=
  match g with
  | core0_counter => w_core0_counter w
  | core1_counter => w_core1_counter w
  | core0_total_time => w_core0_total_time w
  | core1_total_time => w_core1_total_time w
  end.

Definition write (g : global) (v : Z) (w : World) : World :=
  match g with
  | core0_counter =>
      mkWorld v (w_core1_counter w) (w_core0_total_time w) (w_core1_total_time w)
              (w_stdout w) (w_trace w)
  | core1_counter =>
      mkWorld (w_core0_counter w) v (w_core0_total_time w) (w_core1_total_time w)
              (w_stdout w) (w_trace w)
  | core0_total_time =>
      mkWorld (w_core0_counter w) (w_core1_counter w) v (w_core1_total_time w)
              (w_stdout w) (w_trace w)
  | core1_total_time =>
      mkWorld (w_core0_counter w) (w_core1_counter w) (w_core0_total_time w) v
              (w_stdout w) (w_trace w)
  end.

Definition emit (c : ascii) (w : World) : World :=
  mkWorld (w_core0_counter w) (w_core1_counter w) (w_core0_total_time w)
          (w_core1_total_time w) (w_stdout w ++ [c]) (w_trace w).

Definition record (o : obs) (w : World) : World :=
  mkWorld (w_core0_counter w) (w_core1_counter w) (w_core0_total_time w)
          (w_core1_total_time w) (w_stdout w) (w_trace w ++ [o]).

(** What a call hands back.  [vTaskDelayUntil] hands back the new value of
    [*pxPreviousWakeTime], the wake time it waited for.  A [Load] reads the
    globals of the world: within the run of one task the counters of the
    other tasks stay as that task found them. *)
Definition respond {X : Type} (env : Env) (e : event X) (w : World) : X :=
  let n := List.length (w_trace w) in
  match e in event X return X with
  | esp_timer_get_time => env_clock env n
  | xQueueSend _ _ => env_send env n
  | xQueueReceive _ => env_receive env n
  | uxQueueMessagesWaiting => env_waiting env n
  | esp_get_free_heap_size => env_heap env n
  | xSemaphoreTake => tt
  | xSemaphoreGive => tt
  | putchar _ => tt
  | vTaskDelay _ => tt
  | xTaskGetTickCount => env_ticks env n
  | vTaskDelayUntil previous_wake increment => wrap32 (previous_wake + increment)
  | vTaskDelete => tt
  | Load g => read g w
  | Store _ _ => tt
  | xQueueCreate _ _ => env_queue_create env n
  | xSemaphoreCreateMutex => env_mutex_create env n
  | xTaskCreatePinnedToCore _ _ _ _ _ => env_task_create env n
  | xTaskCreate _ _ _ _ => env_task_create env n
  | read_past_array => env_memory env n
  end.

(** What a call does to the globals and the console. *)
Definition effect {X : Type} (e : event X) (w : World) : World :=
  match e with
  | Store g v => write g v w
  | putchar c => emit c w
  | _ => w
  end.

Inductive result (A : Type) : Type :=
| Done (a : A) (w : World)
| Trapped (w : World).

Arguments Done {A} a w.
Arguments Trapped {A} w.

Fixpoint run {A : Type} (env : Env) (p : prog A) (w : World) : result A :=
  match p with
  | Ret a => Done a w
  | Vis e k =>
      let x := respond env e w in
      run env (k x) (record (Obs e x) (effect e w))
  | Trap => Trapped w
  end.

(** The clock reading of a call, if it is [esp_timer_get_time]. *)
Definition clock_of (o : obs) : option Z :=
  match o with
  | @Obs X e x =>
      match e in event X return X -> option Z with
      | esp_timer_get_time => fun now => Some now
      | _ => fun _ => None
      end x
  end.

(** A send as a trace shows it: the clock reading of the call right before
    it (if that call read the clock), the message, the timeout in ticks and
    whether the message was queued. *)
Record send_call := mkSend {
  sc_clock : option Z;
  sc_message : core_message_t;
  sc_ticks : Z;
  sc_sent : bool
}.

Definition send_of (last : option Z) (o : obs) : option send_call :=
  match o with
  | @Obs X e x =>
      match e in event X return X -> option send_call with
      | xQueueSend m ticks => fun sent => Some (mkSend last m ticks sent)
      | _ => fun _ => None
      end x
  end.

(** The sends of a trace, in order; [last] is the clock reading of the call
    before the trace. *)
Fixpoint sends (last : option Z) (tr : list obs) : list send_call :=
  match tr with
  | [] => []
  | o :: r =>
      match send_of last o with
      | Some s => s :: sends (clock_of o) r
      | None => sends (clock_of o) r
      end
  end.

(** The clock reading of the last call of a trace, [last] for no call. *)
Definition carry (last : option Z) (tr : list obs) : option Z :=
  fold_left (fun _ o => clock_of o) tr last.

(** The number of writes of a trace to the global [g]. *)
Definition global_eqb (g g' : global) : bool :=
  match g, g' with
  | core0_counter, core0_counter
  | core1_counter, core1_counter
  | core0_total_time, core0_total_time
  | core1_total_time, core1_total_time => true
  | _, _ => false
  end.

Definition is_store (g : global) (o : obs) : bool :=
  match o with
  | Obs (Store g' _) _ => global_eqb g g'
  | Obs _ _ => false
  end.

Definition stores (g : global) (tr : list obs) : nat :=
  List.length (filter (is_store g) tr).

(** A world after further calls [tr] that put [out] on the console. *)
Definition after_calls (out : list ascii) (tr : list obs) (w : World) : World :=
  mkWorld (w_core0_counter w) (w_core1_counter w) (w_core0_total_time w)
          (w_core1_total_time w) (w_stdout w ++ out) (w_trace w ++ tr).

(** The characters a trace puts on the console. *)
Definition putchars (s : string) : list obs :=
  map (fun c => Obs (putchar c) tt) (list_ascii_of_string s).

(** The calls of one [safe_printf]. *)
Definition safe_printf_calls (s : string) : list obs :=
  Obs xSemaphoreTake tt :: putchars s ++ [Obs xSemaphoreGive tt].

(** What a [%s] prints for the array [l], [behind] being what the memory
    behind the array holds: the text of the array or, if it holds no NUL,
    its characters and [behind]. *)
Definition str_text (l : list ascii) (behind : string) : string :=
  match c_str l with
  | Some text => text
  | None => (string_of_list_ascii l ++ behind)%string
  end.

(** The read behind the array, which is made only if it holds no NUL. *)
Definition read_str_calls (l : list ascii) (behind : string) : list obs :=
  match c_str l with
  | Some _ => []
  | None => [Obs read_past_array behind]
  end.

(** The calls of one [safe_printf] of the text [s] whose [vprintf] read
    the array [l]. *)
Definition safe_printf_reading_calls (l : list ascii) (behind : string) (s : string)
  : list obs :=
  Obs xSemaphoreTake tt
  :: read_str_calls l behind ++ putchars s ++ [Obs xSemaphoreGive tt].

(** The calls of a trace that start a task. *)
Definition is_task_create (o : obs) : bool :=
  match o with
  | Obs (xTaskCreatePinnedToCore _ _ _ _ _) _ => true
  | Obs (xTaskCreate _ _ _ _) _ => true
  | Obs _ _ => false
  end.

Definition task_fn_eqb (f f' : task_fn) : bool :=
  match f, f' with
  | fn_core0_task, fn_core0_task
  | fn_core1_task, fn_core1_task
  | fn_monitor_task, fn_monitor_task => true
  | _, _ => false
  end.

(** The call created a task running [f]. *)
Definition starts (f : task_fn) (o : obs) : bool :=
  match o with
  | @Obs X e x =>
      match e in event X return X -> bool with
      | xTaskCreatePinnedToCore f' _ _ _ _ => fun created => created && task_fn_eqb f f'
      | xTaskCreate f' _ _ _ => fun created => created && task_fn_eqb f f'
      | _ => fun _ => false
      end x
  end.



(** ** The channel *)

Module Channel.

(** Modelled from the spec: the FreeRTOS queue behind [core_queue], whose
    implementation ([xQueueCreate], [xQueueSend], [xQueueReceive],
    [uxQueueMessagesWaiting]) is not among the sources.  It is the spec's
    fixed-capacity ordered buffer: a send enqueues at the tail if there is
    space and otherwise (once its timeout has run out on a full buffer)
    drops the message; a receive dequeues from the head, or hands back no
    message once its timeout has run out on an empty buffer. *)
Record t := mk {
  capacity : Z;
  buffer : list core_message_t
}.

(** Modelled from the spec: [xQueueCreate], an empty buffer of the given
    capacity. *)
Definition create (len : Z) : t := mk len [].

(** Modelled from the spec: [uxQueueMessagesWaiting], the current
    occupancy. *)
Definition pending_count (q : t) : Z := Z.of_nat (List.length (buffer q)).

(** Modelled from the spec: [xQueueSend] at the end of its timeout. *)
Definition send (q : t) (m : core_message_t) : bool * t :=
  if pending_count q <? capacity q
  then (true, mk (capacity q) (buffer q ++ [m]))
  else (false, q).

(** Modelled from the spec: [xQueueReceive] at the end of its timeout. *)
Definition receive (q : t) : option core_message_t * t :=
  match buffer q with
  | [] => (None, q)
  | m :: rest => (Some m, mk (capacity q) rest)
  end.

(** A sequence of operations and what each of them came to. *)
Inductive op : Type :=
| Send (m : core_message_t)
| Receive.

Inductive outcome : Type :=
| Sent (m : core_message_t)
| Dropped (m : core_message_t)
| Received (m : core_message_t)
| Empty.

Definition apply (q : t) (o : op) : outcome * t :=
  match o with
  | Send m =>
      let (ok, q') := send q m in
      ((if ok then Sent m else Dropped m), q')
  | Receive =>
      match receive q with
      | (Some m, q') => (Received m, q')
      | (None, q') => (Empty, q')
      end
  end.

Fixpoint run_ops (q : t) (ops : list op) : list outcome * t :=
  match ops with
  | [] => ([], q)
  | o :: rest =>
      let (out, q') := apply q o in
      let (outs, q'') := run_ops q' rest in
      (out :: outs, q'')
  end.

Fixpoint enqueued (outs : list outcome) : list core_message_t :=
  match outs with
  | [] => []
  | Sent m :: r => m :: enqueued r
  | _ :: r => enqueued r
  end.

Fixpoint dequeued (outs : list outcome) : list core_message_t :=
  match outs with
  | [] => []
  | Received m :: r => m :: dequeued r
  | _ :: r => dequeued r
  end.

(** The queue [app_main] creates: [xQueueCreate(10, sizeof(core_message_t))]. *)
Definition core_queue : t := create 10.

End Channel.

(** ** The whole program: tasks on one console *)

Module Sched.

Definition tid : Type := nat.

Definition upd {V : Type} (f : tid -> V) (t : tid) (v : V) : tid -> V :=
  fun t' => if Nat.eqb t' t then v else f t'.

(** A character on the console: the task that put it there, the number of
    [xSemaphoreTake] calls that task had completed by then, and whether the
    task held [print_mutex] at that moment. *)
Record entry := mkEntry {
  writer : tid;
  write_no : nat;
  locked : bool;
  char : ascii
}.

(** The tasks (task 0 is the main task, [next] the first unused slot), the
    holder of [print_mutex], the shared globals and console, and what the
    creation of the queue and of the mutex answered, once they were called. *)
Record sys := mkSys {
  pool : tid -> prog unit;
  next : tid;
  mutex : option tid;
  world : World;
  takes : tid -> nat;
  console : list entry;
  queue_made : option bool;
  mutex_made : option bool
}.

(** Whether task [t] holds the mutex. *)
Definition holds (s : sys) (t : tid) : bool :=
  match mutex s with
  | Some t' => Nat.eqb t' t
  | None => false
  end.

(** The calls that touch neither the mutex nor the console and start no
    task. *)
Definition quiet {X : Type} (e : event X) : bool :=
  match e with
  | xSemaphoreTake | xSemaphoreGive | putchar _ => false
  | xTaskCreatePinnedToCore _ _ _ _ _ | xTaskCreate _ _ _ _ => false
  | _ => true
  end.

Definition queue_answer {X : Type} (e : event X) (x : X) (old : option bool)
  : option bool :=
  match e in event X return X -> option bool with
  | xQueueCreate _ _ => fun created => Some created
  | _ => fun _ => old
  end x.

Definition mutex_answer {X : Type} (e : event X) (x : X) (old : option bool)
  : option bool :=
  match e in event X return X -> option bool with
  | xSemaphoreCreateMutex => fun created => Some created
  | _ => fun _ => old
  end x.

Section Steps.

(** The function behind each task entry point. *)
Variable body : task_fn -> prog unit.

(** Task [t] asked for a task running [f], and the SDK answered [created]:
    on success the new task takes the first unused slot. *)
Definition spawn (s : sys) (t : tid) (f : task_fn) (k : bool -> prog unit)
           (created : bool) (o : obs) : sys :=
  mkSys (if created
         then upd (upd (pool s) t (k true)) (next s) (body f)
         else upd (pool s) t (k false))
        (if created then S (next s) else next s)
        (mutex s) (record o (world s)) (takes s) (console s)
        (queue_made s) (mutex_made s).

(** One call of one task.  A take waits until the mutex is free; a give
    frees it, whoever gives; a character goes to the console whether or not
    the mutex is held; a task creation starts the task if it succeeds; every
    other call is answered by the SDK ([env]) and the shared globals. *)
Inductive step (s : sys) : sys -> Prop :=
| step_take t k :
    pool s t = Vis xSemaphoreTake k ->
    mutex s = None ->
    step s (mkSys (upd (pool s) t (k tt)) (next s) (Some t)
                  (record (Obs xSemaphoreTake tt) (world s))
                  (upd (takes s) t (S (takes s t))) (console s)
                  (queue_made s) (mutex_made s))
| step_give t k :
    pool s t = Vis xSemaphoreGive k ->
    step s (mkSys (upd (pool s) t (k tt)) (next s) None
                  (record (Obs xSemaphoreGive tt) (world s))
                  (takes s) (console s) (queue_made s) (mutex_made s))
| step_putchar t c k :
    pool s t = Vis (putchar c) k ->
    step s (mkSys (upd (pool s) t (k tt)) (next s) (mutex s)
                  (record (Obs (putchar c) tt) (emit c (world s)))
                  (takes s) (console s ++ [mkEntry t (takes s t) (holds s t) c])
                  (queue_made s) (mutex_made s))
| step_call t X (e : event X) k env :
    pool s t = Vis e k ->
    quiet e = true ->
    step s (mkSys (upd (pool s) t (k (respond env e (world s)))) (next s) (mutex s)
                  (record (Obs e (respond env e (world s))) (effect e (world s)))
                  (takes s) (console s)
                  (queue_answer e (respond env e (world s)) (queue_made s))
                  (mutex_answer e (respond env e (world s)) (mutex_made s)))
| step_create_pinned t f name stack prio core k created :
    pool s t = Vis (xTaskCreatePinnedToCore f name stack prio core) k ->
    step s (spawn s t f k created
                  (Obs (xTaskCreatePinnedToCore f name stack prio core) created))
| step_create t f name stack prio k created :
    pool s t = Vis (xTaskCreate f name stack prio) k ->
    step s (spawn s t f k created (Obs (xTaskCreate f name stack prio) created)).

Inductive reachable (s0 : sys) : sys -> Prop :=
| reach_start : reachable s0 s0
| reach_step s s' : reachable s0 s -> step s s' -> reachable s0 s'.

(** What the run of task [t] to its end leaves of the state [s]: the other
    tasks are where they were, and the mutex is free. *)
Definition finished_from (s : sys) (t : tid) (s' : sys) : Prop :=
  reachable s s' /\
  pool s' t = Ret tt /\
  (forall t', t' <> t -> pool s' t' = pool s t') /\
  next s' = next s /\ mutex s' = None.

End Steps.

(** The functions [app_main] hands to the scheduler; [message] and
    [received_message] are what the uninitialised locals of the two workers
    hold. *)
Definition bodies (pdMS_TO_TICKS : Z -> Z) (message received_message : core_message_t)
  : task_fn -> prog unit :=
  fun f =>
    match f with
    | fn_core0_task => core0_task pdMS_TO_TICKS message
    | fn_core1_task => core1_task pdMS_TO_TICKS received_message
    | fn_monitor_task => monitor_task pdMS_TO_TICKS
    end.

(** The program at boot: the main task alone, about to run [app_main]. *)
Definition start (pdMS_TO_TICKS : Z -> Z) : sys :=
  mkSys (fun t => match t with O => app_main pdMS_TO_TICKS | _ => Ret tt end)
        1%nat None boot (fun _ => O) [] None None.

(** The writes through the sink: for every character put on the console
    under the mutex, its writer and the writer's take number. *)
Definition sink_tags (s : sys) : list (tid * nat) :=
  map (fun e => (writer e, write_no e)) (filter locked (console s)).

(** Equal entries of a list are never separated by a different one. *)
Definition contiguous {T : Type} (l : list T) : Prop :=
  forall i j k x,
    (i <= j <= k)%nat ->
    nth_error l i = Some x -> nth_error l k = Some x -> nth_error l j = Some x.

(** The discipline of a worker: started with the mutex held or not ([h]),
    it puts characters and gives only while it holds the mutex, takes only
    while it does not, returns with [h'], and creates nothing. *)
Fixpoint worker {A : Type} (p : prog A) (h h' : bool) : Prop :=
  match p with
  | Ret _ => h = h'
  | Trap => True
  | @Vis _ X e k =>
      match e in event X return (X -> Prop) -> Prop with
      | xSemaphoreTake => fun rest => h = false /\ rest tt
      | xSemaphoreGive => fun rest => h = true /\ rest tt
      | putchar _ => fun rest => h = true /\ rest tt
      | xQueueCreate _ _ => fun _ => False
      | xSemaphoreCreateMutex => fun _ => False
      | xTaskCreatePinnedToCore _ _ _ _ _ => fun _ => False
      | xTaskCreate _ _ _ _ => fun _ => False
      | _ => fun rest => forall x, rest x
      end
        (fun x =>
           worker (k x)
                  (match e with
                   | xSemaphoreTake => true
                   | xSemaphoreGive => false
                   | _ => h
                   end)
                  h')
  end.

(** The discipline of the main task: it never touches the mutex, creates
    the queue and the mutex at most once each, and creates a task only after
    both creations have succeeded ([q] and [m] are what they answered). *)
Fixpoint coordinator {A : Type} (p : prog A) (q m : option bool) : Prop :=
  match p with
  | Ret _ => True
  | Trap => True
  | @Vis _ X e k =>
      match e in event X return (X -> option bool -> option bool -> Prop) -> Prop with
      | xSemaphoreTake => fun _ => False
      | xSemaphoreGive => fun _ => False
      | xQueueCreate _ _ => fun rest => q = None /\ forall created, rest created (Some created) m
      | xSemaphoreCreateMutex =>
          fun rest => m = None /\ forall created, rest created q (Some created)
      | xTaskCreatePinnedToCore _ _ _ _ _ =>
          fun rest => q = Some true /\ m = Some true /\ forall created, rest created q m
      | xTaskCreate _ _ _ _ =>
          fun rest => q = Some true /\ m = Some true /\ forall created, rest created q m
      | _ => fun rest => forall x, rest x q m
      end
        (fun x q' m' => coordinator (k x) q' m')
  end.

(** A program that touches neither the mutex nor the creation calls. *)
Fixpoint harmless {A : Type} (p : prog A) : Prop :=
  match p with
  | Ret _ => True
  | Trap => True
  | @Vis _ X e k =>
      match e in event X return (X -> Prop) -> Prop with
      | xSemaphoreTake => fun _ => False
      | xSemaphoreGive => fun _ => False
      | xQueueCreate _ _ => fun _ => False
      | xSemaphoreCreateMutex => fun _ => False
      | xTaskCreatePinnedToCore _ _ _ _ _ => fun _ => False
      | xTaskCreate _ _ _ _ => fun _ => False
      | _ => fun rest => forall x, rest x
      end
        (fun x => harmless (k x))
  end.

(** The calls that create a queue, a mutex or a task. *)
Definition creates {X : Type} (e : event X) : bool :=
  match e with
  | xQueueCreate _ _ | xSemaphoreCreateMutex => true
  | xTaskCreatePinnedToCore _ _ _ _ _ | xTaskCreate _ _ _ _ => true
  | _ => false
  end.

(** The characters of the write in progress are the last ones written
    through the sink. *)
Definition write_in_progress (s : sys) : Prop :=
  forall t, mutex s = Some t ->
    forall i j, (i <= j < List.length (sink_tags s))%nat ->
      nth_error (sink_tags s) i = Some (t, takes s t) ->
      nth_error (sink_tags s) j = Some (t, takes s t).

(** What every reachable state satisfies. *)
Record invariant (s : sys) : Prop := mkInvariant {
  inv_main : coordinator (pool s O) (queue_made s) (mutex_made s);
  inv_main_unlocked : holds s O = false;
  inv_workers : forall t, (1 <= t)%nat -> worker (pool s t) (holds s t) false;
  inv_next : (1 <= next s)%nat;
  inv_fresh : forall t, (next s <= t)%nat -> pool s t = Ret tt;
  inv_holder : forall t, mutex s = Some t -> (t < next s)%nat;
  inv_stdout : map char (console s) = w_stdout (world s);
  inv_takes : forall t n, In (t, n) (sink_tags s) -> (n <= takes s t)%nat;
  inv_contiguous : contiguous (sink_tags s);
  inv_write : write_in_progress s;
  inv_locked : forall e, In e (console s) -> (1 <= writer e)%nat -> locked e = true;
  inv_spawned :
    (1 < next s)%nat -> queue_made s = Some true /\ mutex_made s = Some true
}.

End Sched.

(** ** Who writes the counters *)

Module Safety.

(** What a task is to the counters: the main task (with the workers it has
    asked for so far), the owner of [core0_counter], the owner of
    [core1_counter], or a reader. *)
Inductive role : Type :=
| Main (asked0 asked1 : bool)
| Core0
| Core1
| Reader.

(** What is known of a task at one point of its program: its role, the
    number of increments of its counter it may still make, the value of its
    counter it has loaded and not yet stored back, and values the two
    counters have had (they never fall below them again). *)
Record view := mkView {
  v_role : role;
  v_fuel : nat;
  v_pending : option Z;
  v_lo0 : Z;
  v_lo1 : Z
}.

Definition is_core0 (r : role) : bool := match r with Core0 => true | _ => false end.
Definition is_core1 (r : role) : bool := match r with Core1 => true | _ => false end.

(** What a load of [g] may hand back. *)
Definition known (v : view) (g : global) (x : Z) : Prop :=
  match g with
  | core0_counter => v_lo0 v <= x /\ 0 <= x
  | core1_counter => v_lo1 v <= x /\ 0 <= x
  | _ => True
  end.

(** The view after a load of [g] handed back [x]. *)
Definition learn (v : view) (g : global) (x : Z) : view :=
  match g with
  | core0_counter =>
      mkView (v_role v) (v_fuel v)
             (if is_core0 (v_role v) then Some x else v_pending v) x (v_lo1 v)
  | core1_counter =>
      mkView (v_role v) (v_fuel v)
             (if is_core1 (v_role v) then Some x else v_pending v) (v_lo0 v) x
  | _ => v
  end.

(** The view after the owner stored [x] to its counter: the store must be
    the increment of the value loaded last, and uses up one increment. *)
Definition bumped (v : view) (owner : bool) (x : Z) : option view :=
  match owner, v_pending v, v_fuel v with
  | true, Some y, S n =>
      if x =? wrap32 (y + 1)
      then Some (mkView (v_role v) n None (v_lo0 v) (v_lo1 v))
      else None
  | _, _, _ => None
  end.

(** The view after a store of [x] to [g], if the task may make it. *)
Definition store (v : view) (g : global) (x : Z) : option view :=
  match g with
  | core0_counter => bumped v (is_core0 (v_role v)) x
  | core1_counter => bumped v (is_core1 (v_role v)) x
  | _ => Some v
  end.

(** The view after the task asked for a task running [f], if it may. *)
Definition ask (v : view) (f : task_fn) : option view :=
  match v_role v, f with
  | Main false asked1, fn_core0_task =>
      Some (mkView (Main true asked1) (v_fuel v) (v_pending v) (v_lo0 v) (v_lo1 v))
  | Main asked0 false, fn_core1_task =>
      Some (mkView (Main asked0 true) (v_fuel v) (v_pending v) (v_lo0 v) (v_lo1 v))
  | Main _ _, fn_monitor_task => Some v
  | _, _ => None
  end.

(** A program obeys a view: it never divides by zero, it stores to a
    counter only as that counter's owner and only the increment of what it
    loaded last, and it asks for each worker at most once, as the main task;
    [Q] holds of what it returns and of the view it returns with. *)
Fixpoint obeys {A : Type} (p : prog A) (v : view) (Q : A -> view -> Prop) : Prop :=
  match p with
  | Ret a => Q a v
  | Trap => False
  | @Vis _ X e k =>
      match e in event X return (X -> view -> Prop) -> Prop with
      | Load g => fun rest => forall x, known v g x -> rest x (learn v g x)
      | Store g x =>
          fun rest => match store v g x with Some v' => rest tt v' | None => False end
      | xTaskCreatePinnedToCore f _ _ _ _ =>
          fun rest => match ask v f with Some v' => forall b, rest b v' | None => False end
      | xTaskCreate f _ _ _ =>
          fun rest => match ask v f with Some v' => forall b, rest b v' | None => False end
      | _ => fun rest => forall x, rest x v
      end
        (fun x v' => obeys (k x) v' Q)
  end.

(** A task returns with every increment of its counter made. *)
Definition spent (_ : unit) (v : view) : Prop := v_fuel v = O.

(** The calls that touch no global and ask for no task. *)
Definition plain {X : Type} (e : event X) : bool :=
  match e with
  | Load _ | Store _ _ => false
  | xTaskCreatePinnedToCore _ _ _ _ _ | xTaskCreate _ _ _ _ => false
  | _ => true
  end.

(** The view a task starts with. *)
Definition main_view : view := mkView (Main false false) O None 0 0.

Definition body_view (f : task_fn) : view :=
  match f with
  | fn_core0_task => mkView Core0 100 None 0 0
  | fn_core1_task => mkView Core1 150 None 0 0
  | fn_monitor_task => mkView Reader O None 0 0
  end.

(** A counter is never negative.  Once its owner has been created, the
    counter and the increments the owner has still to make add up to
    [bound], and what the owner has loaded and not yet stored back is what
    the counter holds; before that the counter holds 0. *)
Definition owned (views : Sched.tid -> view) (owner : option Sched.tid)
           (counter bound : Z) : Prop :=
  0 <= counter /\
  match owner with
  | Some t =>
      counter + Z.of_nat (v_fuel (views t)) = bound /\
      forall x, v_pending (views t) = Some x -> x = counter
  | None => counter = 0
  end.

(** The owners after a task running [f] took the slot [t]. *)
Definition owner0_after (f : task_fn) (t : Sched.tid) (owner0 : option Sched.tid) : option Sched.tid :=
  match f with fn_core0_task => Some t | _ => owner0 end.

Definition owner1_after (f : task_fn) (t : Sched.tid) (owner1 : option Sched.tid) : option Sched.tid :=
  match f with fn_core1_task => Some t | _ => owner1 end.

Definition has_owner (owner : option Sched.tid) : bool :=
  match owner with Some _ => true | None => false end.

(** The views at boot. *)
Definition start_views : Sched.tid -> view :=
  fun t => match t with O => main_view | _ => mkView Reader O None 0 0 end.

(** What every reachable state satisfies, for some assignment of views to
    the tasks and of owners to the two counters. *)
Record safe (s : Sched.sys) (views : Sched.tid -> view)
       (owner0 owner1 : option Sched.tid) : Prop := mkSafe {
  safe_obeys : forall t, obeys (Sched.pool s t) (views t) spent;
  safe_lo0 : forall t, v_lo0 (views t) <= w_core0_counter (Sched.world s);
  safe_lo1 : forall t, v_lo1 (views t) <= w_core1_counter (Sched.world s);
  safe_core0 : forall t, v_role (views t) = Core0 <-> owner0 = Some t;
  safe_core1 : forall t, v_role (views t) = Core1 <-> owner1 = Some t;
  safe_main :
    forall t asked0 asked1,
      v_role (views t) = Main asked0 asked1 ->
      t = O /\ (asked0 = false -> owner0 = None) /\ (asked1 = false -> owner1 = None);
  safe_owned0 : owned views owner0 (w_core0_counter (Sched.world s)) 100;
  safe_owned1 : owned views owner1 (w_core1_counter (Sched.world s)) 150;
  safe_count0 :
    w_core0_counter (Sched.world s)
    = Z.of_nat (stores core0_counter (w_trace (Sched.world s)));
  safe_count1 :
    w_core1_counter (Sched.world s)
    = Z.of_nat (stores core1_counter (w_trace (Sched.world s)));
  safe_started0 :
    existsb (starts fn_core0_task) (w_trace (Sched.world s)) = has_owner owner0;
  safe_started1 :
    existsb (starts fn_core1_task) (w_trace (Sched.world s)) = has_owner owner1;
  safe_next : (1 <= Sched.next s)%nat;
  safe_fresh :
    forall t, (Sched.next s <= t)%nat ->
              Sched.pool s t = Ret tt /\ v_role (views t) = Reader
}.

End Safety.

(** ** Sample environments *)

(** An SDK whose queue is always full and always empty: every send and
    every receive times out.  The clock advances by 2 microseconds per call,
    creation always succeeds. *)
Definition env_full_queue : Env :=
  mkEnv (fun n => 2 * Z.of_nat n) (fun _ => false) (fun _ => None)
        (fun _ => 0) (fun _ => 200000) (fun n => Z.of_nat n)
        (fun _ => true) (fun _ => true) (fun _ => true) (fun _ => EmptyString).

(** An SDK that cannot create the queue. *)
Definition env_no_queue : Env :=
  mkEnv (fun n => 2 * Z.of_nat n) (fun _ => false) (fun _ => None)
        (fun _ => 0) (fun _ => 200000) (fun n => Z.of_nat n)
        (fun _ => false) (fun _ => true) (fun _ => true) (fun _ => EmptyString).

(** [pdMS_TO_TICKS] for a tick rate of 100 Hz. *)
Definition ticks_at_100_hz (ms : Z) : Z := ms * 100 / 1000.

(** A message buffer of 32 NUL bytes. *)
Definition blank_message : core_message_t := mkMessage 0 0 0 (repeat NUL DATA_SIZE).

(** ** What one iteration of each loop calls *)

Section Calls.

Variable pdMS_TO_TICKS : Z -> Z.

(** The calls of the sending branch of [core0_task], given the clock
    reading [now] and the outcome [sent] of the send. *)
Definition core0_send_calls (i : Z) (message : core_message_t) (now : Z) (sent : bool)
  : list obs :=
  Obs esp_timer_get_time now
  :: Obs (xQueueSend (core0_message i message now) (pdMS_TO_TICKS 100)) sent
  :: (if sent then safe_printf_calls (core0_sent_line i) else []).

(** The calls that end an iteration of a worker: the counter is bumped,
    the clock read and the elapsed time added to the total, then the task
    sleeps for [ms] milliseconds. *)
Definition bookkeeping_calls (counter total : global) (ms : Z)
           (iteration_start c now t : Z) : list obs :=
  [ Obs (Load counter) c;
    Obs (Store counter (wrap32 (c + 1))) tt;
    Obs esp_timer_get_time now;
    Obs (Load total) t;
    Obs (Store total (wrap64 (t + wrap64 (wrap64 now - wrap64 iteration_start)))) tt;
    Obs (vTaskDelay (pdMS_TO_TICKS ms)) tt ].

Definition core0_calls (i : Z) (message : core_message_t)
           (t0 t1 : Z) (sent : bool) (c t2 t : Z) : list obs :=
  Obs esp_timer_get_time t0
  :: (if Z.rem i 10 =? 0 then core0_send_calls i message t1 sent else [])
  ++ bookkeeping_calls core0_counter core0_total_time 50 t0 c t2 t.

(** What an iteration of [core0_task] puts on the console. *)
Definition core0_output (i : Z) (sent : bool) : list ascii :=
  if (Z.rem i 10 =? 0) && sent
  then list_ascii_of_string (core0_sent_line i)
  else [].

Definition core0_after (i : Z) (message : core_message_t)
           (t0 t1 : Z) (sent : bool) (t2 : Z) (w : World) : World :=
  mkWorld (wrap32 (w_core0_counter w + 1))
          (w_core1_counter w)
          (wrap64 (w_core0_total_time w + wrap64 (wrap64 t2 - wrap64 t0)))
          (w_core1_total_time w)
          (w_stdout w ++ core0_output i sent)
          (w_trace w ++ core0_calls i message t0 t1 sent
                                    (w_core0_counter w) t2 (w_core0_total_time w)).

(** The line of the report of the message [m], received right before the
    clock read [now]. *)
Definition core1_report_line (m : core_message_t) (now : Z) (behind : string) : string :=
  core1_received_line (str_text (data m) behind) (wrap64 (wrap64 now - timestamp m)).

(** The calls of the receiving part of [core1_task]: the receive and, if
    it handed back a message, the clock reading and the report, which
    reads the message's text under the mutex. *)
Definition core1_receive_calls (r : option core_message_t) (now : Z) (behind : string)
  : list obs :=
  Obs (xQueueReceive (pdMS_TO_TICKS 10)) r
  :: match r with
     | Some m =>
         Obs esp_timer_get_time now
         :: safe_printf_reading_calls (data m) behind (core1_report_line m now behind)
     | None => []
     end.

Definition core1_calls (r : option core_message_t) (t0 t1 : Z) (behind : string)
           (c t2 t : Z) : list obs :=
  Obs esp_timer_get_time t0
  :: core1_receive_calls r t1 behind
  ++ bookkeeping_calls core1_counter core1_total_time 30 t0 c t2 t.

Definition core1_output (r : option core_message_t) (now : Z) (behind : string)
  : list ascii :=
  match r with
  | Some m => list_ascii_of_string (core1_report_line m now behind)
  | None => []
  end.

Definition core1_after (r : option core_message_t) (t0 t1 : Z) (behind : string)
           (t2 : Z) (w : World) : World :=
  mkWorld (w_core0_counter w)
          (wrap32 (w_core1_counter w + 1))
          (w_core0_total_time w)
          (wrap64 (w_core1_total_time w + wrap64 (wrap64 t2 - wrap64 t0)))
          (w_stdout w ++ core1_output r t1 behind)
          (w_trace w ++ core1_calls r t0 t1 behind (w_core1_counter w) t2
                                    (w_core1_total_time w)).

(** The iteration indices below [n] on which [core0_task] sends. *)
Definition sending_iterations (n : Z) : list Z :=
  filter (fun i => Z.rem i 10 =? 0) (map Z.of_nat (seq 0 (Z.to_nat n))).

(** A send of [core0_task]: 100 ms of timeout, core 0 as the sender, and
    as timestamp the clock reading of the call right before the send. *)
Definition stamped (s : send_call) : Prop :=
  sc_ticks s = pdMS_TO_TICKS 100 /\
  sender_core (sc_message s) = 0 /\
  exists now, sc_clock s = Some now /\ timestamp (sc_message s) = wrap64 now.

(** What holds of a worker after [n] iterations that started in [w0]:
    [calls] are the calls made since, [elapsed] the iteration times. *)
Record progress (counter total : World -> Z) (gc gt : global)
       (w0 : World) (n : Z) (w : World) (calls : list obs) (elapsed : list Z)
  : Prop := mkProgress {
  pr_trace : w_trace w = w_trace w0 ++ calls;
  pr_counter : counter w = if n =? 0 then counter w0 else wrap32 (counter w0 + n);
  pr_elapsed : List.length elapsed = Z.to_nat n;
  pr_total :
    total w =
    if n =? 0 then total w0 else wrap64 (total w0 + fold_right Z.add 0 elapsed);
  pr_counter_stores : stores gc calls = Z.to_nat n;
  pr_total_stores : stores gt calls = Z.to_nat n;
  pr_carry : carry None calls = None
}.

Definition core0_progress (w0 : World) (n : Z) (w : World) : Prop :=
  exists calls elapsed,
    progress w_core0_counter w_core0_total_time core0_counter core0_total_time
             w0 n w calls elapsed /\
    w_core1_counter w = w_core1_counter w0 /\
    w_core1_total_time w = w_core1_total_time w0 /\
    map (fun s => message_id (sc_message s)) (sends None calls) = sending_iterations n /\
    Forall stamped (sends None calls).


(** The value of [counter > 0 ? total / counter : 0] when the counter
    holds [c] and the total [t]. *)
Definition average_value (c t : Z) : Z := if 0 <? c then t / c else 0.

Definition average_calls (counter total : global) (c t : Z) : list obs :=
  Obs (Load counter) c
  :: (if 0 <? c then [Obs (Load total) t; Obs (Load counter) c] else []).

(** The calls of one monitor cycle that finds the counters [c0], [c1] and
    the totals [t0], [t1], and is told [waiting] and [heap] by the SDK. *)
Definition monitor_calls (i last_wake_time c0 t0 c1 t1 waiting heap : Z) : list obs :=
  Obs (vTaskDelayUntil last_wake_time (pdMS_TO_TICKS 1000))
      (wrap32 (last_wake_time + pdMS_TO_TICKS 1000))
  :: safe_printf_calls (monitor_banner i)
  ++ Obs (Load core0_counter) c0
  :: average_calls core0_counter core0_total_time c0 t0
  ++ safe_printf_calls (iterations_line "0" c0 (average_value c0 t0))
  ++ Obs (Load core1_counter) c1
  :: average_calls core1_counter core1_total_time c1 t1
  ++ safe_printf_calls (iterations_line "1" c1 (average_value c1 t1))
  ++ Obs uxQueueMessagesWaiting waiting
  :: safe_printf_calls (waiting_line waiting)
  ++ Obs esp_get_free_heap_size heap
  :: safe_printf_calls (heap_line heap).

(** What that cycle puts on the console. *)
Definition monitor_report (i c0 t0 c1 t1 waiting heap : Z) : list ascii :=
  list_ascii_of_string (monitor_banner i)
  ++ list_ascii_of_string (iterations_line "0" c0 (average_value c0 t0))
  ++ list_ascii_of_string (iterations_line "1" c1 (average_value c1 t1))
  ++ list_ascii_of_string (waiting_line waiting)
  ++ list_ascii_of_string (heap_line heap).




(** What [app_main] puts on the console, given what the five creation
    calls answered and what the counters hold at the final report. *)
Definition final_report (c0 t0 c1 t1 : Z) : list ascii :=
  list_ascii_of_string (LF ++ "=== Final Results ===" ++ LF)
  ++ list_ascii_of_string (total_line "0" c0)
  ++ list_ascii_of_string (total_line "1" c1)
  ++ list_ascii_of_string (average_line "0" (average_value c0 t0))
  ++ list_ascii_of_string (average_line "1" (average_value c1 t1))
  ++ list_ascii_of_string (LF ++ "Dual-core analysis complete!" ++ LF).

Definition startup_banner : list ascii :=
  list_ascii_of_string ("ESP32 Dual-Core Architecture Analysis" ++ LF)
  ++ list_ascii_of_string ("=====================================" ++ LF).

Definition app_main_output (queue mutex created0 created1 created2 : bool)
           (c0 t0 c1 t1 : Z) : list ascii :=
  startup_banner
  ++ (if negb queue || negb mutex
      then list_ascii_of_string ("Failed to create synchronization objects!" ++ LF)
      else
        list_ascii_of_string ("Creating tasks..." ++ LF)
        ++ (if negb created0 || negb created1 || negb created2
            then list_ascii_of_string ("Failed to create tasks!" ++ LF)
            else
              list_ascii_of_string
                ("Tasks created successfully. Monitoring dual-core performance..."
                 ++ LF ++ LF)
              ++ final_report c0 t0 c1 t1)).

(** The calls of [app_main] up to the test of the two handles. *)
Definition startup_calls (queue mutex : bool) : list obs :=
  putchars ("ESP32 Dual-Core Architecture Analysis" ++ LF)
  ++ putchars ("=====================================" ++ LF)
  ++ [Obs (xQueueCreate 10 sizeof_core_message_t) queue;
      Obs xSemaphoreCreateMutex mutex].

Definition task_create_calls (created0 created1 created2 : bool) : list obs :=
  [Obs (xTaskCreatePinnedToCore fn_core0_task "Core0Task" 4096 2 0) created0;
   Obs (xTaskCreatePinnedToCore fn_core1_task "Core1Task" 4096 2 1) created1;
   Obs (xTaskCreate fn_monitor_task "MonitorTask" 2048 1) created2].

Definition final_report_calls (c0 t0 c1 t1 : Z) : list obs :=
  putchars (LF ++ "=== Final Results ===" ++ LF)
  ++ Obs (Load core0_counter) c0 :: putchars (total_line "0" c0)
  ++ Obs (Load core1_counter) c1 :: putchars (total_line "1" c1)
  ++ average_calls core0_counter core0_total_time c0 t0
  ++ putchars (average_line "0" (average_value c0 t0))
  ++ average_calls core1_counter core1_total_time c1 t1
  ++ putchars (average_line "1" (average_value c1 t1))
  ++ putchars (LF ++ "Dual-core analysis complete!" ++ LF).

Definition app_main_calls (queue mutex created0 created1 created2 : bool)
           (c0 t0 c1 t1 : Z) : list obs :=
  startup_calls queue mutex
  ++ (if negb queue || negb mutex
      then putchars ("Failed to create synchronization objects!" ++ LF)
      else
        putchars ("Creating tasks..." ++ LF)
        ++ task_create_calls created0 created1 created2
        ++ (if negb created0 || negb created1 || negb created2
            then putchars ("Failed to create tasks!" ++ LF)
            else
              putchars ("Tasks created successfully. Monitoring dual-core performance..."
                        ++ LF ++ LF)
              ++ Obs (vTaskDelay (pdMS_TO_TICKS 12000)) tt
              :: final_report_calls c0 t0 c1 t1)).

End Calls.

(** Calls that write no global and send nothing, ending in a call that
    does not read the clock. *)
Definition quiet_calls (more : list obs) : Prop :=
  (forall g, stores g more = O) /\
  (forall last, sends last more = []) /\
  (forall last, carry last more = None).

(** The payload of iteration [i] fits the array with its NUL and holds no
    NUL of its own. *)
Definition payload_fits (i : Z) : bool :=
  let payload := list_ascii_of_string (core0_payload i) in
  (S (List.length payload) <=? DATA_SIZE)%nat
  && forallb (fun c => negb (Ascii.eqb c NUL)) payload.

(** Two tasks that write to the console with [printf], without the mutex. *)
Definition two_printers : Sched.sys :=
  Sched.mkSys (fun t =>
                 match t with
                 | 0%nat => printf "ab"
                 | 1%nat => printf "cd"
                 | _ => Ret tt
                 end)
              2%nat None boot (fun _ => O) [] None None.

(** ** More readings of traces and programs *)

(** The entries of a trace that [f] picks, in order. *)
Definition pick {T : Type} (f : obs -> option T) (tr : list obs) : list T :=
  flat_map (fun o => match f o with Some x => [x] | None => [] end) tr.

(** The timeout of a receive. *)
Definition receive_of (o : obs) : option Z :=
  match o with
  | Obs (xQueueReceive ticks) _ => Some ticks
  | Obs _ _ => None
  end.

(** The message a receive handed back. *)
Definition received_of (o : obs) : option core_message_t :=
  match o with
  | @Obs X e x =>
      match e in event X return X -> option core_message_t with
      | xQueueReceive _ => fun r => r
      | _ => fun _ => None
      end x
  end.

(** The ticks of a [vTaskDelay]. *)
Definition delay_of (o : obs) : option Z :=
  match o with
  | Obs (vTaskDelay ticks) _ => Some ticks
  | Obs _ _ => None
  end.

(** The [message_id] of a send and whether the queue accepted it. *)
Definition send_outcome (o : obs) : option (Z * bool) :=
  match o with
  | @Obs X e x =>
      match e in event X return X -> option (Z * bool) with
      | xQueueSend m _ => fun sent => Some (message_id m, sent)
      | _ => fun _ => None
      end x
  end.

(** What [core0_task] logs for a send. *)
Definition core0_log_line (outcome : Z * bool) : list ascii :=
  if snd outcome then list_ascii_of_string (core0_sent_line (fst outcome)) else [].

(** A report of [core1_task]: the message received, the clock reading
    taken right after the receive and what the memory behind the [data] of
    the message held when the report was printed. *)
Record report := mkReport {
  rp_message : core_message_t;
  rp_now : Z;
  rp_behind : string
}.

Definition core1_log_line (r : report) : list ascii :=
  list_ascii_of_string (core1_report_line (rp_message r) (rp_now r) (rp_behind r)).

(** How a report shows in a trace: the read behind the array is there only
    if the [data] of the message hold no NUL. *)
Definition reception_of (r : report) : core_message_t * option Z * option string :=
  (rp_message r, Some (rp_now r),
   match c_str (data (rp_message r)) with
   | Some _ => None
   | None => Some (rp_behind r)
   end).

(** What a read behind an array handed back. *)
Definition behind_of (o : obs) : option string :=
  match o with
  | @Obs X e x =>
      match e in event X return X -> option string with
      | read_past_array => fun behind => Some behind
      | _ => fun _ => None
      end x
  end.

(** The receives of a trace that handed back a message, in order: the
    message, the clock reading of the call right after the receive (if that
    call read the clock) and what the third call after the receive read
    behind an array (if it is such a read). *)
Fixpoint receptions (tr : list obs) : list (core_message_t * option Z * option string) :=
  match tr with
  | [] => []
  | o :: r =>
      match received_of o with
      | Some m =>
          (m,
           match r with o1 :: _ => clock_of o1 | [] => None end,
           match r with _ :: _ :: o3 :: _ => behind_of o3 | _ => None end)
          :: receptions r
      | None => receptions r
      end
  end.

(** A trace whose receptions are the same whatever follows it. *)
Definition settled (a : list obs) : Prop :=
  forall b, receptions (a ++ b) = receptions a ++ receptions b.

Definition is_send (o : obs) : bool :=
  match o with
  | Obs (xQueueSend _ _) _ => true
  | Obs _ _ => false
  end.

Definition is_receive (o : obs) : bool :=
  match o with
  | Obs (xQueueReceive _) _ => true
  | Obs _ _ => false
  end.

(** Whatever the SDK answers, the program stores to the globals [allowed]
    only. *)
Fixpoint stores_within {A : Type} (allowed : global -> bool) (p : prog A) : Prop :=
  match p with
  | Ret _ => True
  | Trap => True
  | Vis e k =>
      match e with
      | Store g _ => allowed g = true
      | _ => True
      end /\ forall x, stores_within allowed (k x)
  end.

Definition core0_globals (g : global) : bool :=
  match g with core0_counter | core0_total_time => true | _ => false end.

Definition core1_globals (g : global) : bool :=
  match g with core1_counter | core1_total_time => true | _ => false end.

Definition no_global (g : global) : bool := false.

(** The calls that ask for a task. *)
Definition spawns {X : Type} (e : event X) : bool :=
  match e with
  | xTaskCreatePinnedToCore _ _ _ _ _ | xTaskCreate _ _ _ _ => true
  | _ => false
  end.

(** Whatever the SDK answers, the program asks for at most [n] tasks. *)
Fixpoint creates_at_most {A : Type} (p : prog A) (n : nat) : Prop :=
  match p with
  | Ret _ => True
  | Trap => True
  | Vis e k =>
      if spawns e
      then match n with
           | O => False
           | S n' => forall x, creates_at_most (k x) n'
           end
      else forall x, creates_at_most (k x) n
  end.

(** Task [t] waits for the mutex, which another task holds. *)
Definition blocked (s : Sched.sys) (t : Sched.tid) : Prop :=
  exists k, Sched.pool s t = Vis xSemaphoreTake k /\ Sched.mutex s <> None.

(** Task [t] has a call to make and does not wait for the mutex. *)
Definition ready (s : Sched.sys) (t : Sched.tid) : Prop :=
  (exists X (e : event X) k, Sched.pool s t = Vis e k) /\ ~ blocked s t.

(** * The cache test: [cache-test.c] *)

(** The program measures how long passes over an array of 4096 words take.
    It is written as functions from the state of the machine (the two
    arrays, the console, the calls made so far) to an outcome; an access
    outside an array, through a NULL pointer or to a block that has been
    freed is a [Fault], and a loop that has not ended when its fuel is used
    up is [OutOfFuel]. *)

Module Cache.

Definition ARRAY_SIZE : Z := 4096.
Definition ITERATIONS : Z := 100.
Definition TEST_RUNS : Z := 5.

(** The memory a block is asked from. *)
Inductive caps : Type := MALLOC_CAP_SPIRAM | MALLOC_CAP_INTERNAL.

(** A call into the SDK or the C library, with what it answered. *)
Inductive sdk_call : Type :=
| timer_read (now : Z)
| malloc_call (bytes : Z) (c : caps) (granted : bool)
| free_call.

(** What the SDK answers to the call that follows [n] others: the reading
    of the clock, whether an allocation is granted, and what the words of
    the fresh block hold. *)
Record Sdk := mkSdk {
  sdk_clock : nat -> Z;
  sdk_grant : nat -> bool;
  sdk_junk : nat -> Z -> Z
}.

(** [sram_array], the block [psram_array] points to, the console and the
    calls made.  [psram_array] points to no block ([None]) if it is NULL or
    if the block it pointed to has been freed; in the second case the
    pointer, which keeps its value, dangles ([psram_freed]). *)
Record machine := mkMachine {
  sram_array : list Z;
  psram_array : option (list Z);
  psram_freed : bool;
  m_console : list ascii;
  m_calls : list sdk_call
}.

(** The statics at boot: [sram_array] is zeroed, [psram_array] is NULL. *)
Definition boot : machine :=
  mkMachine (repeat 0 (Z.to_nat ARRAY_SIZE)) None false [] [].

Inductive outcome (A : Type) : Type :=
| Ok (a : A) (m : machine)
| Fault
| OutOfFuel.

Arguments Ok {A} a m.
Arguments Fault {A}.
Arguments OutOfFuel {A}.

Definition M (A : Type) : Type := machine -> outcome A.

Definition ret {A : Type} (a : A) : M A := fun m => Ok a m.

Definition bind {A B : Type} (p : M A) (f : A -> M B) : M B :=
  fun m =>
    match p m with
    | Ok a m' => f a m'
    | Fault => Fault
    | OutOfFuel => OutOfFuel
    end.

Declare Scope cache_scope.
Delimit Scope cache_scope with cache.
Bind Scope cache_scope with M.
Notation "x <- p ;; q" := (bind p (fun x => q))
  (at level 61, p at next level, right associativity) : cache_scope.
Notation "p ;; q" := (bind p (fun _ => q))
  (at level 61, right associativity) : cache_scope.
Local Open Scope cache_scope.

(** [for (i = lo; i < hi; i++)] over the locals [s]. *)
Fixpoint for_loop {L : Type} (n : nat) (i : Z) (body : Z -> L -> M L) (s : L) : M L :=
  match n with
  | O => ret s
  | S n' => s' <- body i s ;; for_loop n' (i + 1) body s'
  end.

Definition for_lt {L : Type} (lo hi : Z) (body : Z -> L -> M L) (s : L) : M L :=
  for_loop (Z.to_nat (hi - lo)) lo body s.

Definition printf (s : string) : M unit :=
  fun m => Ok tt (mkMachine (sram_array m) (psram_array m) (psram_freed m)
                            (m_console m ++ list_ascii_of_string s) (m_calls m)).

Definition log (c : sdk_call) (m : machine) : machine :=
  mkMachine (sram_array m) (psram_array m) (psram_freed m) (m_console m)
            (m_calls m ++ [c]).

(** The array a [uint32_t *] of the program points to. *)
Inductive array_ref : Type := sram | psram.

Definition deref (p : array_ref) (m : machine) : option (list Z) :=
  match p with
  | sram => Some (sram_array m)
  | psram => psram_array m
  end.

(** [a[i]], if [i] is an index of [a]. *)
Definition get (a : list Z) (i : Z) : option Z :=
  if i <? 0 then None else nth_error a (Z.to_nat i).

(** [a] with [a[i] = v], if [i] is an index of [a]. *)
Definition set (a : list Z) (i v : Z) : option (list Z) :=
  if (0 <=? i) && (i <? Z.of_nat (List.length a))
  then Some (firstn (Z.to_nat i) a ++ v :: skipn (S (Z.to_nat i)) a)
  else None.

Definition load (p : array_ref) (i : Z) : M Z :=
  fun m =>
    match deref p m with
    | Some a => match get a i with Some x => Ok x m | None => Fault end
    | None => Fault
    end.

Definition store (p : array_ref) (i v : Z) : M unit :=
  fun m =>
    match p with
    | sram =>
        match set (sram_array m) i v with
        | Some a =>
            Ok tt (mkMachine a (psram_array m) (psram_freed m) (m_console m) (m_calls m))
        | None => Fault
        end
    | psram =>
        match psram_array m with
        | Some block =>
            match set block i v with
            | Some a =>
                Ok tt (mkMachine (sram_array m) (Some a) (psram_freed m) (m_console m)
                                 (m_calls m))
            | None => Fault
            end
        | None => Fault
        end
    end.

(** [psram_array = block], with [block] what a [heap_caps_malloc] handed
    back: a fresh block or NULL. *)
Definition assign_psram_array (block : option (list Z)) : M unit :=
  fun m => Ok tt (mkMachine (sram_array m) block false (m_console m) (m_calls m)).

(** The test [if (psram_array)]: a pointer to a freed block is not NULL. *)
Definition psram_array_is_set : M bool :=
  fun m =>
    Ok (match psram_array m with Some _ => true | None => psram_freed m end) m.

(** The indices of an array of [ARRAY_SIZE] words. *)
Definition indices : list Z := map Z.of_nat (seq 0 (Z.to_nat ARRAY_SIZE)).

(** The sum of the words of a list, not wrapped. *)
Definition total (a : list Z) : Z := fold_right Z.add 0 a.

(** [int index = (i * 2654435761U) % ARRAY_SIZE]: the product is
    unsigned, so it wraps to 32 bits before the remainder is taken. *)
Definition random_index (i : Z) : Z :=
  wrap32 (wrap32 i * 2654435761) mod ARRAY_SIZE.

(** The value [initialize_arrays] gives to the word [i]. *)
Definition pattern_at (i : Z) : Z := wrap32 (i * 7 + 13).

Definition pattern : list Z := map pattern_at indices.

Section Program.

Variable sdk : Sdk.

(** The text [printf] gives for ["%.2f"] and the double [(double)a / b];
    the conversion and the division are the C library's and the FPU's. *)
Variable fmt_2f : Z -> Z -> string.

Definition esp_timer_get_time : M Z :=
  fun m =>
    let now := sdk_clock sdk (List.length (m_calls m)) in
    Ok now (log (timer_read now) m).

(** [heap_caps_malloc(bytes, c)]: NULL, or a block of [bytes / 4] words
    that hold whatever the memory held. *)
Definition heap_caps_malloc (bytes : Z) (c : caps) : M (option (list Z)) :=
  fun m =>
    let n := List.length (m_calls m) in
    let granted := sdk_grant sdk n in
    Ok (if granted
        then Some (map (fun i => wrap32 (sdk_junk sdk n (Z.of_nat i)))
                       (seq 0 (Z.to_nat (bytes / 4))))
        else None)
       (log (malloc_call bytes c granted) m).

(** [free(psram_array)]: the block goes back to the heap, so that
    [psram_array] points to no block any more; the pointer keeps its value
    and dangles.  [free(NULL)] does nothing; to free a block a second time
    is a [Fault]. *)
Definition free_psram_array : M unit :=
  fun m =>
    match psram_array m with
    | Some _ =>
        Ok tt (mkMachine (sram_array m) None true (m_console m) (m_calls m ++ [free_call]))
    | None => if psram_freed m then Fault else Ok tt (log free_call m)
    end.

Definition measure_sequential_access (array : array_ref) (memory_type : string) : M Z :=
  t <- esp_timer_get_time ;;
  let start_time := wrap64 t in
  sum <- for_lt 0 TEST_RUNS (fun run sum =>
           for_lt 0 ITERATIONS (fun iter sum =>
             for_lt 0 ARRAY_SIZE (fun i sum =>
               x <- load array i ;;
               ret (wrap32 (sum + x))) sum) sum) 0 ;;
  t <- esp_timer_get_time ;;
  let end_time := wrap64 t in
  let duration := wrap64 (end_time - start_time) in
  printf (memory_type ++ " Sequential Access: " ++ fmt_llu duration ++ " " ++ mu
          ++ "s (sum=" ++ fmt_lu sum ++ ")" ++ LF) ;;
  ret duration.

Definition measure_random_access (array : array_ref) (memory_type : string) : M Z :=
  t <- esp_timer_get_time ;;
  let start_time := wrap64 t in
  sum <- for_lt 0 TEST_RUNS (fun run sum =>
           for_lt 0 ITERATIONS (fun iter sum =>
             for_lt 0 ARRAY_SIZE (fun i sum =>
               let index := random_index i in
               x <- load array index ;;
               ret (wrap32 (sum + x))) sum) sum) 0 ;;
  t <- esp_timer_get_time ;;
  let end_time := wrap64 t in
  let duration := wrap64 (end_time - start_time) in
  printf (memory_type ++ " Random Access: " ++ fmt_llu duration ++ " " ++ mu
          ++ "s (sum=" ++ fmt_lu sum ++ ")" ++ LF) ;;
  ret duration.

(** [for (i = ...; i < ARRAY_SIZE; i += stride) sum += array[i]], from
    [i] on.  The loop ends only if [i] gets to [ARRAY_SIZE]; [fuel] bounds
    the number of rounds that are run. *)
Fixpoint stride_pass (fuel : nat) (array : array_ref) (stride i sum : Z) : M Z :=
  match fuel with
  | O => fun _ => OutOfFuel
  | S fuel' =>
      if i <? ARRAY_SIZE
      then x <- load array i ;;
           stride_pass fuel' array stride (i + stride) (wrap32 (sum + x))
      else ret sum
  end.

Definition measure_stride_access (fuel : nat) (array : array_ref) (stride : Z)
           (test_name : string) : M Z :=
  t <- esp_timer_get_time ;;
  let start_time := wrap64 t in
  sum <- for_lt 0 TEST_RUNS (fun run sum =>
           for_lt 0 ITERATIONS (fun iter sum =>
             stride_pass fuel array stride 0 sum) sum) 0 ;;
  t <- esp_timer_get_time ;;
  let end_time := wrap64 t in
  let duration := wrap64 (end_time - start_time) in
  printf (test_name ++ " (stride " ++ fmt_d stride ++ "): " ++ fmt_llu duration ++ " " ++ mu
          ++ "s (sum=" ++ fmt_lu sum ++ ")" ++ LF) ;;
  ret duration.

(** The loop [for (i = 0; i < ARRAY_SIZE; i++) array[i] = i * 7 + 13]. *)
Definition fill (array : array_ref) : M unit :=
  for_lt 0 ARRAY_SIZE (fun i _ => store array i (pattern_at i)) tt.

Definition initialize_arrays : M unit :=
  printf ("Initializing test arrays..." ++ LF) ;;
  fill sram ;;
  block <- heap_caps_malloc (ARRAY_SIZE * 4) MALLOC_CAP_SPIRAM ;;
  assign_psram_array block ;;
  available <- psram_array_is_set ;;
  if available : bool
  then
    printf ("PSRAM array allocated successfully" ++ LF) ;;
    fill psram
  else
    printf ("PSRAM not available, using internal memory" ++ LF) ;;
    block <- heap_caps_malloc (ARRAY_SIZE * 4) MALLOC_CAP_INTERNAL ;;
    assign_psram_array block ;;
    available <- psram_array_is_set ;;
    if available : bool then fill psram else ret tt.

(** Test 2 of [app_main], run if [psram_array] is set. *)
Definition external_memory_test (sram_sequential : Z) : M unit :=
  printf (LF ++ "=== Test 2: External Memory Access ===" ++ LF) ;;
  psram_sequential <- measure_sequential_access psram "External" ;;
  psram_random <- measure_random_access psram "External" ;;
  printf ("External Memory Performance Ratio: "
          ++ fmt_2f psram_random psram_sequential ++ "x" ++ LF) ;;
  printf (LF ++ "Memory Type Comparison (Sequential Access):" ++ LF) ;;
  printf ("External/Internal Speed Ratio: "
          ++ fmt_2f psram_sequential sram_sequential ++ "x" ++ LF).

Definition app_main (fuel : nat) : M unit :=
  printf ("ESP32 Cache Performance Analysis" ++ LF) ;;
  printf ("================================" ++ LF) ;;
  printf ("Array size: " ++ fmt_d ARRAY_SIZE ++ " elements ("
          ++ fmt_d (ARRAY_SIZE * 4 / 1024) ++ " KB)" ++ LF) ;;
  printf ("Iterations per test: " ++ fmt_d ITERATIONS ++ LF) ;;
  printf ("Test runs: " ++ fmt_d TEST_RUNS ++ LF ++ LF) ;;
  initialize_arrays ;;
  printf (LF ++ "=== Test 1: Sequential vs Random Access (Internal SRAM) ===" ++ LF) ;;
  sram_sequential <- measure_sequential_access sram "SRAM" ;;
  sram_random <- measure_random_access sram "SRAM" ;;
  printf ("SRAM Performance Ratio (Random/Sequential): "
          ++ fmt_2f sram_random sram_sequential ++ "x" ++ LF) ;;
  available <- psram_array_is_set ;;
  (if available : bool then external_memory_test sram_sequential else ret tt) ;;
  printf (LF ++ "=== Test 3: Stride Access Patterns ===" ++ LF) ;;
  stride1 <- measure_stride_access fuel sram 1 "Stride 1" ;;
  stride2 <- measure_stride_access fuel sram 2 "Stride 2" ;;
  stride4 <- measure_stride_access fuel sram 4 "Stride 4" ;;
  stride8 <- measure_stride_access fuel sram 8 "Stride 8" ;;
  stride16 <- measure_stride_access fuel sram 16 "Stride 16" ;;
  printf (LF ++ "Stride Analysis:" ++ LF) ;;
  printf ("Stride 2/1 ratio: " ++ fmt_2f stride2 stride1 ++ "x" ++ LF) ;;
  printf ("Stride 4/1 ratio: " ++ fmt_2f stride4 stride1 ++ "x" ++ LF) ;;
  printf ("Stride 8/1 ratio: " ++ fmt_2f stride8 stride1 ++ "x" ++ LF) ;;
  printf ("Stride 16/1 ratio: " ++ fmt_2f stride16 stride1 ++ "x" ++ LF) ;;
  available <- psram_array_is_set ;;
  (if available : bool then free_psram_array else ret tt) ;;
  printf (LF ++ "Cache performance analysis complete!" ++ LF).

End Program.

(** The indices a pass with the stride [stride] visits: the multiples of
    [stride] below [ARRAY_SIZE]. *)
Definition strided (stride : Z) : list Z :=
  map (fun k => Z.of_nat k * stride)
      (seq 0 (Z.to_nat ((ARRAY_SIZE - 1) / stride + 1))).

(** The words of [a] at the indices [l]. *)
Definition select (a : list Z) (l : list Z) : list Z :=
  flat_map (fun i => match get a i with Some x => [x] | None => [] end) l.

(** The machine after a measurement that started in [m] and printed
    [line]: the clock has been read twice. *)
Definition measured (sdk : Sdk) (m : machine) (line : string) : machine :=
  mkMachine (sram_array m) (psram_array m) (psram_freed m)
            (m_console m ++ list_ascii_of_string line)
            (m_calls m ++ [timer_read (sdk_clock sdk (List.length (m_calls m)));
                           timer_read (sdk_clock sdk (S (List.length (m_calls m))))]).

(** The time between the two clock readings of a measurement that starts
    in [m]. *)
Definition measured_time (sdk : Sdk) (m : machine) : Z :=
  wrap64 (wrap64 (sdk_clock sdk (S (List.length (m_calls m))))
          - wrap64 (sdk_clock sdk (List.length (m_calls m)))).

(** The machine [m] with the words [a] in the array [p] points to. *)
Definition with_array (p : array_ref) (a : list Z) (m : machine) : machine :=
  match p with
  | sram => mkMachine a (psram_array m) (psram_freed m) (m_console m) (m_calls m)
  | psram => mkMachine (sram_array m) (Some a) (psram_freed m) (m_console m) (m_calls m)
  end.

(** The machine after [initialize_arrays], which started in [m]: both
    arrays hold the pattern, unless no block was granted. *)
Definition initialized (sdk : Sdk) (m : machine) : machine :=
  let n := List.length (m_calls m) in
  let first := sdk_grant sdk n in
  let second := sdk_grant sdk (S n) in
  mkMachine pattern
            (if first || second then Some pattern else None)
            false
            (m_console m
             ++ list_ascii_of_string ("Initializing test arrays..." ++ LF)
             ++ list_ascii_of_string
                  (if first
                   then "PSRAM array allocated successfully" ++ LF
                   else "PSRAM not available, using internal memory" ++ LF))
            (m_calls m
             ++ malloc_call (ARRAY_SIZE * 4) MALLOC_CAP_SPIRAM first
             :: (if first
                 then []
                 else [malloc_call (ARRAY_SIZE * 4) MALLOC_CAP_INTERNAL second])).




(** An SDK whose clock advances by 3 with every call and that has no
    external memory: the first allocation fails, the others succeed. *)
Definition sdk_without_psram : Sdk :=
  mkSdk (fun n => 3 * Z.of_nat n) (fun n => negb (Nat.eqb n 0)) (fun _ _ => 0).

End Cache.

(** * Properties *)

(** ** Machine integers *)

Lemma wrap32_small z : 0 <= z < 2 ^ 32 -> wrap32 z = z.
Proof. intros H. unfold wrap32. now apply Z.mod_small. Qed.

Lemma wrap64_small z : 0 <= z < 2 ^ 64 -> wrap64 z = z.
Proof. intros H. unfold wrap64. now apply Z.mod_small. Qed.

Lemma wrap32_range z : 0 <= wrap32 z < 2 ^ 32.
Proof. unfold wrap32. apply Z.mod_pos_bound. reflexivity. Qed.

Lemma wrap64_range z : 0 <= wrap64 z < 2 ^ 64.
Proof. unfold wrap64. apply Z.mod_pos_bound. reflexivity. Qed.

Lemma to_int32_small z : - 2 ^ 31 <= z < 2 ^ 31 -> to_int32 z = z.
Proof.
  intros H. unfold to_int32, wrap32.
  destruct (Z.ltb_spec (z mod 2 ^ 32) (2 ^ 31)) as [Hlt | Hge].
  - destruct (Z_lt_le_dec z 0) as [Hneg | Hpos].
    + replace z with ((z + 2 ^ 32) + (-1) * 2 ^ 32) in Hlt by ring.
      rewrite Z.mod_add in Hlt by lia.
      rewrite Z.mod_small in Hlt; lia.
    + apply Z.mod_small. lia.
  - destruct (Z_lt_le_dec z 0) as [Hneg | Hpos].
    + replace z with ((z + 2 ^ 32) + (-1) * 2 ^ 32) at 1 by ring.
      rewrite Z.mod_add by lia.
      rewrite Z.mod_small; lia.
    + rewrite Z.mod_small in Hge; lia.
Qed.


(** ** The interpreter *)

Lemma run_bind {A B : Type} env (p : prog A) (f : A -> prog B) w :
  run env (bind p f) w =
  match run env p w with
  | Done a w' => run env (f a) w'
  | Trapped w' => Trapped w'
  end.
Proof.
  revert w. induction p as [a | X e k IH | ]; intros w; simpl; auto.
Qed.

Lemma run_call {X : Type} env (e : event X) w :
  run env (call e) w = Done (respond env e w) (record (Obs e (respond env e w)) (effect e w)).
Proof. reflexivity. Qed.

Lemma after_calls_nil w : after_calls [] [] w = w.
Proof. destruct w. unfold after_calls. simpl. now rewrite !app_nil_r. Qed.

Lemma run_vprintf env s w :
  run env (vprintf s) w = Done tt (after_calls (list_ascii_of_string s) (putchars s) w).
Proof.
  revert w. induction s as [| c r IH]; intros w.
  - simpl. unfold putchars. simpl. now rewrite after_calls_nil.
  - simpl. rewrite IH. unfold after_calls, putchars, record, emit; simpl.
    now rewrite <- !app_assoc.
Qed.

Lemma run_safe_printf env s w :
  run env (safe_printf s) w =
  Done tt (after_calls (list_ascii_of_string s) (safe_printf_calls s) w).
Proof.
  unfold safe_printf. simpl. rewrite run_bind, run_vprintf. simpl.
  unfold after_calls, safe_printf_calls, record; simpl. now rewrite <- !app_assoc.
Qed.

Lemma run_bind_assoc {A B C : Type} env (p : prog A) (f : A -> prog B) (g : B -> prog C) w :
  run env (bind (bind p f) g) w = run env (bind p (fun x => bind (f x) g)) w.
Proof.
  rewrite !run_bind. destruct (run env p w); [now rewrite run_bind | reflexivity].
Qed.

Lemma run_bind_safe_printf {A : Type} env s (k : unit -> prog A) w :
  run env (bind (safe_printf s) k) w =
  run env (k tt) (after_calls (list_ascii_of_string s) (safe_printf_calls s) w).
Proof. now rewrite run_bind, run_safe_printf. Qed.

Lemma run_bind_vprintf {A : Type} env s (k : unit -> prog A) w :
  run env (bind (vprintf s) k) w =
  run env (k tt) (after_calls (list_ascii_of_string s) (putchars s) w).
Proof. now rewrite run_bind, run_vprintf. Qed.

Lemma run_ret {A : Type} env (a : A) w : run env (Ret a) w = Done a w.
Proof. reflexivity. Qed.

Lemma run_vis {A X : Type} env (e : event X) (k : X -> prog A) w :
  run env (Vis e k) w =
  run env (k (respond env e w)) (record (Obs e (respond env e w)) (effect e w)).
Proof. reflexivity. Qed.

(** A [safe_printf] that reads the text of an array: the read behind the
    array is made, under the mutex, only if the array holds no NUL. *)
Lemma run_safe_printf_reading env l (line : string -> string) w :
  exists behind,
    run env (safe_printf_reading (text <- read_str l ;; Ret (line text))) w
    = Done tt (after_calls (list_ascii_of_string (line (str_text l behind)))
                           (safe_printf_reading_calls l behind (line (str_text l behind)))
                           w).
Proof.
  unfold safe_printf_reading, read_str, safe_printf_reading_calls, str_text, read_str_calls.
  destruct (c_str l) as [text |].
  - exists EmptyString. cbn [bind call]. rewrite run_vis. cbn [respond effect].
    rewrite run_bind, run_vprintf. cbn [run respond effect].
    unfold after_calls; cbn; unfold record; cbn. rewrite <- !app_assoc. reflexivity.
  - exists (env_memory env (S (List.length (w_trace w)))).
    cbn [bind call]. rewrite run_vis. cbn [respond effect].
    rewrite run_vis. cbn [respond effect].
    replace (List.length (w_trace (record (Obs xSemaphoreTake tt) w)))
      with (S (List.length (w_trace w)))
      by (unfold record; cbn [w_trace]; rewrite length_app; cbn; lia).
    rewrite run_bind, run_vprintf. cbn [run respond effect].
    unfold after_calls; cbn; unfold record; cbn. rewrite <- !app_assoc. reflexivity.
Qed.

(** Symbolic execution of [run], one call at a time; what the SDK answers
    is given a name as soon as it appears. *)
Ltac name_answer env :=
  match goal with
  | |- context [env_clock env (List.length ?tr)] =>
      let t := fresh "now" in generalize (env_clock env (List.length tr)); intros t
  | |- context [env_send env (List.length ?tr)] =>
      let b := fresh "sent" in generalize (env_send env (List.length tr)); intros b
  | |- context [env_receive env (List.length ?tr)] =>
      let r := fresh "received" in generalize (env_receive env (List.length tr)); intros r
  | |- context [env_waiting env (List.length ?tr)] =>
      let n := fresh "waiting" in generalize (env_waiting env (List.length tr)); intros n
  | |- context [env_heap env (List.length ?tr)] =>
      let n := fresh "heap" in generalize (env_heap env (List.length tr)); intros n
  | |- context [env_ticks env (List.length ?tr)] =>
      let n := fresh "ticks" in generalize (env_ticks env (List.length tr)); intros n
  | |- context [env_queue_create env (List.length ?tr)] =>
      let b := fresh "queue" in generalize (env_queue_create env (List.length tr)); intros b
  | |- context [env_mutex_create env (List.length ?tr)] =>
      let b := fresh "mutex" in generalize (env_mutex_create env (List.length tr)); intros b
  | |- context [env_task_create env (List.length ?tr)] =>
      let b := fresh "created" in generalize (env_task_create env (List.length tr)); intros b
  end.

Ltac tidy :=
  unfold record, emit, write, after_calls;
  cbn [w_core0_counter w_core1_counter w_core0_total_time w_core1_total_time
       w_stdout w_trace read].

Ltac exec1 env :=
  unfold call; cbn [bind];
  first [ rewrite run_vis; cbn beta; cbn [respond effect bind]; tidy; try name_answer env
        | rewrite run_bind_safe_printf; tidy
        | rewrite run_bind_vprintf; tidy
        | rewrite run_safe_printf; tidy
        | rewrite run_vprintf; tidy
        | rewrite run_bind_assoc
        | rewrite run_ret ].

Ltac exec env := repeat exec1 env.

Ltac trace_eq :=
  cbn [w_trace]; rewrite <- ?app_assoc; cbn [app]; reflexivity.

Ltac same_world :=
  cbn [andb]; unfold safe_printf_calls, safe_printf_reading_calls;
  rewrite <- ?app_assoc; cbn [app]; rewrite ?app_nil_r; rewrite <- ?app_assoc;
  reflexivity.

Lemma run_core0_iteration env pdMS_TO_TICKS i message w :
  exists t0 t1 sent t2,
    run env (core0_iteration pdMS_TO_TICKS i message) w =
    Done (if Z.rem i 10 =? 0 then core0_message i message t1 else message)
         (core0_after pdMS_TO_TICKS i message t0 t1 sent t2 w).
Proof.
  unfold core0_iteration, core0_after, core0_calls, core0_output, core0_send_calls,
    bookkeeping_calls.
  destruct (Z.rem i 10 =? 0) eqn:Hsend.
  - unfold core0_send. exec env.
    destruct sent.
    + exec env. exists now, now0, true, now1. same_world.
    + exec env. exists now, now0, false, now1. same_world.
  - exec env. exists now, 0, false, now0. same_world.
Qed.

Lemma run_core1_iteration env pdMS_TO_TICKS i received_message w :
  exists r t0 t1 behind t2,
    run env (core1_iteration pdMS_TO_TICKS i received_message) w =
    Done (match r with Some m => m | None => received_message end)
         (core1_after pdMS_TO_TICKS r t0 t1 behind t2 w).
Proof.
  unfold core1_iteration, core1_after, core1_calls, core1_output, core1_receive_calls,
    core1_report_line, bookkeeping_calls.
  exec env. destruct received as [m |].
  - unfold core1_report. exec env.
    match goal with
    | |- context [run env (bind (safe_printf_reading (bind (read_str ?l) (fun text => Ret (@?line text)))) ?k) ?w1] =>
        destruct (run_safe_printf_reading env l line w1) as (behind & Hprint);
        rewrite (run_bind env _ k w1), Hprint
    end.
    tidy. exec env. exists (Some m), now, now0, behind, now1. same_world.
  - exec env. exists None, now, 0, EmptyString, now0. same_world.
Qed.

Lemma run_for_loop {L : Type} env (body : Z -> L -> prog L)
      (P : Z -> L -> World -> Prop) n :
  forall i s w,
    (forall j s w, i <= j < i + Z.of_nat n -> P j s w ->
       exists s' w', run env (body j s) w = Done s' w' /\ P (j + 1) s' w') ->
    P i s w ->
    exists s' w', run env (for_loop n i body s) w = Done s' w' /\ P (i + Z.of_nat n) s' w'.
Proof.
  induction n as [| n IH]; intros i s w Hbody Hstart.
  - exists s, w. simpl. now rewrite Z.add_0_r.
  - destruct (Hbody i s w ltac:(lia) Hstart) as (s1 & w1 & Hrun & Hnext).
    destruct (IH (i + 1) s1 w1) as (s2 & w2 & Hrest & Hend); [| assumption |].
    + intros j s' w' Hj. apply Hbody. lia.
    + exists s2, w2. cbn [for_loop]. rewrite run_bind, Hrun. split; [assumption |].
      now replace (i + Z.of_nat (S n)) with (i + 1 + Z.of_nat n) by lia.
Qed.

(** ** Reading traces *)

Lemma carry_app last a b : carry last (a ++ b) = carry (carry last a) b.
Proof. unfold carry. apply fold_left_app. Qed.

Lemma sends_app a : forall last b,
  sends last (a ++ b) = sends last a ++ sends (carry last a) b.
Proof.
  induction a as [| o a IH]; intros last b; [reflexivity |].
  cbn [app sends]. rewrite IH. cbn [carry fold_left].
  now destruct (send_of last o).
Qed.

Lemma sends_putchars s : forall last, sends last (putchars s) = [].
Proof.
  unfold putchars. induction (list_ascii_of_string s) as [| c r IH]; intros last;
    [reflexivity | apply IH].
Qed.

Lemma carry_putchars s last :
  carry last (putchars s) = match s with EmptyString => last | _ => None end.
Proof.
  destruct s as [| c s]; [reflexivity |].
  unfold putchars. cbn. induction (list_ascii_of_string s) as [| c' r IH];
    [reflexivity | apply IH].
Qed.

Lemma sends_safe_printf s last : sends last (safe_printf_calls s) = [].
Proof.
  unfold safe_printf_calls. cbn [sends send_of clock_of].
  rewrite sends_app, sends_putchars. reflexivity.
Qed.

Lemma carry_safe_printf s last : carry last (safe_printf_calls s) = None.
Proof.
  unfold safe_printf_calls.
  change (carry last (Obs xSemaphoreTake tt :: putchars s ++ [Obs xSemaphoreGive tt]))
    with (carry None (putchars s ++ [Obs xSemaphoreGive tt])).
  now rewrite carry_app.
Qed.


Lemma stores_app g a b : stores g (a ++ b) = (stores g a + stores g b)%nat.
Proof. unfold stores. now rewrite filter_app, length_app. Qed.

Lemma stores_putchars g s : stores g (putchars s) = O.
Proof.
  unfold stores, putchars. induction (list_ascii_of_string s) as [| c r IH];
    [reflexivity | apply IH].
Qed.

Lemma stores_safe_printf g s : stores g (safe_printf_calls s) = O.
Proof.
  unfold safe_printf_calls.
  change (stores g (Obs xSemaphoreTake tt :: putchars s ++ [Obs xSemaphoreGive tt]))
    with (stores g (putchars s ++ [Obs xSemaphoreGive tt])).
  now rewrite stores_app, stores_putchars.
Qed.


Section CallFacts.

Variable pdMS_TO_TICKS : Z -> Z.

Lemma sends_core0_calls i message t0 t1 sent c t2 t :
  sends None (core0_calls pdMS_TO_TICKS i message t0 t1 sent c t2 t) =
  if Z.rem i 10 =? 0
  then [mkSend (Some t1) (core0_message i message t1) (pdMS_TO_TICKS 100) sent]
  else [].
Proof.
  unfold core0_calls, core0_send_calls, bookkeeping_calls.
  destruct (Z.rem i 10 =? 0); [| reflexivity].
  cbn [sends send_of clock_of app].
  destruct sent; [| reflexivity].
  now rewrite sends_app, sends_safe_printf.
Qed.

Lemma carry_bookkeeping last counter total ms start c now t pre :
  carry last (pre ++ bookkeeping_calls pdMS_TO_TICKS counter total ms start c now t) = None.
Proof. now rewrite carry_app. Qed.

Lemma carry_core0_calls last i message t0 t1 sent c t2 t :
  carry last (core0_calls pdMS_TO_TICKS i message t0 t1 sent c t2 t) = None.
Proof.
  unfold core0_calls.
  change (carry last (?o :: ?a ++ ?b)) with (carry last ((o :: a) ++ b)).
  apply carry_bookkeeping.
Qed.

Lemma stores_core0_calls g i message t0 t1 sent c t2 t :
  stores g (core0_calls pdMS_TO_TICKS i message t0 t1 sent c t2 t) =
  match g with
  | core0_counter | core0_total_time => 1%nat
  | _ => O
  end.
Proof.
  unfold core0_calls, core0_send_calls.
  change (stores g (?o :: ?a ++ ?b)) with (stores g (a ++ b)).
  rewrite stores_app.
  assert (stores g (if Z.rem i 10 =? 0
                    then Obs esp_timer_get_time t1
                         :: Obs (xQueueSend (core0_message i message t1)
                                            (pdMS_TO_TICKS 100)) sent
                         :: (if sent then safe_printf_calls (core0_sent_line i) else [])
                    else []) = O) as ->.
  { destruct (Z.rem i 10 =? 0); [| reflexivity].
    destruct sent; [| reflexivity].
    change (stores g (?o :: ?o' :: ?a)) with (stores g a).
    apply stores_safe_printf. }
  now destruct g.
Qed.


End CallFacts.

(** ** The loops of the two workers *)

Lemma wrap32_succ a n : wrap32 (wrap32 (a + n) + 1) = wrap32 (a + (n + 1)).
Proof. unfold wrap32. rewrite Zplus_mod_idemp_l. f_equal. ring. Qed.

Lemma wrap64_add a x y : wrap64 (wrap64 (a + x) + y) = wrap64 (a + (x + y)).
Proof. unfold wrap64. rewrite Zplus_mod_idemp_l. f_equal. ring. Qed.

Lemma fold_right_add_app l x :
  fold_right Z.add 0 (l ++ [x]) = fold_right Z.add 0 l + x.
Proof. induction l as [| y l IH]; simpl; [lia | rewrite IH; lia]. Qed.

Lemma sending_iterations_succ n :
  0 <= n ->
  sending_iterations (n + 1) =
  sending_iterations n ++ (if Z.rem n 10 =? 0 then [n] else []).
Proof.
  intros Hn. unfold sending_iterations.
  replace (Z.to_nat (n + 1)) with (S (Z.to_nat n)) by lia.
  rewrite seq_S, map_app, filter_app. cbn [Nat.add map filter].
  rewrite Z2Nat.id by assumption. reflexivity.
Qed.

Lemma progress_start counter total gc gt w0 :
  progress counter total gc gt w0 0 w0 [] [].
Proof. constructor; try reflexivity. now rewrite app_nil_r. Qed.

(** One more iteration that makes the calls [more], bumps the counter and
    adds [dt] to the total. *)
Lemma progress_step counter total gc gt w0 n w calls elapsed w' more dt :
  0 <= n ->
  progress counter total gc gt w0 n w calls elapsed ->
  w_trace w' = w_trace w ++ more ->
  counter w' = wrap32 (counter w + 1) ->
  total w' = wrap64 (total w + dt) ->
  stores gc more = 1%nat ->
  stores gt more = 1%nat ->
  (forall last, carry last more = None) ->
  progress counter total gc gt w0 (n + 1) w' (calls ++ more) (elapsed ++ [dt]).
Proof.
  intros Hn [Htr Hc Hlen Ht Hsc Hst Hcarry] Htr' Hc' Ht' Hsc' Hst' Hcarry'.
  assert ((n + 1 =? 0) = false) as Hpos by lia.
  constructor.
  - rewrite Htr', Htr. now rewrite app_assoc.
  - rewrite Hpos, Hc', Hc. destruct (Z.eqb_spec n 0) as [-> | _]; [reflexivity |].
    apply wrap32_succ.
  - rewrite length_app, Hlen. cbn. lia.
  - rewrite Hpos, Ht', Ht, fold_right_add_app.
    destruct (Z.eqb_spec n 0) as [-> | _].
    + destruct elapsed; [reflexivity | discriminate].
    + apply wrap64_add.
  - rewrite stores_app, Hsc, Hsc'. lia.
  - rewrite stores_app, Hst, Hst'. lia.
  - rewrite carry_app. apply Hcarry'.
Qed.

Lemma progress_quiet counter total gc gt w0 n w calls elapsed w' more :
  progress counter total gc gt w0 n w calls elapsed ->
  w_trace w' = w_trace w ++ more ->
  counter w' = counter w ->
  total w' = total w ->
  quiet_calls more ->
  progress counter total gc gt w0 n w' (calls ++ more) elapsed.
Proof.
  intros [Htr Hc Hlen Ht Hsc Hst Hcarry] Htr' Hc' Ht' (Hstores & _ & Hcarry').
  constructor.
  - rewrite Htr', Htr. now rewrite app_assoc.
  - now rewrite Hc'.
  - assumption.
  - now rewrite Ht'.
  - rewrite stores_app, Hsc, Hstores. lia.
  - rewrite stores_app, Hst, Hstores. lia.
  - rewrite carry_app. apply Hcarry'.
Qed.

Lemma quiet_clock_safe_printf now s :
  quiet_calls (Obs esp_timer_get_time now :: safe_printf_calls s).
Proof.
  repeat split.
  - intros g. change (stores g (?o :: ?a)) with (stores g a). apply stores_safe_printf.
  - intros last. cbn [sends send_of clock_of]. apply sends_safe_printf.
  - intros last. change (carry last (?o :: ?a)) with (carry (clock_of o) a).
    apply carry_safe_printf.
Qed.

Lemma quiet_task_end now s :
  quiet_calls (Obs esp_timer_get_time now :: safe_printf_calls s ++ [Obs vTaskDelete tt]).
Proof.
  destruct (quiet_clock_safe_printf now s) as (Hstores & Hsends & Hcarry).
  repeat split.
  - intros g.
    change (stores g ((?o :: ?a) ++ ?b)) with (stores g ((o :: a) ++ b)).
    rewrite app_comm_cons, stores_app, Hstores. reflexivity.
  - intros last. rewrite app_comm_cons, sends_app, Hsends, Hcarry. reflexivity.
  - intros last. rewrite app_comm_cons, carry_app. reflexivity.
Qed.

Section Loops.

Variables (env : Env) (pdMS_TO_TICKS : Z -> Z).

Lemma core0_progress_step w0 n message w :
  0 <= n < 2 ^ 32 ->
  core0_progress pdMS_TO_TICKS w0 n w ->
  exists message' w',
    run env (core0_iteration pdMS_TO_TICKS n message) w = Done message' w' /\
    core0_progress pdMS_TO_TICKS w0 (n + 1) w'.
Proof.
  intros Hn (calls & elapsed & Hp & Hc1 & Ht1 & Hids & Hstamped).
  destruct (run_core0_iteration env pdMS_TO_TICKS n message w) as (t0 & t1 & sent & t2 & Hrun).
  rewrite Hrun. do 2 eexists. split; [reflexivity |].
  exists (calls ++ core0_calls pdMS_TO_TICKS n message t0 t1 sent
                               (w_core0_counter w) t2 (w_core0_total_time w)),
         (elapsed ++ [wrap64 (wrap64 t2 - wrap64 t0)]).
  split; [| split; [assumption | split; [assumption | split]]].
  - eapply progress_step; try eassumption; try reflexivity; try lia.
    + apply (stores_core0_calls pdMS_TO_TICKS core0_counter).
    + apply (stores_core0_calls pdMS_TO_TICKS core0_total_time).
    + intros last. apply carry_core0_calls.
  - rewrite sends_app, (pr_carry _ _ _ _ _ _ _ _ _ Hp), sends_core0_calls.
    rewrite map_app, Hids, sending_iterations_succ by lia.
    f_equal. destruct (Z.rem n 10 =? 0); [| reflexivity].
    cbn. now rewrite wrap32_small.
  - rewrite sends_app, (pr_carry _ _ _ _ _ _ _ _ _ Hp), sends_core0_calls.
    apply Forall_app. split; [assumption |].
    destruct (Z.rem n 10 =? 0); constructor; [| constructor].
    repeat split. exists t1. now split.
Qed.


Lemma core0_progress_quiet w0 n w w' more :
  core0_progress pdMS_TO_TICKS w0 n w ->
  w_trace w' = w_trace w ++ more ->
  w_core0_counter w' = w_core0_counter w ->
  w_core1_counter w' = w_core1_counter w ->
  w_core0_total_time w' = w_core0_total_time w ->
  w_core1_total_time w' = w_core1_total_time w ->
  quiet_calls more ->
  core0_progress pdMS_TO_TICKS w0 n w'.
Proof.
  intros (calls & elapsed & Hp & Hc1 & Ht1 & Hids & Hstamped) Htr Hc0' Hc1' Ht0' Ht1' Hq.
  exists (calls ++ more), elapsed.
  pose proof Hq as (_ & Hsends & _).
  rewrite sends_app, Hsends, app_nil_r.
  split; [eapply progress_quiet; eassumption |].
  repeat split; congruence.
Qed.


Lemma core0_progress_start w0 : core0_progress pdMS_TO_TICKS w0 0 w0.
Proof.
  exists [], []. split; [apply progress_start |]. repeat split; constructor.
Qed.


(** [core0_task] runs to completion, whatever the SDK answers. *)
Lemma run_core0_task message w0 :
  exists w, run env (core0_task pdMS_TO_TICKS message) w0 = Done tt w /\
            core0_progress pdMS_TO_TICKS w0 100 w.
Proof.
  unfold core0_task, for_lt. exec env.
  rewrite run_bind.
  match goal with |- context [run env (for_loop ?n 0 _ _) ?w1] =>
    destruct (run_for_loop env (core0_iteration pdMS_TO_TICKS)
                           (fun j _ w => core0_progress pdMS_TO_TICKS w0 j w)
                           n 0 message w1) as (message' & w2 & Hloop & Hend)
  end.
  - intros j m w Hj. apply core0_progress_step. cbn in Hj. lia.
  - eapply core0_progress_quiet;
      [apply core0_progress_start | trace_eq | reflexivity .. | apply quiet_clock_safe_printf].
  - rewrite Hloop. exec env. eexists. split; [reflexivity |].
    eapply core0_progress_quiet; [exact Hend | trace_eq | reflexivity .. | apply quiet_task_end].
Qed.


End Loops.

(** ** Worker A: sends *)

Lemma latency_exact now ts :
  0 <= ts <= now -> now < 2 ^ 64 -> wrap64 (wrap64 now - ts) = now - ts.
Proof.
  intros Hts Hnow. rewrite (wrap64_small now) by lia. apply wrap64_small. lia.
Qed.

(** C2: over the 100 iterations of [core0_task] a send is attempted on the
    iterations whose index is a multiple of 10 and on no other: an iteration
    makes one send if its index is a multiple of 10 and none otherwise, and
    the sends of a whole run carry the message ids 0, 10, ..., 90, so there
    are ten of them.  Each is sent with the timeout [pdMS_TO_TICKS(100)] and
    carries as timestamp the clock reading taken right before the send. *)
Theorem core0_sends_every_tenth_iteration env pdMS_TO_TICKS message w0 :
  (forall i m w,
      exists m' w' calls,
        run env (core0_iteration pdMS_TO_TICKS i m) w = Done m' w' /\
        w_trace w' = w_trace w ++ calls /\
        List.length (sends None calls) = if Z.rem i 10 =? 0 then 1%nat else 0%nat) /\
  exists w calls,
    run env (core0_task pdMS_TO_TICKS message) w0 = Done tt w /\
    w_trace w = w_trace w0 ++ calls /\
    stores core0_counter calls = 100%nat /\
    map (fun s => message_id (sc_message s)) (sends None calls)
    = [0; 10; 20; 30; 40; 50; 60; 70; 80; 90] /\
    Forall (stamped pdMS_TO_TICKS) (sends None calls).
Proof.
  split.
  - intros i m w.
    destruct (run_core0_iteration env pdMS_TO_TICKS i m w) as (t0 & t1 & sent & t2 & Hrun).
    do 3 eexists. split; [exact Hrun |]. split; [reflexivity |].
    rewrite sends_core0_calls. now destruct (Z.rem i 10 =? 0).
  - destruct (run_core0_task env pdMS_TO_TICKS message w0)
      as (w & Hrun & calls & elapsed & Hp & _ & _ & Hids & Hstamped).
    exists w, calls. destruct Hp as [Htr _ _ _ Hstores _ _].
    repeat split; assumption.
Qed.

(** C1, as the code has it: an iteration of [core0_task] makes exactly one
    send if its index is a multiple of 10 and none otherwise, whatever the
    outcome of the send (there is no retry).  If the send times out nothing
    is written to the console in that iteration; if it succeeds the line
    "Core 0: Sent message i" is written.  In both cases the iteration goes
    on: the counter is bumped and the bookkeeping calls follow. *)
Theorem core0_send_outcome env pdMS_TO_TICKS i message w :
  exists t0 now sent t2 message' w',
    run env (core0_iteration pdMS_TO_TICKS i message) w = Done message' w' /\
    w_trace w' = w_trace w ++ core0_calls pdMS_TO_TICKS i message t0 now sent
                                          (w_core0_counter w) t2 (w_core0_total_time w) /\
    sends None (core0_calls pdMS_TO_TICKS i message t0 now sent
                            (w_core0_counter w) t2 (w_core0_total_time w))
    = (if Z.rem i 10 =? 0
       then [mkSend (Some now) (core0_message i message now) (pdMS_TO_TICKS 100) sent]
       else []) /\
    w_stdout w' = w_stdout w
                  ++ (if (Z.rem i 10 =? 0) && sent
                      then list_ascii_of_string (core0_sent_line i)
                      else []) /\
    w_core0_counter w' = wrap32 (w_core0_counter w + 1).
Proof.
  destruct (run_core0_iteration env pdMS_TO_TICKS i message w) as (t0 & t1 & sent & t2 & Hrun).
  exists t0, t1, sent, t2. do 2 eexists. split; [exact Hrun |].
  rewrite sends_core0_calls. repeat split.
Qed.

(** C1, as stated, fails: with every send timing out, a run of
    [core0_task] makes its ten sends, all of them dropped, and the console
    holds the start line and the completion line only. *)
Lemma core0_dropped_sends_are_silent :
  match run env_full_queue (core0_task ticks_at_100_hz blank_message) boot with
  | Done _ w =>
      map sc_sent (sends None (w_trace w)) = repeat false 10 /\
      string_of_list_ascii (w_stdout w)
      = ("Core 0 Task Started (PRO_CPU)" ++ LF
         ++ "Core 0 Task Completed in 1 ms" ++ LF)%string
  | Trapped _ => False
  end.
Proof. vm_compute. split; reflexivity. Qed.

(** ** Worker B: the latency report *)

(** C4: in an iteration of [core1_task], a receive that hands back a message
    is followed at once by a clock reading [now], and the line written to
    the console holds the text of the message's [data] and the latency
    [now - timestamp] (in 64-bit unsigned arithmetic, which is the plain
    difference when the timestamp is not after [now]); a receive that times
    out writes nothing.  The text of [data] is what stands in front of its
    first NUL; if [data] holds no NUL, the line holds its characters
    followed by what [vprintf] read behind the array. *)
Theorem core1_reports_latency env pdMS_TO_TICKS i received_message w :
  exists r t0 now behind t2 received_message' w',
    run env (core1_iteration pdMS_TO_TICKS i received_message) w = Done received_message' w' /\
    w_trace w' = w_trace w ++ core1_calls pdMS_TO_TICKS r t0 now behind
                                          (w_core1_counter w) t2 (w_core1_total_time w) /\
    match r with
    | Some m =>
        let latency := wrap64 (wrap64 now - timestamp m) in
        let text :=
          match c_str (data m) with
          | Some payload => payload
          | None => (string_of_list_ascii (data m) ++ behind)%string
          end in
        w_stdout w' = w_stdout w
                      ++ list_ascii_of_string
                           ("Core 1: Received '" ++ text
                            ++ "' (latency: " ++ fmt_llu latency ++ " " ++ mu ++ "s)" ++ LF) /\
        (0 <= timestamp m <= now -> now < 2 ^ 64 -> latency = now - timestamp m)
    | None => w_stdout w' = w_stdout w
    end.
Proof.
  destruct (run_core1_iteration env pdMS_TO_TICKS i received_message w)
    as (r & t0 & t1 & behind & t2 & Hrun).
  exists r, t0, t1, behind, t2. do 2 eexists. split; [exact Hrun |]. split; [reflexivity |].
  unfold core1_after, core1_output. cbn [w_stdout].
  destruct r as [m |].
  - split; [reflexivity | apply latency_exact].
  - apply app_nil_r.
Qed.

(** ** Both workers: the counters *)


(** ** The monitor *)

Lemma run_bind_average {A : Type} env counter total (k : Z -> prog A) w :
  run env (bind (average counter total) k) w =
  run env (k (average_value (read counter w) (read total w)))
      (after_calls [] (average_calls counter total (read counter w) (read total w)) w).
Proof.
  unfold average, average_value, average_calls, after_calls.
  rewrite run_bind_assoc. unfold call. cbn [bind]. rewrite run_vis. cbn [respond effect].
  destruct (Z.ltb_spec 0 (read counter w)) as [Hpos | Hzero].
  - cbn [bind]. rewrite !run_vis. cbn [respond effect].
    assert (forall o o', read counter (record o (record o' w)) = read counter w)
      as -> by now destruct counter.
    assert (forall o, read total (record o w) = read total w) as -> by now destruct total.
    unfold udiv64.
    destruct (Z.eqb_spec (read counter w) 0) as [Heq | _]; [lia |].
    cbn [bind]. f_equal. unfold record. cbn. now rewrite <- !app_assoc, app_nil_r.
  - cbn [bind]. f_equal. unfold record. cbn. now rewrite app_nil_r.
Qed.

Ltac exec_reads env :=
  repeat (exec env; try (rewrite run_bind_average; tidy)).

Lemma run_monitor_iteration env pdMS_TO_TICKS i last_wake_time w :
  exists waiting heap,
    run env (monitor_iteration pdMS_TO_TICKS i last_wake_time) w =
    Done (wrap32 (last_wake_time + pdMS_TO_TICKS 1000))
         (after_calls
            (monitor_report i (w_core0_counter w) (w_core0_total_time w)
                            (w_core1_counter w) (w_core1_total_time w) waiting heap)
            (monitor_calls pdMS_TO_TICKS i last_wake_time
                           (w_core0_counter w) (w_core0_total_time w)
                           (w_core1_counter w) (w_core1_total_time w) waiting heap)
            w).
Proof.
  unfold monitor_iteration. exec_reads env.
  exists waiting, heap. unfold monitor_report, monitor_calls, after_calls.
  rewrite <- ?app_assoc. cbn [app]. rewrite <- ?app_assoc. cbn [app].
  rewrite <- ?app_assoc. reflexivity.
Qed.









Section Monitor.

Variables (env : Env) (pdMS_TO_TICKS : Z -> Z).



End Monitor.

(** ** The coordinator *)

Lemma run_app_main env pdMS_TO_TICKS w :
  exists queue mutex created0 created1 created2,
    run env (app_main pdMS_TO_TICKS) w =
    Done tt (after_calls
               (app_main_output queue mutex created0 created1 created2
                                (w_core0_counter w) (w_core0_total_time w)
                                (w_core1_counter w) (w_core1_total_time w))
               (app_main_calls pdMS_TO_TICKS queue mutex created0 created1 created2
                               (w_core0_counter w) (w_core0_total_time w)
                               (w_core1_counter w) (w_core1_total_time w))
               w).
Proof.
  unfold app_main, printf. exec env.
  exists queue, mutex.
  unfold app_main_output, app_main_calls, startup_banner, startup_calls, task_create_calls,
    final_report, final_report_calls, after_calls.
  destruct (negb queue || negb mutex).
  - exec env. exists false, false, false.
    f_equal. f_equal; rewrite <- ?app_assoc; reflexivity.
  - exec env. exists created, created0, created1.
    destruct (negb created || negb created0 || negb created1).
    + exec env. f_equal. f_equal; rewrite <- ?app_assoc; cbn [app]; reflexivity.
    + exec_reads env. f_equal.
      f_equal; rewrite <- ?app_assoc; cbn [app]; rewrite <- ?app_assoc; cbn [app];
        rewrite <- ?app_assoc; try reflexivity.
Qed.

Lemma no_task_create_putchars s : existsb is_task_create (putchars s) = false.
Proof.
  unfold putchars. induction (list_ascii_of_string s) as [| c r IH]; [reflexivity | exact IH].
Qed.

(** [app_main] on its own: if either creation failed it prints the failure
    and returns, having created no task; the tasks are created when, and
    only when, both creations succeeded. *)
Lemma app_main_creates_tasks_after_both env pdMS_TO_TICKS w :
  exists queue mutex created0 created1 created2 w' calls,
    run env (app_main pdMS_TO_TICKS) w = Done tt w' /\
    w_trace w' = w_trace w ++ calls /\
    existsb is_task_create calls = queue && mutex /\
    (if queue && mutex
     then exists rest,
         calls = startup_calls queue mutex
                 ++ putchars ("Creating tasks..." ++ LF)
                 ++ task_create_calls created0 created1 created2 ++ rest
     else
       calls = startup_calls queue mutex
               ++ putchars ("Failed to create synchronization objects!" ++ LF) /\
       w_stdout w' = w_stdout w ++ startup_banner
                     ++ list_ascii_of_string
                          ("Failed to create synchronization objects!" ++ LF)).
Proof.
  destruct (run_app_main env pdMS_TO_TICKS w) as (queue & mutex & c0 & c1 & c2 & Hrun).
  exists queue, mutex, c0, c1, c2. do 2 eexists.
  split; [exact Hrun |]. split; [reflexivity |].
  unfold app_main_calls, app_main_output, after_calls. cbn [w_stdout].
  destruct queue, mutex; cbn [negb orb andb].
  - split.
    + unfold startup_calls, task_create_calls.
      rewrite !existsb_app, !no_task_create_putchars. reflexivity.
    + eexists. reflexivity.
  - split; [| split; reflexivity].
    unfold startup_calls. rewrite !existsb_app, !no_task_create_putchars. reflexivity.
  - split; [| split; reflexivity].
    unfold startup_calls. rewrite !existsb_app, !no_task_create_putchars. reflexivity.
  - split; [| split; reflexivity].
    unfold startup_calls. rewrite !existsb_app, !no_task_create_putchars. reflexivity.
Qed.

(** The average of a task running alone: the value of
    [counter > 0 ? total / counter : 0], computed without a division by
    zero, and printed by every monitor cycle and by the final report. *)
Lemma average_computed_alone env pdMS_TO_TICKS :
  (forall c t, (c = 0 -> average_value c t = 0) /\ (0 < c -> average_value c t = t / c)) /\
  (forall counter total w,
      exists w', run env (average counter total) w
                 = Done (average_value (read counter w) (read total w)) w') /\
  (forall i last_wake_time w,
      exists waiting heap last_wake_time' w',
        run env (monitor_iteration pdMS_TO_TICKS i last_wake_time) w = Done last_wake_time' w' /\
        w_stdout w' =
        w_stdout w
        ++ list_ascii_of_string (monitor_banner i)
        ++ list_ascii_of_string
             (iterations_line "0" (w_core0_counter w)
                (average_value (w_core0_counter w) (w_core0_total_time w)))
        ++ list_ascii_of_string
             (iterations_line "1" (w_core1_counter w)
                (average_value (w_core1_counter w) (w_core1_total_time w)))
        ++ list_ascii_of_string (waiting_line waiting)
        ++ list_ascii_of_string (heap_line heap)) /\
  (forall w,
      exists queue mutex created0 created1 created2 w',
        run env (app_main pdMS_TO_TICKS) w = Done tt w' /\
        w_stdout w' =
        w_stdout w
        ++ app_main_output queue mutex created0 created1 created2
             (w_core0_counter w) (w_core0_total_time w)
             (w_core1_counter w) (w_core1_total_time w)).
Proof.
  split; [| split; [| split]].
  - intros c t. unfold average_value. split; intros Hc.
    + now subst c.
    + now destruct (Z.ltb_spec 0 c); [| lia].
  - intros counter total w.
    pose proof (run_bind_average env counter total Ret w) as Hrun.
    rewrite run_bind in Hrun. cbn [run] in Hrun.
    destruct (run env (average counter total) w) as [v w' | w'].
    + injection Hrun as -> ->. eexists. reflexivity.
    + discriminate Hrun.
  - intros i last_wake_time w.
    destruct (run_monitor_iteration env pdMS_TO_TICKS i last_wake_time w)
      as (waiting & heap & Hrun).
    exists waiting, heap. do 2 eexists. split; [exact Hrun | reflexivity].
  - intros w.
    destruct (run_app_main env pdMS_TO_TICKS w) as (queue & mutex & c0 & c1 & c2 & Hrun).
    exists queue, mutex, c0, c1, c2. eexists. split; [exact Hrun | reflexivity].
Qed.


(** ** The message payload *)

Lemma snprintf_length buf size s :
  (size <= List.length buf)%nat -> List.length (snprintf buf size s) = List.length buf.
Proof.
  destruct size as [| n]; [reflexivity |]. intros Hsize. unfold snprintf.
  set (body := firstn n (list_ascii_of_string s)).
  assert (List.length body <= n)%nat as Hbody by apply firstn_le_length.
  rewrite length_app. cbn [List.length]. rewrite length_skipn. lia.
Qed.

Lemma c_str_terminated body rest :
  forallb (fun c => negb (Ascii.eqb c NUL)) body = true ->
  c_str (body ++ NUL :: rest) = Some (string_of_list_ascii body).
Proof.
  induction body as [| c body IH]; intros Hbody.
  - reflexivity.
  - cbn [forallb] in Hbody. apply andb_prop in Hbody as [Hc Hbody].
    cbn [app c_str string_of_list_ascii].
    destruct (Ascii.eqb c NUL); [discriminate | now rewrite IH].
Qed.

Lemma below_100 (f : Z -> bool) :
  forallb f (map Z.of_nat (seq 0 100)) = true ->
  forall i, 0 <= i < 100 -> f i = true.
Proof.
  intros Hall i Hi. rewrite forallb_forall in Hall. apply Hall.
  apply in_map_iff. exists (Z.to_nat i). split; [lia |]. apply in_seq. lia.
Qed.

Lemma payload_fits_below_100 i : 0 <= i < 100 -> payload_fits i = true.
Proof. apply below_100. vm_compute. reflexivity. Qed.

(** C10: the [data] array of a message built by [core0_task] is written by
    [snprintf] with the size of the array as bound: for every index the
    array keeps its 32 bytes, so nothing outside of it is written, and for
    the indices 0..99 of the loop the payload and its NUL take at most 32
    bytes, the array holds the whole text "Hello from Core 0 #i", and the
    other three fields hold what was assigned to them. *)
Theorem core0_payload_stays_in_data i message now :
  List.length (data message) = DATA_SIZE ->
  0 <= i < 100 ->
  let m := core0_message i message now in
  (forall j, List.length (data (core0_message j message now)) = DATA_SIZE) /\
  (String.length (core0_payload i) + 1 <= DATA_SIZE)%nat /\
  c_str (data m) = Some (core0_payload i) /\
  sender_core m = 0 /\ message_id m = i /\ timestamp m = wrap64 now.
Proof.
  intros Hdata Hi m.
  pose proof (payload_fits_below_100 i Hi) as Hfits.
  unfold payload_fits in Hfits. apply andb_prop in Hfits as [Hlen Hnul].
  apply Nat.leb_le in Hlen.
  assert (List.length (list_ascii_of_string (core0_payload i))
          = String.length (core0_payload i)) as Hsame.
  { generalize (core0_payload i). intros s. induction s as [| c s IH]; cbn; congruence. }
  split; [| split; [| split; [| split; [| split]]]].
  - intros j. cbn [core0_message data]. rewrite snprintf_length; [assumption |].
    rewrite Hdata. apply Nat.le_refl.
  - rewrite <- Hsame. lia.
  - cbn [m core0_message data]. unfold snprintf, DATA_SIZE.
    rewrite firstn_all2 by (unfold DATA_SIZE in Hlen; lia).
    rewrite c_str_terminated by assumption.
    now rewrite string_of_list_ascii_of_string.
  - reflexivity.
  - cbn [m core0_message message_id]. apply wrap32_small. lia.
  - reflexivity.
Qed.

Lemma core0_payload_stays_in_data_witness :
  c_str (data (core0_message 90 blank_message 5)) = Some "Hello from Core 0 #90"%string.
Proof.
  apply (core0_payload_stays_in_data 90 blank_message 5); [reflexivity | lia].
Defined.

(** ** The channel *)

Module ChannelFacts.
Import Channel.

Lemma apply_invariant q o :
  0 <= pending_count q <= capacity q ->
  let (out, q') := apply q o in
  capacity q' = capacity q /\
  0 <= pending_count q' <= capacity q' /\
  buffer q ++ enqueued [out] = dequeued [out] ++ buffer q'.
Proof.
  intros Hq. destruct o as [m |]; unfold apply.
  - unfold send. destruct (Z.ltb_spec (pending_count q) (capacity q)) as [Hroom | Hfull].
    + unfold pending_count in *. cbn. rewrite length_app. cbn. repeat split; lia.
    + cbn. rewrite app_nil_r. repeat split; lia.
  - unfold receive. destruct (buffer q) as [| m rest] eqn:Hbuf.
    + cbn. rewrite Hbuf. repeat split; lia.
    + unfold pending_count in *. rewrite Hbuf in Hq. cbn [List.length] in Hq.
      cbn. rewrite app_nil_r. repeat split; lia.
Qed.

Lemma enqueued_cons out outs : enqueued (out :: outs) = enqueued [out] ++ enqueued outs.
Proof. destruct out; reflexivity. Qed.

Lemma dequeued_cons out outs : dequeued (out :: outs) = dequeued [out] ++ dequeued outs.
Proof. destruct out; reflexivity. Qed.

Lemma run_ops_invariant ops : forall q,
  0 <= pending_count q <= capacity q ->
  capacity (snd (run_ops q ops)) = capacity q /\
  0 <= pending_count (snd (run_ops q ops)) <= capacity q /\
  buffer q ++ enqueued (fst (run_ops q ops))
  = dequeued (fst (run_ops q ops)) ++ buffer (snd (run_ops q ops)).
Proof.
  induction ops as [| o ops IH]; intros q Hq.
  - cbn. rewrite app_nil_r. repeat split; lia.
  - cbn [run_ops]. pose proof (apply_invariant q o Hq) as Hstep.
    destruct (apply q o) as [out q']. destruct Hstep as (Hcap & Hq' & Hfifo).
    specialize (IH q' Hq'). destruct (run_ops q' ops) as [outs q''].
    cbn [fst snd] in *. destruct IH as (Hcap' & Hq'' & Hfifo').
    rewrite Hcap in *. repeat split; try lia.
    rewrite enqueued_cons, dequeued_cons, app_assoc, Hfifo, <- app_assoc, Hfifo'.
    now rewrite app_assoc.
Qed.

End ChannelFacts.

(** C6: after any sequence of sends and receives on the queue of capacity
    10, the number of messages waiting is between 0 and 10, and the messages
    queued so far are, in the same order, the messages received so far
    followed by the messages still waiting. *)
Theorem channel_is_bounded_and_fifo ops :
  let outs := fst (Channel.run_ops Channel.core_queue ops) in
  let q := snd (Channel.run_ops Channel.core_queue ops) in
  0 <= Channel.pending_count q <= 10 /\
  Channel.enqueued outs = Channel.dequeued outs ++ Channel.buffer q.
Proof.
  destruct (ChannelFacts.run_ops_invariant ops Channel.core_queue) as (_ & Hbound & Hfifo).
  - cbn. lia.
  - split; [exact Hbound | exact Hfifo].
Qed.

(** ** The console *)

Module SchedFacts.
Import Sched.

Lemma worker_bind {A B : Type} (p : prog A) (f : A -> prog B) h1 h2 :
  forall h, worker p h h1 ->
            (forall a, worker (f a) h1 h2) ->
            worker (bind p f) h h2.
Proof.
  induction p as [a | X e k IH |]; intros h Hp Hf.
  - cbn in Hp. subst h1. apply Hf.
  - cbn [bind worker] in *.
    destruct e; cbn in *;
      first [ contradiction
            | destruct Hp as [Hh Hp]; split; [exact Hh | now apply IH]
            | intros x; now apply IH ].
  - exact I.
Qed.

Lemma worker_call {X : Type} (e : event X) h :
  quiet e = true -> creates e = false -> worker (call e) h h.
Proof.
  destruct e; cbn; intros Hq Hc; try discriminate Hq; try discriminate Hc;
    intros; reflexivity.
Qed.

Lemma worker_ret {A : Type} (a : A) h : worker (Ret a) h h.
Proof. reflexivity. Qed.

Lemma worker_vprintf s : worker (vprintf s) true true.
Proof.
  induction s as [| c s IH]; [reflexivity |].
  cbn. split; [reflexivity | exact IH].
Qed.

Lemma worker_safe_printf s : worker (safe_printf s) false false.
Proof.
  unfold safe_printf. cbn [call bind worker]. split; [reflexivity |].
  apply worker_bind with (h1 := true); [apply worker_vprintf |].
  intros _. cbn. now split.
Qed.

Lemma worker_read_str l h : worker (read_str l) h h.
Proof.
  unfold read_str. destruct (c_str l); [reflexivity |].
  cbn. intros behind. reflexivity.
Qed.

Lemma worker_safe_printf_reading (text : prog string) :
  worker text true true -> worker (safe_printf_reading text) false false.
Proof.
  intros Htext. unfold safe_printf_reading. cbn [call bind worker].
  split; [reflexivity |].
  apply worker_bind with (h1 := true).
  - apply worker_bind with (h1 := true); [exact Htext | intros s; apply worker_vprintf].
  - intros _. cbn. now split.
Qed.

Lemma worker_for_loop {L : Type} (body : Z -> L -> prog L) h n :
  (forall i s, worker (body i s) h h) ->
  forall i s, worker (for_loop n i body s) h h.
Proof.
  intros Hbody. induction n as [| n IH]; intros i s; [reflexivity |].
  cbn [for_loop]. apply worker_bind with (h1 := h); [apply Hbody |].
  intros s'. apply IH.
Qed.

Lemma worker_average counter total h : worker (average counter total) h h.
Proof.
  unfold average. apply worker_bind with (h1 := h); [now apply worker_call |].
  intros c. destruct (0 <? c); [| reflexivity].
  apply worker_bind with (h1 := h); [now apply worker_call |]. intros t.
  apply worker_bind with (h1 := h); [now apply worker_call |]. intros c'.
  unfold udiv64. now destruct (c' =? 0).
Qed.

(** Routine goals: a program built from ordinary calls, console writes
    under the mutex and returns. *)
Ltac workers :=
  repeat match goal with
         | |- worker (safe_printf _) _ _ => apply worker_safe_printf
         | |- worker (average _ _) _ _ => apply worker_average
         | |- worker (Ret _) _ _ => apply worker_ret
         | |- worker (call _) _ _ => apply worker_call; reflexivity
         | |- worker (bind _ _) _ _ =>
             apply worker_bind with (h1 := false); [| intros ?]
         end.

Lemma worker_core0_iteration pdMS_TO_TICKS i message :
  worker (core0_iteration pdMS_TO_TICKS i message) false false.
Proof.
  unfold core0_iteration. workers.
  destruct (Z.rem i 10 =? 0); [unfold core0_send | ]; workers.
  match goal with |- context [if ?b then _ else _] => destruct b end; workers.
Qed.

Lemma worker_core1_iteration pdMS_TO_TICKS i received_message :
  worker (core1_iteration pdMS_TO_TICKS i received_message) false false.
Proof.
  unfold core1_iteration. workers.
  match goal with |- context [match ?r with Some _ => _ | None => _ end] =>
    destruct r end; [unfold core1_report |]; workers.
  apply worker_safe_printf_reading.
  apply worker_bind with (h1 := true); [apply worker_read_str | intros text; reflexivity].
Qed.

Lemma worker_monitor_iteration pdMS_TO_TICKS i last_wake_time :
  worker (monitor_iteration pdMS_TO_TICKS i last_wake_time) false false.
Proof. unfold monitor_iteration. workers. Qed.

Lemma worker_bodies pdMS_TO_TICKS message received_message f :
  worker (bodies pdMS_TO_TICKS message received_message f) false false.
Proof.
  destruct f; cbn [bodies].
  - unfold core0_task, for_lt. workers.
    apply worker_for_loop. apply worker_core0_iteration.
  - unfold core1_task, for_lt. workers.
    apply worker_for_loop. apply worker_core1_iteration.
  - unfold monitor_task, for_lt. workers.
    apply worker_for_loop. apply worker_monitor_iteration.
Qed.

Lemma coordinator_bind {A B : Type} (p : prog A) (f : A -> prog B) q m :
  harmless p ->
  (forall a, coordinator (f a) q m) ->
  coordinator (bind p f) q m.
Proof.
  induction p as [a | X e k IH |]; intros Hp Hf.
  - apply Hf.
  - cbn [bind coordinator harmless] in *.
    destruct e; cbn in *; first [contradiction | intros x; now apply IH].
  - exact I.
Qed.

Lemma coordinator_harmless {A : Type} (p : prog A) q m :
  harmless p -> coordinator p q m.
Proof.
  induction p as [a | X e k IH |]; intros Hp; [exact I | | exact I].
  cbn [coordinator harmless] in *.
  destruct e; cbn in *; first [contradiction | intros x; now apply IH].
Qed.

Lemma harmless_vprintf s : harmless (vprintf s).
Proof. induction s as [| c s IH]; [exact I |]. cbn. intros _. exact IH. Qed.

Lemma harmless_average counter total : harmless (average counter total).
Proof.
  unfold average, udiv64. cbn. intros c. destruct (0 <? c); cbn; [| exact I].
  intros t c'. now destruct (c' =? 0).
Qed.

Lemma coordinator_app_main pdMS_TO_TICKS : coordinator (app_main pdMS_TO_TICKS) None None.
Proof.
  unfold app_main, printf.
  repeat (apply coordinator_bind; [apply harmless_vprintf | intros _]).
  cbn [bind call coordinator]. split; [reflexivity |]. intros queue.
  split; [reflexivity |]. intros mutex.
  destruct queue, mutex; cbn [negb orb];
    try (apply coordinator_harmless; apply harmless_vprintf).
  apply coordinator_bind; [apply harmless_vprintf | intros _].
  cbn [bind call coordinator].
  do 2 (split; [reflexivity |]). intros created0.
  do 2 (split; [reflexivity |]). intros created1.
  do 2 (split; [reflexivity |]). intros created2.
  destruct (negb created0 || negb created1 || negb created2).
  - apply coordinator_harmless, harmless_vprintf.
  - apply coordinator_bind; [apply harmless_vprintf | intros _].
    cbn [bind call coordinator]. intros _.
    apply coordinator_bind; [apply harmless_vprintf | intros _].
    cbn [bind call coordinator]. intros c0.
    apply coordinator_bind; [apply harmless_vprintf | intros _].
    cbn [bind call coordinator]. intros c1.
    apply coordinator_bind; [apply harmless_vprintf | intros _].
    apply coordinator_bind; [apply harmless_average | intros avg0].
    apply coordinator_bind; [apply harmless_vprintf | intros _].
    apply coordinator_bind; [apply harmless_average | intros avg1].
    apply coordinator_bind; [apply harmless_vprintf | intros _].
    apply coordinator_harmless, harmless_vprintf.
Qed.

End SchedFacts.

Module Interleaving.
Import Sched SchedFacts.

Lemma upd_same {V : Type} (f : tid -> V) t v : upd f t v t = v.
Proof. unfold upd. now rewrite Nat.eqb_refl. Qed.

Lemma upd_other {V : Type} (f : tid -> V) t v t' : t' <> t -> upd f t v t' = f t'.
Proof. intros Hne. unfold upd. now apply Nat.eqb_neq in Hne as ->. Qed.

Lemma contiguous_snoc {T : Type} (l : list T) x :
  contiguous l ->
  (forall i j, (i <= j < List.length l)%nat ->
               nth_error l i = Some x -> nth_error l j = Some x) ->
  contiguous (l ++ [x]).
Proof.
  intros Hl Hlast i j k y Hijk Hi Hk.
  assert (k < List.length (l ++ [x]))%nat as Hklen
      by (apply nth_error_Some; congruence).
  rewrite length_app in Hklen. cbn in Hklen.
  destruct (Nat.eq_dec k (List.length l)) as [-> | Hne].
  - rewrite nth_error_app2, Nat.sub_diag in Hk by lia. injection Hk as <-.
    destruct (Nat.eq_dec j (List.length l)) as [-> | Hj].
    + now rewrite nth_error_app2, Nat.sub_diag by lia.
    + rewrite nth_error_app1 in * by lia. apply (Hlast i j); [lia | assumption].
  - rewrite nth_error_app1 in * by lia. now apply (Hl i j k).
Qed.

Lemma quiet_stdout {X : Type} (e : event X) w :
  quiet e = true -> w_stdout (effect e w) = w_stdout w.
Proof.
  destruct e; cbn; intros Hq; try discriminate Hq; try reflexivity.
  now destruct g.
Qed.

Lemma worker_quiet {A X : Type} (e : event X) (k : X -> prog A) h h' :
  quiet e = true -> worker (Vis e k) h h' ->
  forall x, worker (k x) h h' /\
            (forall old, queue_answer e x old = old) /\
            (forall old, mutex_answer e x old = old).
Proof.
  destruct e; cbn; intros Hq Hw; try discriminate Hq; try contradiction;
    intros x; repeat split; apply Hw.
Qed.

Lemma coordinator_quiet {A X : Type} (e : event X) (k : X -> prog A) q m :
  quiet e = true -> coordinator (Vis e k) q m ->
  forall x, coordinator (k x) (queue_answer e x q) (mutex_answer e x m) /\
            (queue_answer e x q = q \/ q = None) /\
            (mutex_answer e x m = m \/ m = None).
Proof.
  destruct e; cbn; intros Hq Hc; try discriminate Hq; try contradiction; intros x;
    first [ destruct Hc as [-> Hc]; repeat split; auto
          | repeat split; auto ].
Qed.

Lemma holds_true s t : holds s t = true -> mutex s = Some t.
Proof.
  unfold holds. destruct (mutex s) as [t' |]; [| discriminate].
  intros Heq. apply Nat.eqb_eq in Heq. now subst.
Qed.

Lemma sink_tags_snoc l e :
  map (fun e => (writer e, write_no e)) (filter locked (l ++ [e]))
  = map (fun e => (writer e, write_no e)) (filter locked l)
    ++ (if locked e then [(writer e, write_no e)] else []).
Proof. rewrite filter_app, map_app. cbn. now destruct (locked e). Qed.

Lemma invariant_start pdMS_TO_TICKS : invariant (start pdMS_TO_TICKS).
Proof.
  constructor; cbn.
  - apply coordinator_app_main.
  - reflexivity.
  - intros [| t] Ht; [lia | reflexivity].
  - lia.
  - intros [| t] Ht; [lia | reflexivity].
  - intros t Hm. discriminate Hm.
  - reflexivity.
  - intros t n [].
  - intros i j k x _ Hi. now destruct i.
  - intros t Hm. discriminate Hm.
  - intros e [].
  - lia.
Qed.

Section Preservation.

Variable body : task_fn -> prog unit.
Hypothesis body_worker : forall f, worker (body f) false false.

(** A slot that holds a call is in use. *)
Lemma running_below_next s t {X : Type} (e : event X) k :
  invariant s -> pool s t = Vis e k -> (t < next s)%nat.
Proof.
  intros Hinv Hpool. destruct (Nat.lt_ge_cases t (next s)) as [Hlt | Hge]; [assumption |].
  rewrite (inv_fresh s Hinv t Hge) in Hpool. discriminate Hpool.
Qed.

Ltac fields := cbn [pool next mutex world takes console queue_made mutex_made] in *.

Lemma invariant_take s t k :
  invariant s ->
  pool s t = Vis xSemaphoreTake k ->
  mutex s = None ->
  invariant (mkSys (upd (pool s) t (k tt)) (next s) (Some t)
                   (record (Obs xSemaphoreTake tt) (world s))
                   (upd (takes s) t (S (takes s t))) (console s)
                   (queue_made s) (mutex_made s)).
Proof.
  intros Hinv Hpool Hfree.
  pose proof (running_below_next s t _ k Hinv Hpool) as Hlt.
  destruct Hinv as [Hmain Hmain0 Hworkers Hnext Hfresh Hholder Hout Htakes Hcontig Hwrite
                      Hlocked Hspawned].
  destruct t as [| t'].
  { rewrite Hpool in Hmain. cbn in Hmain. contradiction. }
  pose proof (Hworkers (S t') ltac:(lia)) as Hw. rewrite Hpool in Hw. cbn in Hw.
  destruct Hw as [_ Hk].
  constructor; unfold write_in_progress, sink_tags, holds in *; fields.
  - now rewrite upd_other by lia.
  - reflexivity.
  - intros t Ht. destruct (Nat.eq_dec t (S t')) as [-> | Hne].
    + now rewrite upd_same, Nat.eqb_refl.
    + rewrite upd_other by assumption.
      replace (Nat.eqb (S t') t) with false by (symmetry; apply Nat.eqb_neq; congruence).
      specialize (Hworkers t Ht). now rewrite Hfree in Hworkers.
  - assumption.
  - intros t Ht. rewrite upd_other by lia. now apply Hfresh.
  - intros t Hm. injection Hm as <-. assumption.
  - assumption.
  - intros t n Hin. specialize (Htakes t n Hin).
    destruct (Nat.eq_dec t (S t')) as [-> | Hne].
    + rewrite upd_same. lia.
    + now rewrite upd_other.
  - assumption.
  - intros t Hm i j Hij Hi. injection Hm as <-. rewrite upd_same in Hi.
    apply nth_error_In, Htakes in Hi. lia.
  - assumption.
  - assumption.
Qed.

Lemma invariant_give s t k :
  invariant s ->
  pool s t = Vis xSemaphoreGive k ->
  invariant (mkSys (upd (pool s) t (k tt)) (next s) None
                   (record (Obs xSemaphoreGive tt) (world s))
                   (takes s) (console s) (queue_made s) (mutex_made s)).
Proof.
  intros Hinv Hpool.
  destruct Hinv as [Hmain Hmain0 Hworkers Hnext Hfresh Hholder Hout Htakes Hcontig Hwrite
                      Hlocked Hspawned].
  destruct t as [| t'].
  { rewrite Hpool in Hmain. cbn in Hmain. contradiction. }
  pose proof (Hworkers (S t') ltac:(lia)) as Hw. rewrite Hpool in Hw. cbn in Hw.
  destruct Hw as [Hheld Hk]. apply holds_true in Hheld.
  constructor; unfold write_in_progress, sink_tags, holds in *; fields.
  - now rewrite upd_other by lia.
  - reflexivity.
  - intros t Ht. destruct (Nat.eq_dec t (S t')) as [-> | Hne].
    + now rewrite upd_same.
    + rewrite upd_other by assumption.
      specialize (Hworkers t Ht). rewrite Hheld in Hworkers.
      now replace (Nat.eqb (S t') t) with false in Hworkers
        by (symmetry; apply Nat.eqb_neq; congruence).
  - assumption.
  - intros t Ht. destruct (Nat.eq_dec t (S t')) as [-> | Hne].
    + specialize (Hholder _ Hheld). lia.
    + rewrite upd_other by assumption. now apply Hfresh.
  - intros t Hm. discriminate Hm.
  - assumption.
  - assumption.
  - assumption.
  - intros t Hm. discriminate Hm.
  - assumption.
  - assumption.
Qed.

Lemma invariant_putchar s t c k :
  invariant s ->
  pool s t = Vis (putchar c) k ->
  invariant (mkSys (upd (pool s) t (k tt)) (next s) (mutex s)
                   (record (Obs (putchar c) tt) (emit c (world s)))
                   (takes s) (console s ++ [mkEntry t (takes s t) (holds s t) c])
                   (queue_made s) (mutex_made s)).
Proof.
  intros Hinv Hpool.
  pose proof (running_below_next s t _ k Hinv Hpool) as Hlt.
  destruct Hinv as [Hmain Hmain0 Hworkers Hnext Hfresh Hholder Hout Htakes Hcontig Hwrite
                      Hlocked Hspawned].
  destruct t as [| t'].
  - (* the main task, without the mutex *)
    rewrite Hpool in Hmain. cbn in Hmain.
    constructor; unfold write_in_progress, sink_tags in *; fields;
      rewrite ?sink_tags_snoc; cbn [locked writer write_no]; rewrite ?Hmain0, ?app_nil_r;
      try assumption.
    + rewrite upd_same. apply Hmain.
    + intros t Ht. rewrite upd_other by lia. now apply Hworkers.
    + intros t Ht. rewrite upd_other by lia. now apply Hfresh.
    + rewrite map_app, Hout. reflexivity.
    + intros e Hin Hw. apply in_app_or in Hin as [Hin | [<- | []]]; [now apply Hlocked |].
      cbn in Hw. lia.
  - (* a worker, under the mutex *)
    pose proof (Hworkers (S t') ltac:(lia)) as Hw. rewrite Hpool in Hw. cbn in Hw.
    destruct Hw as [Hheld Hk]. pose proof (holds_true _ _ Hheld) as Hmutex.
    constructor; unfold write_in_progress, sink_tags in *; fields;
      rewrite ?sink_tags_snoc; cbn [locked writer write_no]; rewrite ?Hheld;
      try assumption.
    + intros t Ht. unfold holds in *. fields. destruct (Nat.eq_dec t (S t')) as [-> | Hne].
      * now rewrite upd_same.
      * rewrite upd_other by assumption. now apply Hworkers.
    + intros t Ht. rewrite upd_other by lia. now apply Hfresh.
    + rewrite map_app, Hout. reflexivity.
    + intros t n Hin. apply in_app_or in Hin as [Hin | [Heq | []]].
      * now apply Htakes.
      * injection Heq as <- <-. lia.
    + apply contiguous_snoc; [assumption |]. apply (Hwrite _ Hmutex).
    + intros t Hm i j Hij Hi. rewrite Hmutex in Hm. injection Hm as <-.
      rewrite length_app in Hij. cbn [List.length] in Hij.
      destruct (Nat.eq_dec j (List.length
                                (map (fun e => (writer e, write_no e))
                                     (filter locked (console s))))) as [-> | Hj].
      * now rewrite nth_error_app2, Nat.sub_diag by lia.
      * rewrite nth_error_app1 in * by lia.
        apply (Hwrite _ Hmutex i j); [lia | assumption].
    + intros e Hin Hw. apply in_app_or in Hin as [Hin | [<- | []]]; [now apply Hlocked |].
      reflexivity.
Qed.

Lemma invariant_call s t {X : Type} (e : event X) k env :
  invariant s ->
  pool s t = Vis e k ->
  quiet e = true ->
  invariant (mkSys (upd (pool s) t (k (respond env e (world s)))) (next s) (mutex s)
                   (record (Obs e (respond env e (world s))) (effect e (world s)))
                   (takes s) (console s)
                   (queue_answer e (respond env e (world s)) (queue_made s))
                   (mutex_answer e (respond env e (world s)) (mutex_made s))).
Proof.
  intros Hinv Hpool Hquiet.
  pose proof (running_below_next s t _ k Hinv Hpool) as Hlt.
  destruct Hinv as [Hmain Hmain0 Hworkers Hnext Hfresh Hholder Hout Htakes Hcontig Hwrite
                      Hlocked Hspawned].
  set (x := respond env e (world s)).
  assert (w_stdout (record (Obs e x) (effect e (world s))) = w_stdout (world s)) as Hsame
      by (unfold record; cbn [w_stdout]; now apply quiet_stdout).
  destruct t as [| t'].
  - rewrite Hpool in Hmain.
    destruct (coordinator_quiet e k _ _ Hquiet Hmain x) as (Hk & Hq & Hm).
    constructor; unfold write_in_progress, sink_tags in *; fields; try assumption.
    + intros t Ht. rewrite upd_other by lia. now apply Hworkers.
    + intros t Ht. rewrite upd_other by lia. now apply Hfresh.
    + now rewrite Hsame.
    + intros Hmany. destruct (Hspawned Hmany) as [Hqs Hms].
      destruct Hq as [-> | Hq]; [| congruence].
      destruct Hm as [-> | Hm]; [| congruence]. now split.
  - pose proof (Hworkers (S t') ltac:(lia)) as Hw. rewrite Hpool in Hw.
    destruct (worker_quiet e k _ _ Hquiet Hw x) as (Hk & Hq & Hm).
    rewrite Hq, Hm.
    constructor; unfold write_in_progress, sink_tags in *; fields; try assumption.
    + intros t Ht. unfold holds in *. fields. destruct (Nat.eq_dec t (S t')) as [-> | Hne].
      * now rewrite upd_same.
      * rewrite upd_other by assumption. now apply Hworkers.
    + intros t Ht. rewrite upd_other by lia. now apply Hfresh.
    + now rewrite Hsame.
Qed.

Lemma invariant_spawn s t f k created o :
  invariant s ->
  (exists name stack prio core,
      pool s t = Vis (xTaskCreatePinnedToCore f name stack prio core) k) \/
  (exists name stack prio, pool s t = Vis (xTaskCreate f name stack prio) k) ->
  invariant (spawn body s t f k created o).
Proof.
  intros Hinv Hpool.
  assert (t = O /\ queue_made s = Some true /\ mutex_made s = Some true /\
          forall b, coordinator (k b) (queue_made s) (mutex_made s)) as (-> & Hq & Hm & Hk).
  { destruct Hinv as [Hmain _ Hworkers _ _ _ _ _ _ _ _ _].
    destruct t as [| t'].
    - destruct Hpool as [(? & ? & ? & ? & Hpool) | (? & ? & ? & Hpool)];
        rewrite Hpool in Hmain; cbn in Hmain; destruct Hmain as (? & ? & ?); auto.
    - pose proof (Hworkers (S t') ltac:(lia)) as Hw.
      destruct Hpool as [(? & ? & ? & ? & Hpool) | (? & ? & ? & Hpool)];
        rewrite Hpool in Hw; cbn in Hw; contradiction. }
  clear Hpool.
  destruct Hinv as [Hmain Hmain0 Hworkers Hnext Hfresh Hholder Hout Htakes Hcontig Hwrite
                      Hlocked Hspawned].
  unfold spawn. destruct created.
  - constructor; unfold write_in_progress, sink_tags in *; fields; try assumption.
    + rewrite upd_other, upd_same by lia. apply Hk.
    + intros t Ht. unfold holds in *. fields.
      destruct (Nat.eq_dec t (next s)) as [-> | Hne].
      * rewrite upd_same.
        destruct (mutex s) as [t' |] eqn:Hmutex; [| apply body_worker].
        specialize (Hholder t' eq_refl).
        replace (Nat.eqb t' (next s)) with false by (symmetry; apply Nat.eqb_neq; lia).
        apply body_worker.
      * rewrite !upd_other by lia. now apply Hworkers.
    + lia.
    + intros t Ht. rewrite !upd_other by lia. apply Hfresh. lia.
    + intros t Ht. specialize (Hholder t Ht). lia.
    + now split.
  - constructor; unfold write_in_progress, sink_tags in *; fields; try assumption.
    + rewrite upd_same. apply Hk.
    + intros t Ht. rewrite upd_other by lia. now apply Hworkers.
    + intros t Ht. rewrite upd_other by lia. now apply Hfresh.
Qed.

Lemma invariant_step s s' : invariant s -> step body s s' -> invariant s'.
Proof.
  intros Hinv Hstep.
  destruct Hstep as [t k Hpool Hfree | t k Hpool | t c k Hpool | t X e k env Hpool Hquiet
                    | t f name stack prio core k created Hpool
                    | t f name stack prio k created Hpool].
  - now apply invariant_take.
  - now apply invariant_give.
  - now apply invariant_putchar.
  - now apply invariant_call.
  - apply invariant_spawn; [assumption |]. left. now exists name, stack, prio, core.
  - apply invariant_spawn; [assumption |]. right. now exists name, stack, prio.
Qed.

Lemma invariant_reachable s0 s : invariant s0 -> reachable body s0 s -> invariant s.
Proof.
  intros Hstart Hreach. induction Hreach as [| s s' _ IH Hstep]; [assumption |].
  now apply (invariant_step s s').
Qed.

End Preservation.

(** What holds in every state the program can reach from boot. *)
Lemma invariant_program pdMS_TO_TICKS message received_message s :
  reachable (bodies pdMS_TO_TICKS message received_message) (start pdMS_TO_TICKS) s -> invariant s.
Proof.
  apply invariant_reachable; [apply worker_bodies | apply invariant_start].
Qed.

Lemma reachable_trans body s0 s1 s2 :
  reachable body s0 s1 -> reachable body s1 s2 -> reachable body s0 s2.
Proof.
  intros H01 H12. induction H12 as [| s s' _ IH Hstep]; [assumption |].
  now apply reach_step with (s := s).
Qed.

(** A task that is about to [printf] can run the [printf] to its end. *)
Lemma reach_vprintf body str : forall s t k,
  pool s t = bind (vprintf str) k ->
  exists s',
    reachable body s s' /\
    pool s' t = k tt /\
    (forall t', t' <> t -> pool s' t' = pool s t') /\
    next s' = next s /\ mutex s' = mutex s /\
    queue_made s' = queue_made s /\ mutex_made s' = mutex_made s.
Proof.
  induction str as [| c str IH]; intros s t k Hpool.
  - exists s. repeat split; [apply reach_start | exact Hpool].
  - cbn [vprintf bind call] in Hpool.
    pose proof (step_putchar body s t c _ Hpool) as Hstep.
    match type of Hstep with step _ _ ?s1 => destruct (IH s1 t k) as (s' & Hreach & Hfacts) end.
    { cbn [pool]. now rewrite upd_same. }
    destruct Hfacts as (Hk & Hothers & Hnext & Hmutex & Hq & Hm).
    exists s'. repeat split; try assumption.
    + eapply reachable_trans; [| exact Hreach].
      eapply reach_step; [apply reach_start | exact Hstep].
    + intros t' Hne. rewrite (Hothers t' Hne). cbn [pool]. now apply upd_other.
Qed.

(** The program does run in this semantics.  With an SDK that cannot create
    the queue, the main task gets to know so; with one that creates
    everything, the main task starts [core0_task] as task 1. *)
Lemma program_can_fail_and_can_start pdMS_TO_TICKS message received_message :
  (exists s, reachable (bodies pdMS_TO_TICKS message received_message) (start pdMS_TO_TICKS) s /\
             queue_made s = Some false) /\
  (exists s, reachable (bodies pdMS_TO_TICKS message received_message) (start pdMS_TO_TICKS) s /\
             next s = 2%nat /\ pool s 1%nat = core0_task pdMS_TO_TICKS message).
Proof.
  set (body := bodies pdMS_TO_TICKS message received_message).
  destruct (reach_vprintf body _ (start pdMS_TO_TICKS) O _ eq_refl)
    as (s1 & Hreach1 & Hpool1 & _ & Hnext1 & _ & _ & _).
  destruct (reach_vprintf body _ s1 O _ Hpool1)
    as (s2 & Hreach2 & Hpool2 & _ & Hnext2 & _ & _ & _).
  cbn [bind call] in Hpool2.
  assert (reachable body (start pdMS_TO_TICKS) s2) as Hreach
      by (eapply reachable_trans; eassumption).
  split.
  - eexists. split.
    + eapply reach_step; [exact Hreach |].
      eapply (step_call body s2 O _ _ _ env_no_queue); [exact Hpool2 | reflexivity].
    + reflexivity.
  - pose proof (step_call body s2 O _ _ _ env_full_queue Hpool2 eq_refl) as Hstep3.
    match type of Hstep3 with step _ _ ?s => set (s3 := s) in * end.
    assert (pool s3 O = Vis xSemaphoreCreateMutex _) as Hpool3
        by (cbn [s3 pool]; rewrite upd_same; reflexivity).
    pose proof (step_call body s3 O _ _ _ env_full_queue Hpool3 eq_refl) as Hstep4.
    match type of Hstep4 with step _ _ ?s => set (s4 := s) in * end.
    destruct (reach_vprintf body ("Creating tasks..." ++ LF) s4 O _
                            ltac:(cbn [s4 pool]; rewrite upd_same; reflexivity))
      as (s5 & Hreach5 & Hpool5 & _ & Hnext5 & _ & _ & _).
    cbn [bind call] in Hpool5.
    pose proof (step_create_pinned body s5 O _ _ _ _ _ _ true Hpool5) as Hstep6.
    eexists. split; [| split].
    + eapply reach_step; [| exact Hstep6].
      eapply reachable_trans; [| exact Hreach5].
      eapply reach_step; [| exact Hstep4].
      eapply reach_step; [exact Hreach | exact Hstep3].
    + cbn [spawn next]. rewrite Hnext5. cbn [s4 s3 next]. now rewrite Hnext2, Hnext1.
    + cbn [spawn pool]. rewrite Hnext5. cbn [s4 s3 next]. rewrite Hnext2, Hnext1.
      reflexivity.
Qed.

(** Without the mutex the semantics does interleave: two tasks that use
    [printf] can put "a", "c", "b" on the console in that order. *)
Lemma unlocked_writes_can_interleave :
  exists s,
    reachable (bodies ticks_at_100_hz blank_message blank_message) two_printers s /\
    map char (console s) = ["a"; "c"; "b"]%char /\
    ~ contiguous (map (fun e => (writer e, write_no e)) (console s)).
Proof.
  eexists. split; [| split].
  - eapply reach_step; [eapply reach_step; [eapply reach_step; [apply reach_start |] |] |].
    + eapply (step_putchar _ _ 0%nat). reflexivity.
    + eapply (step_putchar _ _ 1%nat). reflexivity.
    + eapply (step_putchar _ _ 0%nat). reflexivity.
  - reflexivity.
  - intros Hcontig.
    specialize (Hcontig 0%nat 1%nat 2%nat (0%nat, 0%nat)).
    cbn in Hcontig. discriminate Hcontig; [lia | reflexivity | reflexivity].
Qed.

End Interleaving.

(** ** The counters under interleaving *)

Module SafetyFacts.
Import Safety.

Lemma obeys_weaken {A : Type} (p : prog A) (Q Q' : A -> view -> Prop) :
  (forall a v, Q a v -> Q' a v) ->
  forall v, obeys p v Q -> obeys p v Q'.
Proof.
  intros HQ. induction p as [a | X e k IH |]; intros v Hp; cbn [obeys] in *;
    [now apply HQ | | assumption].
  destruct e; cbn in *;
    first [ intros x Hx; apply IH, Hp; exact Hx
          | intros x; apply IH, Hp
          | match goal with
            | H : match ?o with Some _ => _ | None => False end |- _ =>
                destruct o; [| contradiction];
                first [intros b; apply IH, H | apply IH, H]
            end ].
Qed.

Lemma obeys_bind {A B : Type} (p : prog A) (f : A -> prog B) (Q : B -> view -> Prop) :
  forall v, obeys p v (fun a v' => obeys (f a) v' Q) -> obeys (bind p f) v Q.
Proof.
  induction p as [a | X e k IH |]; intros v Hp; cbn [obeys bind] in *;
    [assumption | | assumption].
  destruct e; cbn in *;
    first [ intros x Hx; apply IH, Hp; exact Hx
          | intros x; apply IH, Hp
          | match goal with
            | H : match ?o with Some _ => _ | None => False end |- _ =>
                destruct o; [| contradiction];
                first [intros b; apply IH, H | apply IH, H]
            end ].
Qed.

Lemma obeys_call {X : Type} (e : event X) v (Q : X -> view -> Prop) :
  plain e = true -> (forall x, Q x v) -> obeys (call e) v Q.
Proof.
  destruct e; cbn; intros Hplain HQ; try discriminate Hplain; exact HQ.
Qed.

Lemma obeys_load g v (Q : Z -> view -> Prop) :
  (forall x, known v g x -> Q x (learn v g x)) -> obeys (call (Load g)) v Q.
Proof. intros HQ. exact HQ. Qed.

Lemma obeys_store g x v v' (Q : unit -> view -> Prop) :
  store v g x = Some v' -> Q tt v' -> obeys (call (Store g x)) v Q.
Proof. intros Hstore HQ. cbn. now rewrite Hstore. Qed.

Lemma obeys_vprintf s v (Q : unit -> view -> Prop) :
  Q tt v -> obeys (vprintf s) v Q.
Proof.
  intros HQ. induction s as [| c s IH]; [exact HQ |].
  cbn. intros _. exact IH.
Qed.

Lemma obeys_safe_printf s v (Q : unit -> view -> Prop) :
  Q tt v -> obeys (safe_printf s) v Q.
Proof.
  intros HQ. unfold safe_printf. cbn [bind call obeys]. intros _.
  apply obeys_bind, obeys_vprintf. cbn. intros []. exact HQ.
Qed.

Lemma obeys_safe_printf_reading l (line : string -> string) v
      (Q : unit -> view -> Prop) :
  Q tt v ->
  obeys (safe_printf_reading (text <- read_str l ;; Ret (line text))) v Q.
Proof.
  intros HQ. unfold safe_printf_reading, read_str. cbn [bind call obeys]. intros _.
  destruct (c_str l) as [text |]; cbn [bind call obeys]; [| intros behind];
    apply obeys_bind, obeys_vprintf; cbn; intros []; exact HQ.
Qed.

Lemma obeys_for_loop {L : Type} (body : Z -> L -> prog L)
      (J : Z -> L -> view -> Prop) n :
  forall i s v,
    (forall j s v, i <= j < i + Z.of_nat n -> J j s v ->
                   obeys (body j s) v (fun s' v' => J (j + 1) s' v')) ->
    J i s v ->
    obeys (for_loop n i body s) v (fun s' v' => J (i + Z.of_nat n) s' v').
Proof.
  induction n as [| n IH]; intros i s v Hbody Hstart.
  - cbn. now rewrite Z.add_0_r.
  - cbn [for_loop]. apply obeys_bind.
    apply obeys_weaken with (Q := fun s' v' => J (i + 1) s' v'); [| apply Hbody; [lia | assumption]].
    intros s' v' Hnext.
    replace (i + Z.of_nat (S n)) with (i + 1 + Z.of_nat n) by lia.
    apply IH; [| assumption]. intros j s'' v'' Hj. apply Hbody. lia.
Qed.

(** The average of a counter, computed by a task that does not own it. *)
Lemma obeys_average counter total v (Q : Z -> view -> Prop) :
  (counter = core0_counter /\ is_core0 (v_role v) = false \/
   counter = core1_counter /\ is_core1 (v_role v) = false) ->
  (total = core0_total_time \/ total = core1_total_time) ->
  (forall a v', v_role v' = v_role v -> v_fuel v' = v_fuel v ->
                v_pending v' = v_pending v -> Q a v') ->
  obeys (average counter total) v Q.
Proof.
  intros Hcounter Htotal HQ. unfold average.
  apply obeys_bind, obeys_load. intros c Hc.
  assert (0 <= c /\ v_role (learn v counter c) = v_role v /\
          v_fuel (learn v counter c) = v_fuel v /\
          v_pending (learn v counter c) = v_pending v /\
          (forall x, known (learn v counter c) counter x -> c <= x) /\
          (forall x, learn (learn v counter c) counter x
                     = learn v counter x)) as (Hpos & Hrole & Hfuel & Hpend & Hmono & Hagain).
  { destruct Hcounter as [[-> Hr] | [-> Hr]]; cbn in *; rewrite ?Hr; repeat split;
      try lia; try tauto. }
  destruct (Z.ltb_spec 0 c) as [Hc0 | Hc0].
  - apply obeys_bind, obeys_load. intros t _.
    assert (learn (learn v counter c) total t = learn v counter c) as ->
        by (destruct Htotal as [-> | ->]; reflexivity).
    apply obeys_bind, obeys_load. intros c' Hc'.
    specialize (Hmono c' Hc'). unfold udiv64.
    destruct (Z.eqb_spec c' 0) as [-> | _]; [lia |].
    cbn. rewrite Hagain. apply HQ.
    + destruct Hcounter as [[-> Hr] | [-> Hr]]; reflexivity.
    + destruct Hcounter as [[-> Hr] | [-> Hr]]; reflexivity.
    + destruct Hcounter as [[-> Hr] | [-> Hr]]; cbn; now rewrite Hr.
  - cbn. now apply HQ.
Qed.

(** Routine goals: one statement of a program at a time. *)
Ltac obey1 :=
  cbn beta;
  match goal with
  | |- obeys (bind _ _) _ _ => apply obeys_bind
  | |- obeys (call (Load _)) _ _ => apply obeys_load; intros ? ?
  | |- obeys (call (Store _ _)) _ _ =>
      eapply obeys_store; [cbn; rewrite ?Z.eqb_refl; reflexivity |]
  | |- obeys (call _) _ _ => apply obeys_call; [reflexivity | intros ?]
  | |- obeys (safe_printf _) _ _ => apply obeys_safe_printf
  | |- obeys (safe_printf_reading _) _ _ => apply obeys_safe_printf_reading
  | |- obeys (printf _) _ _ => apply obeys_vprintf
  | |- obeys (Ret _) _ _ => cbn [obeys]
  | |- obeys (if ?b then _ else _) _ _ => destruct b
  | |- obeys (match ?r with Some _ => _ | None => _ end) _ _ => destruct r
  end.

Ltac obey := repeat obey1.

Section Tasks.

Variable pdMS_TO_TICKS : Z -> Z.

Lemma obeys_core0_iteration i message n lo0 lo1 :
  obeys (core0_iteration pdMS_TO_TICKS i message) (mkView Core0 (S n) None lo0 lo1)
        (fun _ v => v_role v = Core0 /\ v_fuel v = n /\ v_pending v = None).
Proof. unfold core0_iteration, core0_send. obey; repeat split. Qed.

Lemma obeys_core1_iteration i received_message n lo0 lo1 :
  obeys (core1_iteration pdMS_TO_TICKS i received_message) (mkView Core1 (S n) None lo0 lo1)
        (fun _ v => v_role v = Core1 /\ v_fuel v = n /\ v_pending v = None).
Proof. unfold core1_iteration, core1_report. obey; repeat split. Qed.

Lemma obeys_monitor_iteration i last_wake_time v :
  v_role v = Reader -> v_fuel v = O ->
  obeys (monitor_iteration pdMS_TO_TICKS i last_wake_time) v
        (fun _ v' => v_role v' = Reader /\ v_fuel v' = O).
Proof.
  intros Hrole Hfuel. unfold monitor_iteration. obey.
  apply obeys_average; [left; split; [reflexivity | cbn; now rewrite Hrole]
                       | left; reflexivity |].
  intros avg0 v0 Hrole0 Hfuel0 _. cbn in Hrole0, Hfuel0.
  rewrite Hrole in Hrole0. rewrite Hfuel in Hfuel0. obey.
  apply obeys_average; [right; split; [reflexivity | cbn; now rewrite Hrole0]
                       | right; reflexivity |].
  intros avg1 v1 Hrole1 Hfuel1 _. cbn in Hrole1, Hfuel1.
  rewrite Hrole0 in Hrole1. rewrite Hfuel0 in Hfuel1. obey.
  now split.
Qed.

Lemma obeys_core0_task message :
  obeys (core0_task pdMS_TO_TICKS message) (body_view fn_core0_task) spent.
Proof.
  unfold core0_task, for_lt, body_view. obey.
  apply obeys_weaken
    with (Q := fun (_ : core_message_t) v =>
                 v_role v = Core0 /\ Z.of_nat (v_fuel v) = 100 - (0 + Z.of_nat (Z.to_nat (100 - 0)))
                 /\ v_pending v = None).
  - intros _ v (_ & Hf & _). obey. unfold spent. lia.
  - apply (obeys_for_loop (core0_iteration pdMS_TO_TICKS)
             (fun j _ v => v_role v = Core0 /\ Z.of_nat (v_fuel v) = 100 - j
                           /\ v_pending v = None)).
    + intros j m [r fuel pending lo0 lo1] Hj (Hr & Hf & Hp).
      cbn [v_role v_fuel v_pending] in *. subst r pending.
      destruct fuel as [| n]; [lia |].
      eapply obeys_weaken; [| apply obeys_core0_iteration].
      intros _ v (Hr & Hf' & Hp). cbn beta. repeat split; try assumption. lia.
    + repeat split.
Qed.

Lemma obeys_core1_task received_message :
  obeys (core1_task pdMS_TO_TICKS received_message) (body_view fn_core1_task)
        spent.
Proof.
  unfold core1_task, for_lt, body_view. obey.
  apply obeys_weaken
    with (Q := fun (_ : core_message_t) v =>
                 v_role v = Core1 /\ Z.of_nat (v_fuel v) = 150 - (0 + Z.of_nat (Z.to_nat (150 - 0)))
                 /\ v_pending v = None).
  - intros _ v (_ & Hf & _). obey. unfold spent. lia.
  - apply (obeys_for_loop (core1_iteration pdMS_TO_TICKS)
             (fun j _ v => v_role v = Core1 /\ Z.of_nat (v_fuel v) = 150 - j
                           /\ v_pending v = None)).
    + intros j m [r fuel pending lo0 lo1] Hj (Hr & Hf & Hp).
      cbn [v_role v_fuel v_pending] in *. subst r pending.
      destruct fuel as [| n]; [lia |].
      eapply obeys_weaken; [| apply obeys_core1_iteration].
      intros _ v (Hr & Hf' & Hp). cbn beta. repeat split; try assumption. lia.
    + repeat split.
Qed.

Lemma obeys_monitor_task :
  obeys (monitor_task pdMS_TO_TICKS) (body_view fn_monitor_task) spent.
Proof.
  unfold monitor_task, for_lt, body_view. obey.
  apply obeys_weaken with (Q := fun (_ : Z) v => v_role v = Reader /\ v_fuel v = O).
  - intros _ v [_ Hf]. obey. exact Hf.
  - apply (obeys_for_loop (monitor_iteration pdMS_TO_TICKS)
             (fun _ _ v => v_role v = Reader /\ v_fuel v = O)).
    + intros j lw v _ [Hr Hf]. now apply obeys_monitor_iteration.
    + now split.
Qed.

Lemma obeys_bodies message received_message f :
  obeys (Sched.bodies pdMS_TO_TICKS message received_message f) (body_view f)
        spent.
Proof.
  destruct f; cbn [Sched.bodies].
  - apply obeys_core0_task.
  - apply obeys_core1_task.
  - apply obeys_monitor_task.
Qed.

Lemma obeys_ask_pinned f name stack prio core v v' (Q : bool -> view -> Prop) :
  ask v f = Some v' -> (forall b, Q b v') ->
  obeys (call (xTaskCreatePinnedToCore f name stack prio core)) v Q.
Proof. intros Hask HQ. cbn. now rewrite Hask. Qed.

Lemma obeys_ask f name stack prio v v' (Q : bool -> view -> Prop) :
  ask v f = Some v' -> (forall b, Q b v') ->
  obeys (call (xTaskCreate f name stack prio)) v Q.
Proof. intros Hask HQ. cbn. now rewrite Hask. Qed.

Lemma obeys_app_main :
  obeys (app_main pdMS_TO_TICKS) main_view spent.
Proof.
  unfold app_main, main_view. obey; try reflexivity.
  eapply obeys_ask_pinned; [reflexivity | intros created0]. obey.
  eapply obeys_ask_pinned; [reflexivity | intros created1]. obey.
  eapply obeys_ask; [reflexivity | intros created2]. obey; try reflexivity.
  apply obeys_average; [left; split; reflexivity | left; reflexivity |].
  intros avg0 v0 Hrole0 Hfuel0 _. cbn in Hrole0, Hfuel0. obey.
  apply obeys_average; [right; split; [reflexivity | cbn; now rewrite Hrole0]
                       | right; reflexivity |].
  intros avg1 v1 Hrole1 Hfuel1 _. cbn in Hfuel1. obey. unfold spent. congruence.
Qed.

End Tasks.

End SafetyFacts.

Module CounterSafety.
Import Sched Safety SafetyFacts Interleaving.

Lemma safe_start pdMS_TO_TICKS :
  safe (start pdMS_TO_TICKS) start_views None None.
Proof.
  constructor; cbn.
  - intros [| t]; [apply obeys_app_main | reflexivity].
  - intros [| t]; cbn; lia.
  - intros [| t]; cbn; lia.
  - intros [| t]; cbn; split; discriminate.
  - intros [| t]; cbn; split; discriminate.
  - intros [| t] asked0 asked1; cbn; [now intros _ | discriminate].
  - split; [lia | reflexivity].
  - split; [lia | reflexivity].
  - reflexivity.
  - reflexivity.
  - reflexivity.
  - reflexivity.
  - lia.
  - intros [| t] Ht; [lia | now split].
Qed.

(** The stores to [g] after one more call. *)
Lemma stores_record g o w :
  stores g (w_trace (record o w))
  = (stores g (w_trace w) + (if is_store g o then 1 else 0))%nat.
Proof.
  unfold record. cbn [w_trace]. rewrite stores_app. unfold stores at 2. cbn.
  now destruct (is_store g o).
Qed.

Lemma trace_effect {X : Type} (e : event X) w : w_trace (effect e w) = w_trace w.
Proof. destruct e; try reflexivity. now destruct g. Qed.

Lemma started_record f o w :
  existsb (starts f) (w_trace (record o w)) = existsb (starts f) (w_trace w) || starts f o.
Proof.
  unfold record. cbn [w_trace]. rewrite existsb_app. cbn. now rewrite orb_false_r.
Qed.

Lemma started_plain f {X : Type} (e : event X) x w :
  plain e = true ->
  existsb (starts f) (w_trace (record (Obs e x) (effect e w)))
  = existsb (starts f) (w_trace w).
Proof.
  intros Hplain. rewrite started_record, trace_effect.
  destruct e; try discriminate Hplain; apply orb_false_r.
Qed.

Lemma stores_plain g {X : Type} (e : event X) x w :
  plain e = true ->
  stores g (w_trace (record (Obs e x) (effect e w))) = stores g (w_trace w).
Proof.
  intros Hplain. rewrite stores_record, trace_effect.
  destruct e; try discriminate Hplain; cbn; lia.
Qed.

Section Preservation.

Variable body : task_fn -> prog unit.
Hypothesis body_obeys : forall f, obeys (body f) (body_view f) spent.

Lemma running s views owner0 owner1 t {X : Type} (e : event X) k :
  safe s views owner0 owner1 -> pool s t = Vis e k -> (t < next s)%nat.
Proof.
  intros Hinv Hpool. destruct (Nat.lt_ge_cases t (next s)) as [Hlt | Hge]; [assumption |].
  destruct (safe_fresh _ _ _ _ Hinv t Hge) as [Hret _].
  rewrite Hret in Hpool. discriminate Hpool.
Qed.

(** Task [t] goes on with the program [p'] and the view [v'], in the same
    role, and the world becomes [w']. *)
Lemma safe_update s views owner0 owner1 t p' v' s' :
  safe s views owner0 owner1 ->
  (t < next s)%nat ->
  pool s' = upd (pool s) t p' ->
  next s' = next s ->
  obeys p' v' spent ->
  v_role v' = v_role (views t) ->
  (forall t', v_lo0 (upd views t v' t') <= w_core0_counter (world s')) ->
  (forall t', v_lo1 (upd views t v' t') <= w_core1_counter (world s')) ->
  owned (upd views t v') owner0 (w_core0_counter (world s')) 100 ->
  owned (upd views t v') owner1 (w_core1_counter (world s')) 150 ->
  w_core0_counter (world s') = Z.of_nat (stores core0_counter (w_trace (world s'))) ->
  w_core1_counter (world s') = Z.of_nat (stores core1_counter (w_trace (world s'))) ->
  (forall f, existsb (starts f) (w_trace (world s'))
             = existsb (starts f) (w_trace (world s))) ->
  safe s' (upd views t v') owner0 owner1.
Proof.
  intros [Hobeys Hlo0 Hlo1 Hcore0 Hcore1 Hmain Hown0 Hown1 Hcount0 Hcount1
                 Hstarted0 Hstarted1 Hnext Hfresh]
         Hlt Hpool Hsame Hp' Hrole Hlo0' Hlo1' Hown0' Hown1' Hcount0' Hcount1' Hstarted.
  assert (forall t', v_role (upd views t v' t') = v_role (views t')) as Hroles.
  { intros t'. destruct (Nat.eq_dec t' t) as [-> | Hne].
    - now rewrite upd_same.
    - now rewrite upd_other. }
  constructor; try assumption.
  - intros t'. rewrite Hpool. destruct (Nat.eq_dec t' t) as [-> | Hne].
    + now rewrite !upd_same.
    + rewrite !upd_other by assumption. apply Hobeys.
  - intros t'. rewrite Hroles. apply Hcore0.
  - intros t'. rewrite Hroles. apply Hcore1.
  - intros t' asked0 asked1. rewrite Hroles. apply Hmain.
  - now rewrite Hstarted.
  - now rewrite Hstarted.
  - now rewrite Hsame.
  - intros t' Ht'. rewrite Hsame in Ht'. rewrite Hroles, Hpool, upd_other by lia.
    now apply Hfresh.
Qed.

(** The same when neither the view nor the counters change. *)
Lemma safe_plain s views owner0 owner1 t p' s' :
  safe s views owner0 owner1 ->
  (t < next s)%nat ->
  pool s' = upd (pool s) t p' ->
  next s' = next s ->
  w_core0_counter (world s') = w_core0_counter (world s) ->
  w_core1_counter (world s') = w_core1_counter (world s) ->
  stores core0_counter (w_trace (world s')) = stores core0_counter (w_trace (world s)) ->
  stores core1_counter (w_trace (world s')) = stores core1_counter (w_trace (world s)) ->
  (forall f, existsb (starts f) (w_trace (world s'))
             = existsb (starts f) (w_trace (world s))) ->
  obeys p' (views t) spent ->
  exists views', safe s' views' owner0 owner1.
Proof.
  intros Hinv Hlt Hpool Hnext Hc0 Hc1 Hs0 Hs1 Hstarted Hp'.
  assert (forall t', upd views t (views t) t' = views t') as Hviews.
  { intros t'. destruct (Nat.eq_dec t' t) as [-> | Hne].
    - now rewrite upd_same.
    - now rewrite upd_other. }
  exists (upd views t (views t)).
  pose proof Hinv as [_ Hlo0 Hlo1 _ _ _ Hown0 Hown1 Hcount0 Hcount1 _ _ _ _].
  eapply safe_update; try eassumption; try reflexivity.
  - intros t'. rewrite Hviews, Hc0. apply Hlo0.
  - intros t'. rewrite Hviews, Hc1. apply Hlo1.
  - rewrite Hc0. unfold owned in *. destruct owner0; [rewrite Hviews |]; assumption.
  - rewrite Hc1. unfold owned in *. destruct owner1; [rewrite Hviews |]; assumption.
  - now rewrite Hc0, Hs0.
  - now rewrite Hc1, Hs1.
Qed.

Lemma obeys_continues {A X : Type} (e : event X) (k : X -> prog A) v Q :
  plain e = true -> obeys (Vis e k) v Q -> forall x, obeys (k x) v Q.
Proof. destruct e; cbn; intros Hplain Hp; try discriminate Hplain; exact Hp. Qed.

Lemma plain_effect {X : Type} (e : event X) w :
  plain e = true ->
  w_core0_counter (effect e w) = w_core0_counter w /\
  w_core1_counter (effect e w) = w_core1_counter w.
Proof. destruct e; cbn; intros Hplain; try discriminate Hplain; now split. Qed.

(** A call that touches no global and asks for no task. *)
Lemma safe_plain_call s views owner0 owner1 t {X : Type} (e : event X) k x s' :
  safe s views owner0 owner1 ->
  pool s t = Vis e k ->
  plain e = true ->
  pool s' = upd (pool s) t (k x) ->
  next s' = next s ->
  world s' = record (Obs e x) (effect e (world s)) ->
  exists views', safe s' views' owner0 owner1.
Proof.
  intros Hsafe Hpool Hplain Hpool' Hnext Hworld.
  destruct (plain_effect e (world s) Hplain) as [Hc0 Hc1].
  eapply (safe_plain s views owner0 owner1 t (k x)); try eassumption.
  - eapply running; eassumption.
  - now rewrite Hworld.
  - now rewrite Hworld.
  - rewrite Hworld. now apply stores_plain.
  - rewrite Hworld. now apply stores_plain.
  - intros f. rewrite Hworld. now apply started_plain.
  - apply (obeys_continues e k); [assumption |].
    rewrite <- Hpool. apply (safe_obeys _ _ _ _ Hsafe).
Qed.

Lemma safe_load s views owner0 owner1 t g k s' :
  safe s views owner0 owner1 ->
  pool s t = Vis (Load g) k ->
  pool s' = upd (pool s) t (k (read g (world s))) ->
  next s' = next s ->
  world s' = record (Obs (Load g) (read g (world s))) (world s) ->
  exists views', safe s' views' owner0 owner1.
Proof.
  intros Hsafe Hpool Hpool' Hnext Hworld.
  pose proof (running _ _ _ _ _ _ _ Hsafe Hpool) as Hlt.
  pose proof Hsafe as [Hobeys Hlo0 Hlo1 Hcore0 Hcore1 Hmain Hown0 Hown1 Hcount0 Hcount1 _ _ _ _].
  pose proof (Hobeys t) as Hp. rewrite Hpool in Hp. cbn in Hp.
  set (x := read g (world s)) in *.
  assert (known (views t) g x) as Hknown.
  { destruct g; cbn; try exact I.
    - split; [apply Hlo0 | apply Hown0].
    - split; [apply Hlo1 | apply Hown1]. }
  exists (upd views t (learn (views t) g x)).
  eapply safe_update; try eassumption; rewrite ?Hworld; unfold record;
    cbn [w_core0_counter w_core1_counter].
  - now apply Hp.
  - now destruct g.
  - intros t'. destruct (Nat.eq_dec t' t) as [-> | Hne].
    + rewrite upd_same. destruct g; cbn; try apply Hlo0. subst x. cbn. lia.
    + rewrite upd_other by assumption. apply Hlo0.
  - intros t'. destruct (Nat.eq_dec t' t) as [-> | Hne].
    + rewrite upd_same. destruct g; cbn; try apply Hlo1. subst x. cbn. lia.
    + rewrite upd_other by assumption. apply Hlo1.
  - unfold owned in *. destruct owner0 as [t0 |]; [| assumption].
    destruct Hown0 as (Hpos & Hfuel & Hpending). split; [assumption |].
    destruct (Nat.eq_dec t0 t) as [-> | Hne].
    + rewrite upd_same. pose proof (proj2 (Hcore0 t) eq_refl) as Hrole.
      destruct g; cbn; rewrite ?Hrole; cbn; split; try assumption.
      intros y Hy. now injection Hy as <-.
    + rewrite upd_other by assumption. now split.
  - unfold owned in *. destruct owner1 as [t1 |]; [| assumption].
    destruct Hown1 as (Hpos & Hfuel & Hpending). split; [assumption |].
    destruct (Nat.eq_dec t1 t) as [-> | Hne].
    + rewrite upd_same. pose proof (proj2 (Hcore1 t) eq_refl) as Hrole.
      destruct g; cbn; rewrite ?Hrole; cbn; split; try assumption.
      intros y Hy. now injection Hy as <-.
    + rewrite upd_other by assumption. now split.
  - cbn [w_trace]. rewrite stores_app. cbn. now rewrite Nat.add_0_r.
  - cbn [w_trace]. rewrite stores_app. cbn. now rewrite Nat.add_0_r.
  - intros f. cbn [w_trace]. rewrite existsb_app. cbn. now rewrite !orb_false_r.
Qed.

Lemma bumped_owner v owner x v' :
  bumped v owner x = Some v' ->
  owner = true /\
  exists y n, v_pending v = Some y /\ v_fuel v = S n /\ x = wrap32 (y + 1) /\
              v' = mkView (v_role v) n None (v_lo0 v) (v_lo1 v).
Proof.
  unfold bumped. destruct owner; [| discriminate].
  destruct (v_pending v) as [y |]; [| discriminate].
  destruct (v_fuel v) as [| n]; [discriminate |].
  destruct (Z.eqb_spec x (wrap32 (y + 1))) as [-> | _]; [| discriminate].
  intros Hv'. injection Hv' as <-. split; [reflexivity |]. now exists y, n.
Qed.

Lemma is_core0_true r : is_core0 r = true -> r = Core0.
Proof. now destruct r. Qed.

Lemma is_core1_true r : is_core1 r = true -> r = Core1.
Proof. now destruct r. Qed.

(** The owner's view after its store, given that the other counter has
    another owner or none. *)
Lemma owned_other views owner t v' counter bound :
  owned views owner counter bound ->
  owner <> Some t ->
  owned (upd views t v') owner counter bound.
Proof.
  unfold owned. intros (Hpos & Hown) Hne. split; [assumption |].
  destruct owner as [t0 |]; [| assumption].
  rewrite upd_other by congruence. assumption.
Qed.

Lemma lo_after views t v' (lo : view -> Z) counter counter' :
  (forall t', lo (views t') <= counter) ->
  lo v' <= counter' -> counter <= counter' ->
  forall t', lo (upd views t v' t') <= counter'.
Proof.
  intros Hlo Hv' Hle t'. destruct (Nat.eq_dec t' t) as [-> | Hne].
  - now rewrite upd_same.
  - rewrite upd_other by assumption. specialize (Hlo t'). lia.
Qed.

Lemma safe_store s views owner0 owner1 t g x k s' :
  safe s views owner0 owner1 ->
  pool s t = Vis (Store g x) k ->
  pool s' = upd (pool s) t (k tt) ->
  next s' = next s ->
  world s' = record (Obs (Store g x) tt) (write g x (world s)) ->
  exists views', safe s' views' owner0 owner1.
Proof.
  intros Hsafe Hpool Hpool' Hnext Hworld.
  pose proof (running _ _ _ _ _ _ _ Hsafe Hpool) as Hlt.
  pose proof Hsafe as [Hobeys Hlo0 Hlo1 Hcore0 Hcore1 Hmain Hown0 Hown1 Hcount0 Hcount1 _ _ _ _].
  pose proof (Hobeys t) as Hp. rewrite Hpool in Hp. cbn in Hp.
  destruct (store (views t) g x) as [v' |] eqn:Hstore; [| contradiction].
  pose proof (Hlo0 t) as Hlo0t. pose proof (Hlo1 t) as Hlo1t.
  destruct g; cbn [store] in Hstore.
  - (* the counter of core 0 *)
    apply bumped_owner in Hstore as (Howner & y & n & Hy & Hn & -> & ->).
    apply is_core0_true in Howner. pose proof (proj1 (Hcore0 t) Howner) as ->.
    destruct Hown0 as (Hpos & Hfuel & Hpending). specialize (Hpending y Hy). subst y.
    rewrite Hn in Hfuel.
    assert (wrap32 (w_core0_counter (world s) + 1) = w_core0_counter (world s) + 1) as Hbump
        by (apply wrap32_small; lia).
    eexists. eapply safe_update; try eassumption; rewrite ?Hworld; unfold record, write;
      cbn [w_core0_counter w_core1_counter v_role v_lo0 v_lo1]; rewrite ?Hbump.
    + reflexivity.
    + apply lo_after with (counter := w_core0_counter (world s)); cbn; try apply Hlo0; lia.
    + apply lo_after with (counter := w_core1_counter (world s)); cbn; try apply Hlo1; lia.
    + unfold owned. rewrite upd_same. cbn. repeat split; try lia. discriminate.
    + apply owned_other; [assumption |]. intros ->.
      pose proof (proj2 (Hcore1 t) eq_refl). congruence.
    + cbn [w_trace]. rewrite stores_app. cbn. lia.
    + cbn [w_trace]. rewrite stores_app. cbn. lia.
    + intros f. cbn [w_trace]. rewrite existsb_app. cbn. now rewrite !orb_false_r.
  - (* the counter of core 1 *)
    apply bumped_owner in Hstore as (Howner & y & n & Hy & Hn & -> & ->).
    apply is_core1_true in Howner. pose proof (proj1 (Hcore1 t) Howner) as ->.
    destruct Hown1 as (Hpos & Hfuel & Hpending). specialize (Hpending y Hy). subst y.
    rewrite Hn in Hfuel.
    assert (wrap32 (w_core1_counter (world s) + 1) = w_core1_counter (world s) + 1) as Hbump
        by (apply wrap32_small; lia).
    eexists. eapply safe_update; try eassumption; rewrite ?Hworld; unfold record, write;
      cbn [w_core0_counter w_core1_counter v_role v_lo0 v_lo1]; rewrite ?Hbump.
    + reflexivity.
    + apply lo_after with (counter := w_core0_counter (world s)); cbn; try apply Hlo0; lia.
    + apply lo_after with (counter := w_core1_counter (world s)); cbn; try apply Hlo1; lia.
    + apply owned_other; [assumption |]. intros ->.
      pose proof (proj2 (Hcore0 t) eq_refl). congruence.
    + unfold owned. rewrite upd_same. cbn. repeat split; try lia. discriminate.
    + cbn [w_trace]. rewrite stores_app. cbn. lia.
    + cbn [w_trace]. rewrite stores_app. cbn. lia.
    + intros f. cbn [w_trace]. rewrite existsb_app. cbn. now rewrite !orb_false_r.
  - injection Hstore as <-.
    eapply (safe_plain s views owner0 owner1 t (k tt)); try eassumption;
      try (intros f); rewrite Hworld; try reflexivity;
      first [rewrite stores_record; apply Nat.add_0_r
            | rewrite started_record; apply orb_false_r].
  - injection Hstore as <-.
    eapply (safe_plain s views owner0 owner1 t (k tt)); try eassumption;
      try (intros f); rewrite Hworld; try reflexivity;
      first [rewrite stores_record; apply Nat.add_0_r
            | rewrite started_record; apply orb_false_r].
Qed.

Lemma ask_main v f v' :
  ask v f = Some v' ->
  exists asked0 asked1,
    v_role v = Main asked0 asked1 /\
    v_lo0 v' = v_lo0 v /\ v_lo1 v' = v_lo1 v /\
    match f with
    | fn_core0_task => asked0 = false /\ v_role v' = Main true asked1
    | fn_core1_task => asked1 = false /\ v_role v' = Main asked0 true
    | fn_monitor_task => v_role v' = Main asked0 asked1
    end.
Proof.
  unfold ask. destruct (v_role v) as [asked0 asked1 | | |] eqn:Hrole; try discriminate.
  intros Hask. exists asked0, asked1.
  destruct f, asked0, asked1; try discriminate; injection Hask as <-; cbn;
    repeat split; assumption.
Qed.

Ltac clash := intros; first [congruence | exfalso; eauto].

Lemma safe_spawn s views owner0 owner1 t f k created o v' :
  safe s views owner0 owner1 ->
  (t < next s)%nat ->
  ask (views t) f = Some v' ->
  (forall b, obeys (k b) v' spent) ->
  (forall g, is_store g o = false) ->
  (forall f', starts f' o = created && task_fn_eqb f' f) ->
  exists views' owner0' owner1', safe (spawn body s t f k created o) views' owner0' owner1'.
Proof.
  intros [Hobeys Hlo0 Hlo1 Hcore0 Hcore1 Hmain Hown0 Hown1 Hcount0 Hcount1
                 Hstarted0 Hstarted1 Hnext Hfresh]
         Hlt Hask Hk Ho Hstarts.
  assert (forall g, stores g (w_trace (world s) ++ [o]) = stores g (w_trace (world s)))
    as Hstores.
  { intros g. rewrite stores_app. unfold stores at 2. cbn. rewrite Ho. apply Nat.add_0_r. }
  destruct (ask_main _ _ _ Hask) as (asked0 & asked1 & Hrole & Hv0 & Hv1 & Hf).
  destruct (Hmain t asked0 asked1 Hrole) as (-> & Hnone0 & Hnone1).
  assert (owner0 <> Some O) as Hnot0
      by (intros ->; pose proof (proj2 (Hcore0 O) eq_refl); clash).
  assert (owner1 <> Some O) as Hnot1
      by (intros ->; pose proof (proj2 (Hcore1 O) eq_refl); clash).
  assert (forall t', t' <> O -> v_role (upd views O v' t') = v_role (views t')) as Hothers
      by (intros t' Hne; now rewrite upd_other).
  assert (exists a0 a1, v_role v' = Main a0 a1 /\
                        (a0 = false -> owner0_after f (next s) owner0 = owner0 /\ owner0 = None) /\
                        (a1 = false -> owner1_after f (next s) owner1 = owner1 /\ owner1 = None))
    as (a0 & a1 & Hrole' & Ha0 & Ha1).
  { destruct f; cbn [owner0_after owner1_after].
    - destruct Hf as [-> Hr]. exists true, asked1. repeat split; auto; discriminate.
    - destruct Hf as [-> Hr]. exists asked0, true. repeat split; auto; discriminate.
    - exists asked0, asked1. repeat split; auto. }
  unfold spawn. destruct created.
  - (* the new task takes the slot [next s] *)
    pose proof (Hfresh (next s) (Nat.le_refl _)) as [_ Hreader].
    assert (owner0 <> Some (next s)) as Hfree0
        by (intros ->; pose proof (proj2 (Hcore0 (next s)) eq_refl); clash).
    assert (owner1 <> Some (next s)) as Hfree1
        by (intros ->; pose proof (proj2 (Hcore1 (next s)) eq_refl); clash).
    exists (upd (upd views O v') (next s) (body_view f)),
           (owner0_after f (next s) owner0), (owner1_after f (next s) owner1).
    constructor; cbn [pool next world]; unfold record; cbn [w_core0_counter w_core1_counter].
    + intros t'. destruct (Nat.eq_dec t' (next s)) as [-> | Hne].
      * rewrite !upd_same. apply body_obeys.
      * rewrite !(upd_other _ (next s)) by assumption.
        destruct (Nat.eq_dec t' O) as [-> | Hne0].
        -- rewrite !upd_same. apply Hk.
        -- rewrite !upd_other by assumption. apply Hobeys.
    + intros t'. destruct (Nat.eq_dec t' (next s)) as [-> | Hne].
      * rewrite upd_same. destruct Hown0 as [Hpos _]. now destruct f.
      * rewrite upd_other by assumption. apply lo_after with (counter := w_core0_counter (world s));
          [assumption | rewrite Hv0; apply Hlo0 | lia].
    + intros t'. destruct (Nat.eq_dec t' (next s)) as [-> | Hne].
      * rewrite upd_same. destruct Hown1 as [Hpos _]. now destruct f.
      * rewrite upd_other by assumption. apply lo_after with (counter := w_core1_counter (world s));
          [assumption | rewrite Hv1; apply Hlo1 | lia].
    + intros t'. destruct (Nat.eq_dec t' (next s)) as [-> | Hne].
      * rewrite upd_same. destruct f; cbn; split; try discriminate; try reflexivity;
          intros Heq; clash.
      * rewrite upd_other by assumption.
        destruct (Nat.eq_dec t' O) as [-> | Hne0].
        -- rewrite upd_same, Hrole'. split; [discriminate |].
           destruct f; cbn; intros Heq; [injection Heq as Heq; lia | clash | clash].
        -- rewrite Hothers by assumption. rewrite Hcore0.
           destruct f; cbn; [| reflexivity | reflexivity].
           destruct Hf as [Hasked _]. rewrite (Hnone0 Hasked).
           split; [discriminate | intros Heq; injection Heq as Heq; clash].
    + intros t'. destruct (Nat.eq_dec t' (next s)) as [-> | Hne].
      * rewrite upd_same. destruct f; cbn; split; try discriminate; try reflexivity;
          intros Heq; clash.
      * rewrite upd_other by assumption.
        destruct (Nat.eq_dec t' O) as [-> | Hne0].
        -- rewrite upd_same, Hrole'. split; [discriminate |].
           destruct f; cbn; intros Heq; [clash | injection Heq as Heq; lia | clash].
        -- rewrite Hothers by assumption. rewrite Hcore1.
           destruct f; cbn; [reflexivity | | reflexivity].
           destruct Hf as [Hasked _]. rewrite (Hnone1 Hasked).
           split; [discriminate | intros Heq; injection Heq as Heq; clash].
    + intros t' b0 b1. destruct (Nat.eq_dec t' (next s)) as [-> | Hne].
      * rewrite upd_same. destruct f; discriminate.
      * rewrite upd_other by assumption.
        destruct (Nat.eq_dec t' O) as [-> | Hne0].
        -- rewrite upd_same, Hrole'. intros Heq. injection Heq as <- <-.
           split; [reflexivity |]. split; intros Hb.
           ++ destruct (Ha0 Hb) as [-> ->]. reflexivity.
           ++ destruct (Ha1 Hb) as [-> ->]. reflexivity.
        -- rewrite Hothers by assumption. intros Hr. destruct (Hmain _ _ _ Hr) as [-> _].
           contradiction.
    + destruct f; cbn [owner0_after].
      * destruct Hf as [Hasked _]. rewrite (Hnone0 Hasked) in Hown0.
        destruct Hown0 as [Hpos Hzero]. unfold owned. rewrite upd_same. cbn.
        repeat split; try lia. discriminate.
      * apply owned_other; [apply owned_other |]; assumption.
      * apply owned_other; [apply owned_other |]; assumption.
    + destruct f; cbn [owner1_after].
      * apply owned_other; [apply owned_other |]; assumption.
      * destruct Hf as [Hasked _]. rewrite (Hnone1 Hasked) in Hown1.
        destruct Hown1 as [Hpos Hzero]. unfold owned. rewrite upd_same. cbn.
        repeat split; try lia. discriminate.
      * apply owned_other; [apply owned_other |]; assumption.
    + cbn [w_trace]. now rewrite Hstores.
    + cbn [w_trace]. now rewrite Hstores.
    + cbn [w_trace]. rewrite existsb_app, Hstarted0. cbn [existsb]. rewrite Hstarts.
      destruct f; cbn; rewrite ?orb_false_r, ?orb_true_r; reflexivity.
    + cbn [w_trace]. rewrite existsb_app, Hstarted1. cbn [existsb]. rewrite Hstarts.
      destruct f; cbn; rewrite ?orb_false_r, ?orb_true_r; reflexivity.
    + lia.
    + intros t' Ht'. destruct (Hfresh t' ltac:(lia)) as [Hret Hr].
      rewrite !upd_other by lia. now split.
  - (* no task was created *)
    exists (upd views O v'), owner0, owner1.
    constructor; cbn [pool next world]; unfold record; cbn [w_core0_counter w_core1_counter];
      try assumption.
    + intros t'. destruct (Nat.eq_dec t' O) as [-> | Hne0].
      * rewrite !upd_same. apply Hk.
      * rewrite !upd_other by assumption. apply Hobeys.
    + apply lo_after with (counter := w_core0_counter (world s));
        [assumption | rewrite Hv0; apply Hlo0 | lia].
    + apply lo_after with (counter := w_core1_counter (world s));
        [assumption | rewrite Hv1; apply Hlo1 | lia].
    + intros t'. destruct (Nat.eq_dec t' O) as [-> | Hne0].
      * rewrite upd_same, Hrole'. split; [discriminate | clash].
      * rewrite Hothers by assumption. apply Hcore0.
    + intros t'. destruct (Nat.eq_dec t' O) as [-> | Hne0].
      * rewrite upd_same, Hrole'. split; [discriminate | clash].
      * rewrite Hothers by assumption. apply Hcore1.
    + intros t' b0 b1. destruct (Nat.eq_dec t' O) as [-> | Hne0].
      * rewrite upd_same, Hrole'. intros Heq. injection Heq as <- <-.
        split; [reflexivity |]. split; intros Hb.
        -- now destruct (Ha0 Hb).
        -- now destruct (Ha1 Hb).
      * rewrite Hothers by assumption. apply Hmain.
    + now apply owned_other.
    + now apply owned_other.
    + cbn [w_trace]. now rewrite Hstores.
    + cbn [w_trace]. now rewrite Hstores.
    + cbn [w_trace]. rewrite existsb_app, Hstarted0. cbn [existsb]. rewrite Hstarts.
      cbn. now rewrite !orb_false_r.
    + cbn [w_trace]. rewrite existsb_app, Hstarted1. cbn [existsb]. rewrite Hstarts.
      cbn. now rewrite !orb_false_r.
    + intros t' Ht'. destruct (Hfresh t' Ht') as [Hret Hr].
      rewrite !upd_other by lia. now split.
Qed.

Lemma safe_call s views owner0 owner1 t {X : Type} (e : event X) k env :
  safe s views owner0 owner1 ->
  pool s t = Vis e k ->
  quiet e = true ->
  exists views',
    safe (mkSys (upd (pool s) t (k (respond env e (world s)))) (next s) (mutex s)
                (record (Obs e (respond env e (world s))) (effect e (world s)))
                (takes s) (console s)
                (queue_answer e (respond env e (world s)) (queue_made s))
                (mutex_answer e (respond env e (world s)) (mutex_made s)))
         views' owner0 owner1.
Proof.
  intros Hsafe Hpool Hquiet.
  destruct (plain e) eqn:Hplain.
  - eapply safe_plain_call; try eassumption; reflexivity.
  - destruct e; try discriminate Hplain; try discriminate Hquiet.
    + eapply safe_load; try eassumption; reflexivity.
    + eapply safe_store; try eassumption; reflexivity.
Qed.

Lemma safe_create s views owner0 owner1 t f k created o :
  safe s views owner0 owner1 ->
  (exists name stack prio core,
      pool s t = Vis (xTaskCreatePinnedToCore f name stack prio core) k) \/
  (exists name stack prio, pool s t = Vis (xTaskCreate f name stack prio) k) ->
  (forall g, is_store g o = false) ->
  (forall f', starts f' o = created && task_fn_eqb f' f) ->
  exists views' owner0' owner1', safe (spawn body s t f k created o) views' owner0' owner1'.
Proof.
  intros Hsafe Hpool Ho Hstarts.
  pose proof (safe_obeys _ _ _ _ Hsafe t) as Hp.
  destruct Hpool as [(name & stack & prio & core & Hpool) | (name & stack & prio & Hpool)];
    pose proof (running _ _ _ _ _ _ _ Hsafe Hpool) as Hlt;
    rewrite Hpool in Hp; cbn in Hp;
    destruct (ask (views t) f) as [v' |] eqn:Hask; try contradiction;
    now apply (safe_spawn s views owner0 owner1 t f k created o v').
Qed.

Lemma safe_step s s' views owner0 owner1 :
  safe s views owner0 owner1 -> step body s s' ->
  exists views' owner0' owner1', safe s' views' owner0' owner1'.
Proof.
  intros Hsafe Hstep.
  destruct Hstep as [t k Hpool Hfree | t k Hpool | t c k Hpool | t X e k env Hpool Hquiet
                    | t f name stack prio core k created Hpool
                    | t f name stack prio k created Hpool].
  - destruct (safe_plain_call s views owner0 owner1 t xSemaphoreTake k tt
                (mkSys (upd (pool s) t (k tt)) (next s) (Some t)
                       (record (Obs xSemaphoreTake tt) (world s))
                       (upd (takes s) t (S (takes s t))) (console s)
                       (queue_made s) (mutex_made s)) Hsafe Hpool)
      as [views' Hsafe']; try reflexivity.
    now exists views', owner0, owner1.
  - destruct (safe_plain_call s views owner0 owner1 t xSemaphoreGive k tt
                (mkSys (upd (pool s) t (k tt)) (next s) None
                       (record (Obs xSemaphoreGive tt) (world s))
                       (takes s) (console s) (queue_made s) (mutex_made s)) Hsafe Hpool)
      as [views' Hsafe']; try reflexivity.
    now exists views', owner0, owner1.
  - destruct (safe_plain_call s views owner0 owner1 t (putchar c) k tt
                (mkSys (upd (pool s) t (k tt)) (next s) (mutex s)
                       (record (Obs (putchar c) tt) (emit c (world s)))
                       (takes s) (console s ++ [mkEntry t (takes s t) (holds s t) c])
                       (queue_made s) (mutex_made s)) Hsafe Hpool)
      as [views' Hsafe']; try reflexivity.
    now exists views', owner0, owner1.
  - destruct (safe_call s views owner0 owner1 t e k env Hsafe Hpool Hquiet) as [views' Hsafe'].
    now exists views', owner0, owner1.
  - apply (safe_create s views owner0 owner1 t f k); [assumption | | reflexivity | reflexivity].
    left. now exists name, stack, prio, core.
  - apply (safe_create s views owner0 owner1 t f k); [assumption | | reflexivity | reflexivity].
    right. now exists name, stack, prio.
Qed.

Lemma safe_reachable s0 s views owner0 owner1 :
  safe s0 views owner0 owner1 -> reachable body s0 s ->
  exists views' owner0' owner1', safe s views' owner0' owner1'.
Proof.
  intros Hstart Hreach. induction Hreach as [| s s' _ IH Hstep].
  - now exists views, owner0, owner1.
  - destruct IH as (views' & owner0' & owner1' & Hsafe).
    now apply (safe_step s s' views' owner0' owner1').
Qed.

End Preservation.

Lemma safe_program pdMS_TO_TICKS message received_message s :
  reachable (bodies pdMS_TO_TICKS message received_message) (start pdMS_TO_TICKS) s ->
  exists views owner0 owner1, safe s views owner0 owner1.
Proof.
  apply (safe_reachable (bodies pdMS_TO_TICKS message received_message)
           (obeys_bodies pdMS_TO_TICKS message received_message)
           _ _ _ _ _ (safe_start pdMS_TO_TICKS)).
Qed.

(** In every state the program can reach from boot, no task has divided by
    zero, and the counters are within the numbers of iterations of their
    workers. *)
Lemma no_trap_program pdMS_TO_TICKS message received_message s :
  reachable (bodies pdMS_TO_TICKS message received_message) (start pdMS_TO_TICKS) s ->
  (forall t, pool s t <> Trap) /\
  0 <= w_core0_counter (world s) <= 100 /\
  0 <= w_core1_counter (world s) <= 150.
Proof.
  intros Hreach.
  destruct (safe_program _ _ _ _ Hreach)
    as (views & owner0 & owner1 & [Hobeys _ _ _ _ _ Hown0 Hown1 _ _ _ _ _ _]).
  split; [| split].
  - intros t Htrap. specialize (Hobeys t). rewrite Htrap in Hobeys. exact Hobeys.
  - destruct Hown0 as [Hpos Hown0]. destruct owner0 as [t0 |]; [| lia].
    destruct Hown0 as [Hfuel _]. lia.
  - destruct Hown1 as [Hpos Hown1]. destruct owner1 as [t1 |]; [| lia].
    destruct Hown1 as [Hfuel _]. lia.
Qed.



End CounterSafety.

(** ** Running the program to its end *)

Module Completion.
Import Sched Safety SchedFacts Interleaving CounterSafety.

Lemma harmless_bind {A B : Type} (p : prog A) (f : A -> prog B) :
  harmless p -> (forall a, harmless (f a)) -> harmless (bind p f).
Proof.
  intros Hp Hf. induction p as [a | X e k IH |]; [apply Hf | | exact I].
  cbn [bind harmless] in *.
  destruct e; cbn in *; first [contradiction | intros x; now apply IH].
Qed.



(** One call that the SDK [env] answers. *)
Lemma reach_call body s t {X : Type} (e : event X) k env :
  pool s t = Vis e k ->
  quiet e = true ->
  exists s',
    reachable body s s' /\
    pool s' t = k (respond env e (world s)) /\
    (forall t', t' <> t -> pool s' t' = pool s t') /\
    next s' = next s /\ mutex s' = mutex s.
Proof.
  intros Hpool Hquiet. eexists. split; [| split; [| split; [| split]]].
  - eapply reach_step; [apply reach_start |].
    apply (step_call body s t X e k env Hpool Hquiet).
  - cbn [pool]. apply upd_same.
  - intros t' Hne. cbn [pool]. now apply upd_other.
  - reflexivity.
  - reflexivity.
Qed.

(** The creation of a task that succeeds. *)
Lemma reach_create body s t f k :
  (exists name stack prio core,
      pool s t = Vis (xTaskCreatePinnedToCore f name stack prio core) k) \/
  (exists name stack prio, pool s t = Vis (xTaskCreate f name stack prio) k) ->
  t <> next s ->
  exists s',
    reachable body s s' /\
    pool s' t = k true /\
    pool s' (next s) = body f /\
    (forall t', t' <> t -> t' <> next s -> pool s' t' = pool s t') /\
    next s' = S (next s) /\ mutex s' = mutex s /\
    existsb (starts f) (w_trace (world s')) = true.
Proof.
  intros Hpool Hne.
  assert (task_fn_eqb f f = true) as Hf by now destruct f.
  destruct Hpool as [(name & stack & prio & core & Hpool) | (name & stack & prio & Hpool)].
  - exists (spawn body s t f k true (Obs (xTaskCreatePinnedToCore f name stack prio core) true)).
    repeat split.
    + eapply reach_step; [apply reach_start |]. now apply step_create_pinned.
    + cbn [spawn pool]. rewrite upd_other by assumption. apply upd_same.
    + cbn [spawn pool]. apply upd_same.
    + intros t' Ht' Hn'. cbn [spawn pool]. now rewrite !upd_other.
    + cbn [spawn world record w_trace]. rewrite existsb_app. cbn. rewrite Hf.
      apply orb_true_r.
  - exists (spawn body s t f k true (Obs (xTaskCreate f name stack prio) true)).
    repeat split.
    + eapply reach_step; [apply reach_start |]. now apply step_create.
    + cbn [spawn pool]. rewrite upd_other by assumption. apply upd_same.
    + cbn [spawn pool]. apply upd_same.
    + intros t' Ht' Hn'. cbn [spawn pool]. now rewrite !upd_other.
    + cbn [spawn world record w_trace]. rewrite existsb_app. cbn. rewrite Hf.
      apply orb_true_r.
Qed.

Lemma finished_after body s s1 t :
  step body s s1 ->
  (forall t', t' <> t -> pool s1 t' = pool s t') ->
  next s1 = next s ->
  (exists s', finished_from body s1 t s') ->
  exists s', finished_from body s t s'.
Proof.
  intros Hstep Hothers Hnext (s' & Hreach & Hret & Hothers' & Hnext' & Hmutex).
  exists s'. repeat split; try assumption.
  - eapply reachable_trans; [| exact Hreach].
    eapply reach_step; [apply reach_start | exact Hstep].
  - intros t' Hne. rewrite (Hothers' t' Hne). now apply Hothers.
  - now rewrite Hnext'.
Qed.

Section Run.

Variable pdMS_TO_TICKS : Z -> Z.
Variables message received_message : core_message_t.
Variable body : task_fn -> prog unit.
Hypothesis the_bodies : body = bodies pdMS_TO_TICKS message received_message.

(** A task that creates no task can run to its end without any other task
    making a call, from any state the program can reach in which no other
    task holds the mutex. *)
Lemma can_finish (p : prog unit) : forall s t,
  reachable body (start pdMS_TO_TICKS) s ->
  pool s t = p ->
  (1 <= t)%nat \/ harmless p ->
  mutex s = None \/ mutex s = Some t ->
  exists s', finished_from body s t s'.
Proof.
  assert (forall s, reachable body (start pdMS_TO_TICKS) s -> invariant s) as Hinvariant
      by (rewrite the_bodies; apply invariant_program).
  assert (forall s, reachable body (start pdMS_TO_TICKS) s ->
                    exists views owner0 owner1, safe s views owner0 owner1) as Hsafety
      by (rewrite the_bodies; apply safe_program).
  induction p as [[] | X e k IH |]; intros s t Hreach Hpool Hrole Hmutex.
  - (* the task has returned *)
    exists s. repeat split; [apply reach_start | assumption |].
    destruct Hmutex as [Hnone | Hheld]; [assumption | exfalso].
    pose proof (Hinvariant _ Hreach) as Hinv.
    assert (holds s t = true) as Hholds by (unfold holds; rewrite Hheld; apply Nat.eqb_refl).
    destruct t as [| t].
    + rewrite (inv_main_unlocked _ Hinv) in Hholds. discriminate Hholds.
    + pose proof (inv_workers _ Hinv (S t) ltac:(lia)) as Hworker.
      rewrite Hpool in Hworker. cbn in Hworker. congruence.
  - (* the task makes a call *)
    pose proof (Hinvariant _ Hreach) as Hinv.
    assert (forall x s1,
               step body s s1 ->
               pool s1 = upd (pool s) t (k x) ->
               next s1 = next s ->
               mutex s1 = None \/ mutex s1 = Some t ->
               (1 <= t)%nat \/ harmless (k x) ->
               exists s', finished_from body s t s') as Hgo.
    { intros x s1 Hstep Hpool1 Hnext1 Hmutex1 Hrole1.
      apply (finished_after body s s1 t); try assumption.
      - intros t' Hne. rewrite Hpool1. now apply upd_other.
      - apply (IH x s1 t); try assumption.
        + eapply reach_step; eassumption.
        + rewrite Hpool1. apply upd_same. }
    assert ((1 <= t)%nat -> worker (Vis e k) (holds s t) false) as Hworker.
    { intros Hge. rewrite <- Hpool. now apply (inv_workers _ Hinv). }
    assert (quiet e = true -> (1 <= t)%nat \/ (forall x, harmless (k x)) ->
            exists s', finished_from body s t s') as Hquiet.
    { intros Hq Hrole1.
      apply (Hgo (respond env_full_queue e (world s)) _
                 (step_call body s t X e k env_full_queue Hpool Hq));
        [reflexivity | reflexivity | exact Hmutex |].
      destruct Hrole1 as [Hge | Hh]; [now left | right; apply Hh]. }
    destruct e;
      try (apply Hquiet;
           [reflexivity
           | destruct Hrole as [Hge | Hh];
             [left; exact Hge | first [right; exact Hh | exfalso; exact Hh]]]).
    + (* take *)
      destruct Hrole as [Hge | Hh]; [| exfalso; exact Hh].
      destruct (Hworker Hge) as [Hfree _].
      assert (mutex s = None) as Hnone.
      { destruct Hmutex as [Hnone | Hheld]; [assumption |].
        unfold holds in Hfree. rewrite Hheld, Nat.eqb_refl in Hfree. discriminate Hfree. }
      apply (Hgo tt _ (step_take body s t k Hpool Hnone));
        [reflexivity | reflexivity | now right | now left].
    + (* give *)
      destruct Hrole as [Hge | Hh]; [| exfalso; exact Hh].
      apply (Hgo tt _ (step_give body s t k Hpool));
        [reflexivity | reflexivity | now left | now left].
    + (* putchar *)
      apply (Hgo tt _ (step_putchar body s t c k Hpool));
        [reflexivity | reflexivity | exact Hmutex |].
      destruct Hrole as [Hge | Hh]; [now left | right; exact (Hh _)].
    + destruct Hrole as [Hge | Hh]; exfalso; [exact (Hworker Hge) | exact Hh].
    + destruct Hrole as [Hge | Hh]; exfalso; [exact (Hworker Hge) | exact Hh].
  - (* a division by zero: no task gets there *)
    exfalso. destruct (Hsafety _ Hreach) as (views & owner0 & owner1 & Hsafe).
    pose proof (safe_obeys _ _ _ _ Hsafe t) as Hobeys. rewrite Hpool in Hobeys. exact Hobeys.
Qed.

End Run.

Lemma harmless_call {X : Type} (e : event X) :
  quiet e = true -> creates e = false -> harmless (call e).
Proof. destruct e; cbn; intros Hquiet Hcreates; try discriminate; intros; exact I. Qed.

Lemma harmless_vis {A X : Type} (e : event X) (k : X -> prog A) :
  quiet e = true -> creates e = false -> (forall x, harmless (k x)) -> harmless (Vis e k).
Proof. destruct e; cbn; intros Hquiet Hcreates Hk; try discriminate; exact Hk. Qed.

Ltac harmless_steps :=
  repeat first [ apply harmless_vprintf
               | apply harmless_average
               | apply harmless_call; reflexivity
               | apply harmless_vis; [reflexivity | reflexivity | intros ?]
               | apply harmless_bind; [| intros ?] ].


End Completion.

(** ** The whole program *)


(** C9: [app_main] creates the queue and the mutex and tests both handles.
    If either creation failed, it prints the failure and returns: its calls
    are the two banner lines, the two creation calls and the failure line,
    so it creates no task; the tasks are created when, and only when, both
    creations succeeded.  And in every state the program can reach from
    boot in which the creation of the queue or of the mutex has failed, the
    main task is the only task: no slot beyond it holds a program. *)
Theorem app_main_aborts_without_queue_or_mutex :
  (forall env pdMS_TO_TICKS w,
      exists queue mutex created0 created1 created2 w' calls,
        run env (app_main pdMS_TO_TICKS) w = Done tt w' /\
        w_trace w' = w_trace w ++ calls /\
        existsb is_task_create calls = queue && mutex /\
        (if queue && mutex
         then exists rest,
             calls = startup_calls queue mutex
                     ++ putchars ("Creating tasks..." ++ LF)
                     ++ task_create_calls created0 created1 created2 ++ rest
         else
           calls = startup_calls queue mutex
                   ++ putchars ("Failed to create synchronization objects!" ++ LF) /\
           w_stdout w' = w_stdout w ++ startup_banner
                         ++ list_ascii_of_string
                              ("Failed to create synchronization objects!" ++ LF))) /\
  (forall pdMS_TO_TICKS message received_message s,
      Sched.reachable (Sched.bodies pdMS_TO_TICKS message received_message)
                      (Sched.start pdMS_TO_TICKS) s ->
      Sched.queue_made s = Some false \/ Sched.mutex_made s = Some false ->
      Sched.next s = 1%nat /\
      forall t, (1 <= t)%nat -> Sched.pool s t = Ret tt).
Proof.
  split.
  - apply app_main_creates_tasks_after_both.
  - intros pdMS_TO_TICKS message received_message s Hreach Hfailed.
    destruct (Interleaving.invariant_program pdMS_TO_TICKS message received_message s Hreach)
      as [_ _ _ Hnext Hfresh _ _ _ _ _ _ Hspawned].
    assert (Sched.next s = 1%nat) as Hone.
    { destruct (Nat.eq_dec (Sched.next s) 1) as [Heq | Hne]; [assumption |].
      destruct Hspawned as [Hq Hm]; [lia |].
      destruct Hfailed as [Hf | Hf]; congruence. }
    split; [assumption |]. intros t Ht. apply Hfresh. lia.
Qed.

(** C3: the average is 0 when the counter holds 0 and the total divided by
    the counter when the counter is positive; the computation
    [counter > 0 ? total / counter : 0] yields that value and never divides
    by zero, whatever the counters hold; and it is that value that every
    monitor cycle and the final report of [app_main] print, none of which
    divides by zero either.  And in every state the program can reach from
    boot, under any interleaving of the calls of its tasks (the workers may
    write a counter between the two reads of one average) and any answers
    of the SDK, no task has divided by zero, and the counters are within
    the numbers of iterations of their workers. *)
Theorem average_is_zero_for_no_iterations env pdMS_TO_TICKS :
  ((forall c t, (c = 0 -> average_value c t = 0) /\ (0 < c -> average_value c t = t / c)) /\
   (forall counter total w,
       exists w', run env (average counter total) w
                  = Done (average_value (read counter w) (read total w)) w') /\
   (forall i last_wake_time w,
       exists waiting heap last_wake_time' w',
         run env (monitor_iteration pdMS_TO_TICKS i last_wake_time) w = Done last_wake_time' w' /\
         w_stdout w' =
         w_stdout w
         ++ list_ascii_of_string (monitor_banner i)
         ++ list_ascii_of_string
              (iterations_line "0" (w_core0_counter w)
                 (average_value (w_core0_counter w) (w_core0_total_time w)))
         ++ list_ascii_of_string
              (iterations_line "1" (w_core1_counter w)
                 (average_value (w_core1_counter w) (w_core1_total_time w)))
         ++ list_ascii_of_string (waiting_line waiting)
         ++ list_ascii_of_string (heap_line heap)) /\
   (forall w,
       exists queue mutex created0 created1 created2 w',
         run env (app_main pdMS_TO_TICKS) w = Done tt w' /\
         w_stdout w' =
         w_stdout w
         ++ app_main_output queue mutex created0 created1 created2
              (w_core0_counter w) (w_core0_total_time w)
              (w_core1_counter w) (w_core1_total_time w))) /\
  (forall message received_message s,
      Sched.reachable (Sched.bodies pdMS_TO_TICKS message received_message)
                      (Sched.start pdMS_TO_TICKS) s ->
      (forall t, Sched.pool s t <> Trap) /\
      0 <= w_core0_counter (Sched.world s) <= 100 /\
      0 <= w_core1_counter (Sched.world s) <= 150).
Proof.
  split.
  - apply average_computed_alone.
  - intros message received_message s. apply CounterSafety.no_trap_program.
Qed.


(** ** The mutex never stops the program *)

Module Liveness.
Import Sched SchedFacts Interleaving CounterSafety.

(** A task with a call to make that does not wait for the mutex can make
    it. *)
Lemma ready_steps body s t : ready s t -> exists s', step body s s'.
Proof.
  intros [(X & e & k & Hpool) Hfree].
  assert (quiet e = true -> exists s', step body s s') as Hquiet.
  { intros Hq. eexists. apply (step_call body s t X e k env_full_queue Hpool Hq). }
  destruct e; try (apply Hquiet; reflexivity).
  - destruct (mutex s) as [h |] eqn:Hmutex.
    + exfalso. apply Hfree. exists k. split; [assumption | congruence].
    + eexists. apply (step_take body s t k Hpool Hmutex).
  - eexists. apply (step_give body s t k Hpool).
  - eexists. apply (step_putchar body s t c k Hpool).
  - eexists. apply (step_create_pinned body s t f name stack prio core k true Hpool).
  - eexists. apply (step_create body s t f name stack prio k true Hpool).
Qed.

Section Program.

Variable pdMS_TO_TICKS : Z -> Z.
Variables message received_message : core_message_t.

(** Whoever holds the mutex is a created task in the middle of its
    program, and does not wait for the mutex itself. *)
Lemma holder_ready s h :
  reachable (bodies pdMS_TO_TICKS message received_message) (start pdMS_TO_TICKS) s ->
  mutex s = Some h ->
  (1 <= h < next s)%nat /\ pool s h <> Ret tt /\ ready s h.
Proof.
  intros Hreach Hmutex.
  pose proof (invariant_program _ _ _ _ Hreach) as Hinv.
  destruct (no_trap_program _ _ _ _ Hreach) as [Htrap _].
  assert (holds s h = true) as Hholds by (unfold holds; rewrite Hmutex; apply Nat.eqb_refl).
  assert (1 <= h)%nat as Hge.
  { destruct h as [| h]; [| lia].
    rewrite (inv_main_unlocked _ Hinv) in Hholds. discriminate Hholds. }
  pose proof (inv_workers _ Hinv h Hge) as Hworker. rewrite Hholds in Hworker.
  split; [split; [assumption | now apply (inv_holder _ Hinv)] |].
  destruct (pool s h) as [[] | X e k |] eqn:Hpool.
  - cbn in Hworker. discriminate Hworker.
  - split; [discriminate |]. split; [now exists X, e, k |].
    intros (k' & Htake & _). rewrite Hpool in Htake.
    rewrite Htake in Hworker. cbn in Hworker. destruct Hworker as [Hfalse _].
    discriminate Hfalse.
  - exfalso. now apply (Htrap h).
Qed.

Lemma all_returned_or_not s n :
  (forall t, (t < n)%nat -> pool s t = Ret tt) \/
  (exists t, (t < n)%nat /\ pool s t <> Ret tt).
Proof.
  induction n as [| n [IH | (t & Ht & Hlive)]].
  - left. intros t Ht. lia.
  - destruct (pool s n) as [[] | X e k |] eqn:Hpool.
    + left. intros t Ht. destruct (Nat.eq_dec t n) as [-> | Hne]; [assumption |].
      apply IH. lia.
    + right. exists n. split; [lia |]. rewrite Hpool. discriminate.
    + right. exists n. split; [lia |]. rewrite Hpool. discriminate.
  - right. exists t. split; [lia | assumption].
Qed.

Lemma live_task_or_holder_ready s t :
  reachable (bodies pdMS_TO_TICKS message received_message) (start pdMS_TO_TICKS) s ->
  pool s t <> Ret tt ->
  ready s t \/ (blocked s t /\ exists h, mutex s = Some h /\ h <> t /\ ready s h).
Proof.
  intros Hreach Hlive.
  destruct (no_trap_program _ _ _ _ Hreach) as [Htrap _].
  destruct (pool s t) as [[] | X e k |] eqn:Hpool.
  - now contradiction Hlive.
  - destruct (mutex s) as [h |] eqn:Hmutex.
    + destruct (holder_ready s h Hreach Hmutex) as (_ & _ & Hready).
      destruct (Nat.eq_dec h t) as [-> | Hne]; [now left |].
      assert ((exists k', Vis e k = Vis xSemaphoreTake k') \/
              ~ (exists k', Vis e k = Vis xSemaphoreTake k')) as [(k' & Htake) | Hother].
      { destruct e; try (right; intros (k' & Heq); discriminate Heq). left. now exists k. }
      * right. split; [exists k'; split; [congruence | congruence] |].
        exists h. split; [reflexivity | split; assumption].
      * left. split; [now exists X, e, k |]. intros (k' & Htake & _).
        apply Hother. exists k'. congruence.
    + left. split; [now exists X, e, k |]. intros (k' & _ & Hheld). now apply Hheld.
  - exfalso. now apply (Htrap t).
Qed.

End Program.

End Liveness.

(** X1: the program never deadlocks.  In every state the program can reach
    from boot, under any interleaving and any answers of the SDK, either
    every task has returned or some task can make its next call; and a task
    that waits for [print_mutex] waits for another task that holds it and
    can make its next call. *)
Theorem program_never_deadlocks pdMS_TO_TICKS message received_message s :
  Sched.reachable (Sched.bodies pdMS_TO_TICKS message received_message)
                  (Sched.start pdMS_TO_TICKS) s ->
  ((forall t, Sched.pool s t = Ret tt) \/
   (exists s', Sched.step (Sched.bodies pdMS_TO_TICKS message received_message) s s')) /\
  (forall t, blocked s t ->
             exists h, Sched.mutex s = Some h /\ h <> t /\ ready s h).
Proof.
  intros Hreach. split.
  - destruct (Liveness.all_returned_or_not s (Sched.next s)) as [Hdone | (t & Ht & Hlive)].
    + left. intros t. destruct (Nat.lt_ge_cases t (Sched.next s)) as [Hlt | Hge].
      * now apply Hdone.
      * now apply (Sched.inv_fresh _ (Interleaving.invariant_program _ _ _ _ Hreach)).
    + right.
      destruct (Liveness.live_task_or_holder_ready _ _ _ s t Hreach Hlive)
        as [Hready | (_ & h & _ & _ & Hready)];
        eapply Liveness.ready_steps; eassumption.
  - intros t Hblocked.
    assert (Sched.pool s t <> Ret tt) as Hlive
        by (destruct Hblocked as (k & -> & _); discriminate).
    destruct (Liveness.live_task_or_holder_ready _ _ _ s t Hreach Hlive)
      as [[_ Hfree] | (_ & Hholder)]; [now contradiction Hfree | exact Hholder].
Qed.

Lemma program_never_deadlocks_witness :
  ((forall t, Sched.pool (Sched.start ticks_at_100_hz) t = Ret tt) \/
   (exists s', Sched.step (Sched.bodies ticks_at_100_hz blank_message blank_message)
                          (Sched.start ticks_at_100_hz) s')) /\
  (forall t, blocked (Sched.start ticks_at_100_hz) t ->
             exists h, Sched.mutex (Sched.start ticks_at_100_hz) = Some h /\ h <> t /\
                       ready (Sched.start ticks_at_100_hz) h).
Proof.
  apply (program_never_deadlocks ticks_at_100_hz blank_message blank_message).
  apply Sched.reach_start.
Defined.

(** X2: [print_mutex] is only ever held by a created task that is in the
    middle of its program.  In every state the program can reach from boot,
    the holder is not the main task, has been created, has not returned and
    does not itself wait for the mutex: no task returns or deletes itself
    with the mutex held, and no task takes it twice. *)
Theorem mutex_holder_is_running_task pdMS_TO_TICKS message received_message s h :
  Sched.reachable (Sched.bodies pdMS_TO_TICKS message received_message)
                  (Sched.start pdMS_TO_TICKS) s ->
  Sched.mutex s = Some h ->
  (1 <= h < Sched.next s)%nat /\ Sched.pool s h <> Ret tt /\ ~ blocked s h.
Proof.
  intros Hreach Hmutex.
  destruct (Liveness.holder_ready _ _ _ s h Hreach Hmutex) as (Hrange & Hlive & _ & Hfree).
  now repeat split.
Qed.

(** ** Schedules of the program *)

Module Schedules.
Import Sched SchedFacts Interleaving CounterSafety Completion.

Lemma go_call body s t {X : Type} (e : event X) k env :
  pool s t = Vis e k ->
  quiet e = true ->
  exists s',
    step body s s' /\
    pool s' = upd (pool s) t (k (respond env e (world s))) /\
    next s' = next s /\ mutex s' = mutex s /\
    takes s' = takes s /\ console s' = console s.
Proof.
  intros Hpool Hquiet. eexists. split.
  - apply (step_call body s t X e k env Hpool Hquiet).
  - repeat split.
Qed.

Lemma go_take body s t k :
  pool s t = Vis xSemaphoreTake k ->
  mutex s = None ->
  exists s',
    step body s s' /\
    pool s' = upd (pool s) t (k tt) /\
    next s' = next s /\ mutex s' = Some t /\
    takes s' = upd (takes s) t (S (takes s t)) /\ console s' = console s.
Proof.
  intros Hpool Hfree. eexists. split.
  - apply (step_take body s t k Hpool Hfree).
  - repeat split.
Qed.

Lemma go_putchar body s t c k :
  pool s t = Vis (putchar c) k ->
  exists s',
    step body s s' /\
    pool s' = upd (pool s) t (k tt) /\
    next s' = next s /\ mutex s' = mutex s /\
    takes s' = takes s /\
    console s' = console s ++ [mkEntry t (takes s t) (holds s t) c].
Proof.
  intros Hpool. eexists. split.
  - apply (step_putchar body s t c k Hpool).
  - repeat split.
Qed.

(** The creation of a task that fails. *)
Lemma reach_create_failed body s t f k :
  (exists name stack prio core,
      pool s t = Vis (xTaskCreatePinnedToCore f name stack prio core) k) \/
  (exists name stack prio, pool s t = Vis (xTaskCreate f name stack prio) k) ->
  exists s',
    reachable body s s' /\
    pool s' t = k false /\
    (forall t', t' <> t -> pool s' t' = pool s t') /\
    next s' = next s /\ mutex s' = mutex s.
Proof.
  intros [(name & stack & prio & core & Hpool) | (name & stack & prio & Hpool)].
  - exists (spawn body s t f k false (Obs (xTaskCreatePinnedToCore f name stack prio core) false)).
    repeat split.
    + eapply reach_step; [apply reach_start |]. now apply step_create_pinned.
    + cbn [spawn pool]. apply upd_same.
    + intros t' Ht'. cbn [spawn pool]. now rewrite upd_other.
  - exists (spawn body s t f k false (Obs (xTaskCreate f name stack prio) false)).
    repeat split.
    + eapply reach_step; [apply reach_start |]. now apply step_create.
    + cbn [spawn pool]. apply upd_same.
    + intros t' Ht'. cbn [spawn pool]. now rewrite upd_other.
Qed.

Section Program.

Variable pdMS_TO_TICKS : Z -> Z.
Variables message received_message : core_message_t.

(** With an SDK that creates the queue and the mutex, the main task gets
    to its first task creation; it is then the only task. *)
Lemma reach_first_creation :
  exists s k,
    reachable (bodies pdMS_TO_TICKS message received_message) (start pdMS_TO_TICKS) s /\
    pool s O = Vis (xTaskCreatePinnedToCore fn_core0_task "Core0Task" 4096 2 0) k /\
    (forall created0,
        k created0 =
        Vis (xTaskCreatePinnedToCore fn_core1_task "Core1Task" 4096 2 1)
            (fun core1_result =>
               Vis (xTaskCreate fn_monitor_task "MonitorTask" 2048 1)
                   (fun monitor_result =>
                      if negb created0 || negb core1_result || negb monitor_result
                      then printf ("Failed to create tasks!" ++ LF)
                      else
                        printf ("Tasks created successfully. Monitoring dual-core performance..."
                                ++ LF ++ LF) ;;
                        call (vTaskDelay (pdMS_TO_TICKS 12000)) ;;
                        printf (LF ++ "=== Final Results ===" ++ LF) ;;
                        c0 <- call (Load core0_counter) ;;
                        printf (total_line "0" c0) ;;
                        c1 <- call (Load core1_counter) ;;
                        printf (total_line "1" c1) ;;
                        avg0 <- average core0_counter core0_total_time ;;
                        printf (average_line "0" avg0) ;;
                        avg1 <- average core1_counter core1_total_time ;;
                        printf (average_line "1" avg1) ;;
                        printf (LF ++ "Dual-core analysis complete!" ++ LF)))) /\
    next s = 1%nat /\ mutex s = None.
Proof.
  set (body := bodies pdMS_TO_TICKS message received_message).
  destruct (reach_vprintf body _ (start pdMS_TO_TICKS) O _ eq_refl)
    as (s1 & Hreach1 & Hpool1 & _ & Hnext1 & Hmutex1 & _).
  destruct (reach_vprintf body _ s1 O _ Hpool1)
    as (s2 & Hreach2 & Hpool2 & _ & Hnext2 & Hmutex2 & _).
  cbn [bind call] in Hpool2.
  destruct (reach_call body s2 O _ _ env_full_queue Hpool2 eq_refl)
    as (s3 & Hreach3 & Hpool3 & _ & Hnext3 & Hmutex3).
  destruct (reach_call body s3 O xSemaphoreCreateMutex _ env_full_queue Hpool3 eq_refl)
    as (s4 & Hreach4 & Hpool4 & _ & Hnext4 & Hmutex4).
  destruct (reach_vprintf body ("Creating tasks..." ++ LF) s4 O _ Hpool4)
    as (s5 & Hreach5 & Hpool5 & _ & Hnext5 & Hmutex5 & _).
  cbn [bind call] in Hpool5.
  exists s5. eexists. split; [| split; [exact Hpool5 | split; [| split]]].
  - repeat (eapply reachable_trans; [| eassumption]). apply reach_start.
  - intros created0. reflexivity.
  - rewrite Hnext5, Hnext4, Hnext3, Hnext2, Hnext1. reflexivity.
  - rewrite Hmutex5, Hmutex4, Hmutex3, Hmutex2, Hmutex1. reflexivity.
Qed.

(** The main task has created the three tasks and none of them has made
    a call yet. *)
Lemma reach_all_created :
  exists s k,
    reachable (bodies pdMS_TO_TICKS message received_message) (start pdMS_TO_TICKS) s /\
    pool s O = Vis (putchar "T"%char) k /\
    pool s 1%nat = core0_task pdMS_TO_TICKS message /\
    next s = 4%nat /\ mutex s = None.
Proof.
  set (body := bodies pdMS_TO_TICKS message received_message).
  destruct reach_first_creation as (s5 & k & Hreach5 & Hpool5 & Hk & Hnext5 & Hmutex5).
  fold body in Hreach5.
  destruct (reach_create body s5 O fn_core0_task k
              (or_introl (ex_intro _ _ (ex_intro _ _ (ex_intro _ _ (ex_intro _ _ Hpool5)))))
              ltac:(lia))
    as (s6 & Hreach6 & Hpool6 & Hnew6 & _ & Hnext6 & Hmutex6 & _).
  rewrite Hk in Hpool6.
  destruct (reach_create body s6 O fn_core1_task _
              (or_introl (ex_intro _ _ (ex_intro _ _ (ex_intro _ _ (ex_intro _ _ Hpool6)))))
              ltac:(lia))
    as (s7 & Hreach7 & Hpool7 & _ & Hothers7 & Hnext7 & Hmutex7 & _).
  destruct (reach_create body s7 O fn_monitor_task _
              (or_intror (ex_intro _ _ (ex_intro _ _ (ex_intro _ _ Hpool7))))
              ltac:(lia))
    as (s8 & Hreach8 & Hpool8 & _ & Hothers8 & Hnext8 & Hmutex8 & _).
  exists s8. eexists. split; [| split; [| split; [| split]]].
  - repeat first [eassumption | eapply reachable_trans; [eassumption |]].
  - rewrite Hpool8. reflexivity.
  - rewrite Hothers8, Hothers7 by lia. rewrite <- Hnext5. exact Hnew6.
  - lia.
  - congruence.
Qed.

(** One creation succeeds, the other two fail: the main task gives up and
    returns, and the task it did create is left. *)
Lemma reach_partial_creation :
  exists s,
    reachable (bodies pdMS_TO_TICKS message received_message) (start pdMS_TO_TICKS) s /\
    pool s O = Ret tt /\
    pool s 1%nat = core0_task pdMS_TO_TICKS message /\
    next s = 2%nat.
Proof.
  set (body := bodies pdMS_TO_TICKS message received_message).
  destruct reach_first_creation as (s5 & k & Hreach5 & Hpool5 & Hk & Hnext5 & Hmutex5).
  fold body in Hreach5.
  destruct (reach_create body s5 O fn_core0_task k
              (or_introl (ex_intro _ _ (ex_intro _ _ (ex_intro _ _ (ex_intro _ _ Hpool5)))))
              ltac:(lia))
    as (s6 & Hreach6 & Hpool6 & Hnew6 & _ & Hnext6 & Hmutex6 & _).
  rewrite Hk in Hpool6.
  destruct (reach_create_failed body s6 O fn_core1_task _
              (or_introl (ex_intro _ _ (ex_intro _ _ (ex_intro _ _ (ex_intro _ _ Hpool6))))))
    as (s7 & Hreach7 & Hpool7 & Hothers7 & Hnext7 & Hmutex7).
  destruct (reach_create_failed body s7 O fn_monitor_task _
              (or_intror (ex_intro _ _ (ex_intro _ _ (ex_intro _ _ Hpool7)))))
    as (s8 & Hreach8 & Hpool8 & Hothers8 & Hnext8 & Hmutex8).
  assert (reachable body (start pdMS_TO_TICKS) s8) as Hreach
      by (repeat first [eassumption | eapply reachable_trans; [eassumption |]]).
  assert (harmless (pool s8 O)) as Hharmless
      by (rewrite Hpool8; cbn [negb orb]; apply harmless_vprintf).
  assert (mutex s8 = None) as Hfree by congruence.
  destruct (can_finish pdMS_TO_TICKS message received_message body eq_refl
              _ s8 O Hreach eq_refl (or_intror Hharmless) (or_introl Hfree))
    as (s9 & Hreach9 & Hret9 & Hothers9 & Hnext9 & _).
  exists s9. split; [| split; [| split]].
  - eapply reachable_trans; eassumption.
  - exact Hret9.
  - rewrite Hothers9, Hothers8, Hothers7 by lia. rewrite <- Hnext5. exact Hnew6.
  - lia.
Qed.

(** [core0_task] is in the middle of its first line, under the mutex, when
    the main task puts a character on the console. *)
Lemma reach_split_write :
  exists s pre n m,
    reachable (bodies pdMS_TO_TICKS message received_message) (start pdMS_TO_TICKS) s /\
    mutex s = Some 1%nat /\
    console s = pre ++ [mkEntry 1%nat n true "C"%char; mkEntry O m false "T"%char;
                        mkEntry 1%nat n true "o"%char].
Proof.
  set (body := bodies pdMS_TO_TICKS message received_message).
  destruct reach_all_created as (s8 & k0 & Hreach8 & Hmain8 & Hworker8 & Hnext8 & Hmutex8).
  fold body in Hreach8.
  destruct (go_call body s8 1%nat esp_timer_get_time _ env_full_queue Hworker8 eq_refl)
    as (s9 & Hstep9 & Hpool9 & _ & Hmutex9 & Htakes9 & Hconsole9).
  assert (exists k, pool s9 1%nat
                    = Vis xSemaphoreTake
                          (fun _ => Vis (putchar "C"%char)
                                        (fun _ => Vis (putchar "o"%char) k)))
    as [k9 Hworker9]
      by (rewrite Hpool9, upd_same; eexists; reflexivity).
  destruct (go_take body s9 1%nat _ Hworker9 ltac:(congruence))
    as (s10 & Hstep10 & Hpool10 & _ & Hmutex10 & Htakes10 & Hconsole10).
  assert (pool s10 1%nat = Vis (putchar "C"%char) (fun _ => Vis (putchar "o"%char) k9))
    as Hworker10 by (rewrite Hpool10; apply upd_same).
  destruct (go_putchar body s10 1%nat _ _ Hworker10)
    as (s11 & Hstep11 & Hpool11 & _ & Hmutex11 & Htakes11 & Hconsole11).
  assert (pool s11 O = Vis (putchar "T"%char) k0) as Hmain11.
  { rewrite Hpool11, upd_other by lia. rewrite Hpool10, upd_other by lia.
    rewrite Hpool9, upd_other by lia. exact Hmain8. }
  destruct (go_putchar body s11 O _ _ Hmain11)
    as (s12 & Hstep12 & Hpool12 & _ & Hmutex12 & Htakes12 & Hconsole12).
  assert (pool s12 1%nat = Vis (putchar "o"%char) k9) as Hworker12.
  { rewrite Hpool12, upd_other by lia. rewrite Hpool11. apply upd_same. }
  destruct (go_putchar body s12 1%nat _ _ Hworker12)
    as (s13 & Hstep13 & Hpool13 & _ & Hmutex13 & Htakes13 & Hconsole13).
  exists s13, (console s10), (takes s10 1%nat), (takes s10 O).
  split; [| split].
  - eapply reach_step; [| exact Hstep13]. eapply reach_step; [| exact Hstep12].
    eapply reach_step; [| exact Hstep11]. eapply reach_step; [| exact Hstep10].
    eapply reach_step; [| exact Hstep9]. exact Hreach8.
  - now rewrite Hmutex13, Hmutex12, Hmutex11.
  - rewrite Hconsole13, Hconsole12, Hconsole11, Htakes12, Htakes11.
    unfold holds. rewrite Hmutex12, Hmutex11, Hmutex10. cbn [Nat.eqb].
    rewrite <- !app_assoc. reflexivity.
Qed.

End Program.

End Schedules.

Lemma mutex_holder_is_running_task_witness :
  exists s,
    Sched.reachable (Sched.bodies ticks_at_100_hz blank_message blank_message)
                    (Sched.start ticks_at_100_hz) s /\
    Sched.mutex s = Some 1%nat /\
    ((1 <= 1 < Sched.next s)%nat /\ Sched.pool s 1%nat <> Ret tt /\ ~ blocked s 1%nat).
Proof.
  destruct (Schedules.reach_split_write ticks_at_100_hz blank_message blank_message)
    as (s & pre & n & m & Hreach & Hmutex & _).
  exists s. split; [exact Hreach | split; [exact Hmutex |]].
  apply (mutex_holder_is_running_task _ _ _ s 1%nat Hreach Hmutex).
Defined.

(** X3: [app_main] prints with plain [printf], outside [print_mutex], so
    the mutex does not keep its output out of the lines of the tasks.  With
    the console taken one character at a time, as in [Sched.step], the
    program has a run in which [core0_task], holding the mutex, has put the
    "C" of its first line on the console, the main task then puts the "T" of
    "Tasks created successfully", and [core0_task] goes on with "o": the
    console shows "CTo". *)
Theorem app_main_output_can_split_a_sink_write pdMS_TO_TICKS message received_message :
  exists s pre n m,
    Sched.reachable (Sched.bodies pdMS_TO_TICKS message received_message)
                    (Sched.start pdMS_TO_TICKS) s /\
    Sched.console s
    = pre ++ [Sched.mkEntry 1%nat n true "C"%char; Sched.mkEntry O m false "T"%char;
              Sched.mkEntry 1%nat n true "o"%char] /\
    w_stdout (Sched.world s) = map Sched.char pre ++ ["C"; "T"; "o"]%char.
Proof.
  destruct (Schedules.reach_split_write pdMS_TO_TICKS message received_message)
    as (s & pre & n & m & Hreach & _ & Hconsole).
  exists s, pre, n, m. split; [exact Hreach | split; [exact Hconsole |]].
  rewrite <- (Sched.inv_stdout _ (Interleaving.invariant_program _ _ _ _ Hreach)).
  rewrite Hconsole, map_app. reflexivity.
Qed.


(** X4: [app_main] asks for the three tasks one after the other, whatever
    the earlier creations answered, and tests the three results only then.
    If one of them failed it prints "Failed to create tasks!" and returns:
    no delay, no final report, and nothing is done about the tasks that were
    created.  The program has a run in which [core0_task] is created, the
    other two creations fail, and the main task has returned while
    [core0_task] is still to run. *)
Theorem app_main_gives_up_when_a_task_is_not_created :
  (forall env pdMS_TO_TICKS w,
      exists queue mutex created0 created1 created2 w',
        run env (app_main pdMS_TO_TICKS) w = Done tt w' /\
        w_trace w' = w_trace w
                     ++ app_main_calls pdMS_TO_TICKS queue mutex created0 created1 created2
                          (w_core0_counter w) (w_core0_total_time w)
                          (w_core1_counter w) (w_core1_total_time w) /\
        (queue && mutex = true -> created0 && created1 && created2 = false ->
         app_main_calls pdMS_TO_TICKS queue mutex created0 created1 created2
           (w_core0_counter w) (w_core0_total_time w)
           (w_core1_counter w) (w_core1_total_time w)
         = startup_calls true true
           ++ putchars ("Creating tasks..." ++ LF)
           ++ task_create_calls created0 created1 created2
           ++ putchars ("Failed to create tasks!" ++ LF) /\
         w_stdout w' = w_stdout w ++ startup_banner
                       ++ list_ascii_of_string ("Creating tasks..." ++ LF)
                       ++ list_ascii_of_string ("Failed to create tasks!" ++ LF))) /\
  (forall pdMS_TO_TICKS message received_message,
      exists s,
        Sched.reachable (Sched.bodies pdMS_TO_TICKS message received_message)
                        (Sched.start pdMS_TO_TICKS) s /\
        Sched.pool s O = Ret tt /\
        Sched.pool s 1%nat = core0_task pdMS_TO_TICKS message /\
        Sched.next s = 2%nat).
Proof.
  split.
  - intros env pdMS_TO_TICKS w.
    destruct (run_app_main env pdMS_TO_TICKS w) as (queue & mutex & c0 & c1 & c2 & Hrun).
    exists queue, mutex, c0, c1, c2. eexists. split; [exact Hrun |].
    split; [reflexivity |]. intros Hboth Hfailed.
    apply andb_prop in Hboth as [-> ->].
    unfold app_main_calls, app_main_output. cbn [negb orb w_stdout after_calls].
    assert (negb c0 || negb c1 || negb c2 = true) as ->
        by (destruct c0, c1, c2; try reflexivity; discriminate Hfailed).
    split; reflexivity.
  - apply Schedules.reach_partial_creation.
Qed.

(** ** Which globals a task writes *)

Module Footprint.

Lemma stores_within_bind {A B : Type} allowed (p : prog A) (f : A -> prog B) :
  stores_within allowed p -> (forall a, stores_within allowed (f a)) ->
  stores_within allowed (bind p f).
Proof.
  intros Hp Hf. induction p as [a | X e k IH |]; [apply Hf | | exact I].
  destruct Hp as [He Hk]. split; [exact He |]. intros x. now apply IH.
Qed.

Lemma stores_within_call {X : Type} allowed (e : event X) :
  match e with Store g _ => allowed g = true | _ => True end ->
  stores_within allowed (call e).
Proof. intros He. split; [exact He | intros x; exact I]. Qed.

Lemma stores_within_vprintf allowed s : stores_within allowed (vprintf s).
Proof.
  induction s as [| c s IH]; [exact I |]. split; [exact I | intros x; exact IH].
Qed.

Lemma stores_within_safe_printf allowed s : stores_within allowed (safe_printf s).
Proof.
  unfold safe_printf. apply stores_within_bind; [now apply stores_within_call |].
  intros _. apply stores_within_bind; [apply stores_within_vprintf |].
  intros _. now apply stores_within_call.
Qed.

Lemma stores_within_read_str allowed l : stores_within allowed (read_str l).
Proof.
  unfold read_str. destruct (c_str l); [exact I |].
  apply stores_within_bind; [now apply stores_within_call | intros behind; exact I].
Qed.

Lemma stores_within_safe_printf_reading allowed text :
  stores_within allowed text -> stores_within allowed (safe_printf_reading text).
Proof.
  intros Htext. unfold safe_printf_reading.
  apply stores_within_bind; [now apply stores_within_call |]. intros _.
  apply stores_within_bind; [| intros _; now apply stores_within_call].
  apply stores_within_bind; [exact Htext | intros s; apply stores_within_vprintf].
Qed.

Lemma stores_within_for_loop {L : Type} allowed (body : Z -> L -> prog L) n :
  (forall i s, stores_within allowed (body i s)) ->
  forall i s, stores_within allowed (for_loop n i body s).
Proof.
  intros Hbody. induction n as [| n IH]; intros i s; [exact I |].
  cbn [for_loop]. apply stores_within_bind; [apply Hbody | intros s'; apply IH].
Qed.

Lemma stores_within_average allowed counter total :
  stores_within allowed (average counter total).
Proof.
  unfold average, udiv64. apply stores_within_bind; [now apply stores_within_call |].
  intros c. destruct (0 <? c); [| exact I].
  apply stores_within_bind; [now apply stores_within_call |]. intros t.
  apply stores_within_bind; [now apply stores_within_call |]. intros c'.
  now destruct (c' =? 0).
Qed.

Ltac footprint1 :=
  cbv beta zeta;
  match goal with
  | |- stores_within _ (bind _ _) => apply stores_within_bind; [| intros ?]
  | |- stores_within _ (call _) => apply stores_within_call; first [exact I | reflexivity]
  | |- stores_within _ (safe_printf _) => apply stores_within_safe_printf
  | |- stores_within _ (safe_printf_reading _) => apply stores_within_safe_printf_reading
  | |- stores_within _ (read_str _) => apply stores_within_read_str
  | |- stores_within _ (printf _) => apply stores_within_vprintf
  | |- stores_within _ (average _ _) => apply stores_within_average
  | |- stores_within _ (for_loop _ _ _ _) => apply stores_within_for_loop; intros ? ?
  | |- stores_within _ (Ret _) => exact I
  | |- stores_within _ (if ?b then _ else _) => destruct b
  | |- stores_within _ (match ?r with Some _ => _ | None => _ end) => destruct r
  end.

Ltac footprint := repeat footprint1.

Lemma footprint_core0_task pdMS_TO_TICKS message :
  stores_within core0_globals (core0_task pdMS_TO_TICKS message).
Proof.
  unfold core0_task, for_lt. footprint.
  unfold core0_iteration, core0_send. footprint.
Qed.

Lemma footprint_core1_task pdMS_TO_TICKS received_message :
  stores_within core1_globals (core1_task pdMS_TO_TICKS received_message).
Proof.
  unfold core1_task, for_lt. footprint.
  unfold core1_iteration, core1_report. footprint.
Qed.

Lemma footprint_monitor_task pdMS_TO_TICKS :
  stores_within no_global (monitor_task pdMS_TO_TICKS).
Proof.
  unfold monitor_task, for_lt. footprint.
  unfold monitor_iteration. footprint.
Qed.

Lemma footprint_app_main pdMS_TO_TICKS :
  stores_within no_global (app_main pdMS_TO_TICKS).
Proof. unfold app_main. footprint. Qed.

(** A run leaves the globals outside the footprint as they were. *)
Lemma footprint_run {A : Type} env allowed (p : prog A) :
  stores_within allowed p ->
  forall w a w', run env p w = Done a w' ->
  forall g, allowed g = false -> read g w' = read g w.
Proof.
  induction p as [a | X e k IH |]; intros Hp w r w' Hrun g Hg.
  - cbn in Hrun. now injection Hrun as _ <-.
  - destruct Hp as [He Hk]. rewrite run_vis in Hrun.
    rewrite (IH _ (Hk _) _ _ _ Hrun g Hg).
    destruct e; try reflexivity; try (now destruct g).
    destruct g, g0; try reflexivity; cbn in He; congruence.
  - discriminate Hrun.
Qed.

End Footprint.

(** X5: each task writes its own statistics only.  Whatever the SDK
    answers and whatever the globals hold, [core0_task] stores to
    [core0_counter] and [core0_total_time] only, [core1_task] to
    [core1_counter] and [core1_total_time] only, and [monitor_task],
    [app_main] and [safe_printf] store to no global; so a run of
    [monitor_task] or of [app_main] leaves the four globals as it found
    them. *)
Theorem tasks_write_their_own_statistics_only pdMS_TO_TICKS :
  (forall message, stores_within core0_globals (core0_task pdMS_TO_TICKS message)) /\
  (forall received_message,
      stores_within core1_globals (core1_task pdMS_TO_TICKS received_message)) /\
  stores_within no_global (monitor_task pdMS_TO_TICKS) /\
  stores_within no_global (app_main pdMS_TO_TICKS) /\
  (forall s, stores_within no_global (safe_printf s)) /\
  (forall env w w' g,
      run env (monitor_task pdMS_TO_TICKS) w = Done tt w' \/
      run env (app_main pdMS_TO_TICKS) w = Done tt w' ->
      read g w' = read g w).
Proof.
  split; [| split; [| split; [| split; [| split]]]].
  - apply Footprint.footprint_core0_task.
  - apply Footprint.footprint_core1_task.
  - apply Footprint.footprint_monitor_task.
  - apply Footprint.footprint_app_main.
  - apply Footprint.stores_within_safe_printf.
  - intros env w w' g [Hrun | Hrun].
    + now apply (Footprint.footprint_run env no_global _
                   (Footprint.footprint_monitor_task pdMS_TO_TICKS) w tt w' Hrun).
    + now apply (Footprint.footprint_run env no_global _
                   (Footprint.footprint_app_main pdMS_TO_TICKS) w tt w' Hrun).
Qed.

(** ** How many tasks there are *)

Module TaskBound.
Import Sched SchedFacts Interleaving Completion.

Lemma creates_more {A : Type} (p : prog A) : forall n m,
  creates_at_most p n -> (n <= m)%nat -> creates_at_most p m.
Proof.
  induction p as [a | X e k IH |]; intros n m Hp Hle; [exact I | | exact I].
  cbn [creates_at_most] in *. destruct (spawns e).
  - destruct n as [| n]; [contradiction |]. destruct m as [| m]; [lia |].
    intros x. apply (IH x n); [apply Hp | lia].
  - intros x. now apply (IH x n).
Qed.

Lemma harmless_creates_none {A : Type} (p : prog A) n :
  harmless p -> creates_at_most p n.
Proof.
  induction p as [a | X e k IH |]; intros Hp; [exact I | | exact I].
  cbn [creates_at_most harmless] in *.
  destruct e; cbn in *; first [contradiction | intros x; now apply IH].
Qed.

Lemma creates_none_bind {A B : Type} (p : prog A) (f : A -> prog B) n :
  harmless p -> (forall a, creates_at_most (f a) n) -> creates_at_most (bind p f) n.
Proof.
  intros Hp Hf. induction p as [a | X e k IH |]; [apply Hf | | exact I].
  cbn [creates_at_most harmless bind] in *.
  destruct e; cbn in *; first [contradiction | intros x; now apply IH].
Qed.

Lemma creates_app_main pdMS_TO_TICKS : creates_at_most (app_main pdMS_TO_TICKS) 3.
Proof.
  unfold app_main.
  apply creates_none_bind; [apply harmless_vprintf | intros _].
  apply creates_none_bind; [apply harmless_vprintf | intros _].
  cbn [bind call creates_at_most spawns]. intros queue mutex.
  destruct (negb queue || negb mutex).
  - apply harmless_creates_none, harmless_vprintf.
  - apply creates_none_bind; [apply harmless_vprintf | intros _].
    cbn [bind call creates_at_most spawns]. intros created0 created1 created2.
    apply harmless_creates_none.
    destruct (negb created0 || negb created1 || negb created2); harmless_steps.
Qed.

Section Program.

Variable pdMS_TO_TICKS : Z -> Z.
Variables message received_message : core_message_t.

Lemma bound_step s s' :
  invariant s ->
  step (bodies pdMS_TO_TICKS message received_message) s s' ->
  (exists n, creates_at_most (pool s O) n /\ (next s + n <= 4)%nat) ->
  exists n, creates_at_most (pool s' O) n /\ (next s' + n <= 4)%nat.
Proof.
  intros Hinv Hstep (n & Hmain & Hbound).
  pose proof (inv_next _ Hinv) as Hnext.
  assert (forall t X (e : event X) k x,
             pool s t = Vis e k -> spawns e = false ->
             creates_at_most (upd (pool s) t (k x) O) n) as Hsame.
  { intros t X e k x Hpool He. destruct (Nat.eq_dec t O) as [-> | Hne].
    - rewrite upd_same. rewrite Hpool in Hmain. cbn [creates_at_most] in Hmain.
      rewrite He in Hmain. apply Hmain.
    - now rewrite upd_other by congruence. }
  assert (forall t k f created o,
             (exists name stack prio core,
                 pool s t = Vis (xTaskCreatePinnedToCore f name stack prio core) k) \/
             (exists name stack prio, pool s t = Vis (xTaskCreate f name stack prio) k) ->
             exists n', creates_at_most
                          (pool (spawn (bodies pdMS_TO_TICKS message received_message)
                                       s t f k created o) O) n' /\
                        (next (spawn (bodies pdMS_TO_TICKS message received_message)
                                     s t f k created o) + n' <= 4)%nat) as Hspawn.
  { intros t k f created o Hpool. destruct (Nat.eq_dec t O) as [-> | Hne].
    - assert (forall x, creates_at_most (k x) (pred n) /\ (1 <= n)%nat) as Hk.
      { destruct Hpool as [(name & stack & prio & core & Hpool) | (name & stack & prio & Hpool)];
          rewrite Hpool in Hmain; cbn [creates_at_most spawns] in Hmain;
          (destruct n as [| n]; [contradiction |]); intros x;
          (split; [apply Hmain | lia]). }
      exists (pred n). cbn [spawn pool next]. destruct (Hk true) as [_ Hpos].
      destruct created.
      + rewrite upd_other, upd_same by lia. split; [apply Hk | lia].
      + rewrite upd_same. split; [apply Hk | lia].
    - exfalso. pose proof (inv_workers _ Hinv t ltac:(lia)) as Hworker.
      destruct Hpool as [(name & stack & prio & core & Hpool) | (name & stack & prio & Hpool)];
        rewrite Hpool in Hworker; exact Hworker. }
  destruct Hstep as [t k Hpool Hfree | t k Hpool | t c k Hpool | t X e k env Hpool Hquiet
                    | t f name stack prio core k created Hpool
                    | t f name stack prio k created Hpool].
  - exists n. split; [| exact Hbound]. now apply (Hsame t _ xSemaphoreTake k tt).
  - exists n. split; [| exact Hbound]. now apply (Hsame t _ xSemaphoreGive k tt).
  - exists n. split; [| exact Hbound]. now apply (Hsame t _ (putchar c) k tt).
  - exists n. split; [| exact Hbound]. apply (Hsame t X e k _ Hpool).
    destruct e; try reflexivity; discriminate Hquiet.
  - apply Hspawn. left. now exists name, stack, prio, core.
  - apply Hspawn. right. now exists name, stack, prio.
Qed.

Lemma bound_reachable s :
  reachable (bodies pdMS_TO_TICKS message received_message) (start pdMS_TO_TICKS) s ->
  exists n, creates_at_most (pool s O) n /\ (next s + n <= 4)%nat.
Proof.
  intros Hreach. induction Hreach as [| s s' Hreach IH Hstep].
  - exists 3%nat. split; [apply creates_app_main | cbn; lia].
  - apply (bound_step s s'); [| assumption | assumption].
    now apply (invariant_program pdMS_TO_TICKS message received_message).
Qed.

End Program.

End TaskBound.

(** X6: the program never has more than the main task and three created
    tasks, and only the main task creates tasks.  In every state the
    program can reach from boot, at most four task slots are in use, and if
    a task has been created then both [core_queue] and [print_mutex] were
    created before, successfully, so no task ever meets a NULL handle. *)
Theorem at_most_three_tasks_are_created pdMS_TO_TICKS message received_message s :
  Sched.reachable (Sched.bodies pdMS_TO_TICKS message received_message)
                  (Sched.start pdMS_TO_TICKS) s ->
  (1 <= Sched.next s <= 4)%nat /\
  (forall t, (4 <= t)%nat -> Sched.pool s t = Ret tt) /\
  ((1 < Sched.next s)%nat ->
   Sched.queue_made s = Some true /\ Sched.mutex_made s = Some true).
Proof.
  intros Hreach.
  pose proof (Interleaving.invariant_program _ _ _ _ Hreach) as Hinv.
  destruct (TaskBound.bound_reachable _ _ _ s Hreach) as (n & _ & Hbound).
  pose proof (Sched.inv_next _ Hinv) as Hnext.
  split; [lia | split].
  - intros t Ht. apply (Sched.inv_fresh _ Hinv). lia.
  - apply (Sched.inv_spawned _ Hinv).
Qed.

Lemma at_most_three_tasks_are_created_witness :
  exists s,
    Sched.reachable (Sched.bodies ticks_at_100_hz blank_message blank_message)
                    (Sched.start ticks_at_100_hz) s /\
    Sched.next s = 4%nat /\
    ((1 <= Sched.next s <= 4)%nat /\
     (forall t, (4 <= t)%nat -> Sched.pool s t = Ret tt) /\
     ((1 < Sched.next s)%nat ->
      Sched.queue_made s = Some true /\ Sched.mutex_made s = Some true)).
Proof.
  destruct (Schedules.reach_all_created ticks_at_100_hz blank_message blank_message)
    as (s & k & Hreach & _ & _ & Hnext & _).
  exists s. split; [exact Hreach | split; [exact Hnext |]].
  apply (at_most_three_tasks_are_created _ _ _ s Hreach).
Defined.

(** ** What a worker calls and logs *)

Module History.

Lemma pick_app {T : Type} (f : obs -> option T) a b : pick f (a ++ b) = pick f a ++ pick f b.
Proof. apply flat_map_app. Qed.

Lemma pick_putchars {T : Type} (f : obs -> option T) s :
  (forall c, f (Obs (putchar c) tt) = None) -> pick f (putchars s) = [].
Proof.
  intros Hf. unfold putchars. induction (list_ascii_of_string s) as [| c l IH]; [reflexivity |].
  cbn. now rewrite Hf.
Qed.

Lemma pick_safe_printf {T : Type} (f : obs -> option T) s :
  (forall c, f (Obs (putchar c) tt) = None) ->
  f (Obs xSemaphoreTake tt) = None -> f (Obs xSemaphoreGive tt) = None ->
  pick f (safe_printf_calls s) = [].
Proof.
  intros Hc Htake Hgive. unfold safe_printf_calls.
  change (pick f (?o :: ?l)) with (match f o with Some x => [x] | None => [] end ++ pick f l).
  rewrite Htake, pick_app, pick_putchars by assumption. cbn. now rewrite Hgive.
Qed.

Lemma existsb_putchars (f : obs -> bool) s :
  (forall c, f (Obs (putchar c) tt) = false) -> existsb f (putchars s) = false.
Proof.
  intros Hf. unfold putchars. induction (list_ascii_of_string s) as [| c l IH]; [reflexivity |].
  cbn. now rewrite Hf.
Qed.

Lemma existsb_safe_printf (f : obs -> bool) s :
  (forall c, f (Obs (putchar c) tt) = false) ->
  f (Obs xSemaphoreTake tt) = false -> f (Obs xSemaphoreGive tt) = false ->
  existsb f (safe_printf_calls s) = false.
Proof.
  intros Hc Htake Hgive. unfold safe_printf_calls. cbn [existsb].
  rewrite Htake, existsb_app, existsb_putchars by assumption. cbn. now rewrite Hgive.
Qed.

Lemma pick_read_str {T : Type} (f : obs -> option T) l behind :
  (forall b, f (Obs read_past_array b) = None) -> pick f (read_str_calls l behind) = [].
Proof.
  intros Hf. unfold read_str_calls. destruct (c_str l); [reflexivity |].
  cbn. now rewrite Hf.
Qed.

Lemma pick_safe_printf_reading {T : Type} (f : obs -> option T) l behind s :
  (forall c, f (Obs (putchar c) tt) = None) ->
  (forall b, f (Obs read_past_array b) = None) ->
  f (Obs xSemaphoreTake tt) = None -> f (Obs xSemaphoreGive tt) = None ->
  pick f (safe_printf_reading_calls l behind s) = [].
Proof.
  intros Hc Hread Htake Hgive. unfold safe_printf_reading_calls.
  change (pick f (?o :: ?l)) with (match f o with Some x => [x] | None => [] end ++ pick f l).
  rewrite Htake, !pick_app, pick_read_str, pick_putchars by assumption.
  cbn. now rewrite Hgive.
Qed.

Lemma existsb_safe_printf_reading (f : obs -> bool) l behind s :
  (forall c, f (Obs (putchar c) tt) = false) ->
  (forall b, f (Obs read_past_array b) = false) ->
  f (Obs xSemaphoreTake tt) = false -> f (Obs xSemaphoreGive tt) = false ->
  existsb f (safe_printf_reading_calls l behind s) = false.
Proof.
  intros Hc Hread Htake Hgive. unfold safe_printf_reading_calls. cbn [existsb].
  rewrite Htake, !existsb_app, existsb_putchars by assumption.
  cbn. rewrite Hgive. unfold read_str_calls.
  destruct (c_str l); [reflexivity |]. cbn. now rewrite Hread.
Qed.

(** Calls that hand back no message add no reception to a trace. *)
Lemma receptions_quiet a b :
  Forall (fun o => received_of o = None) a -> receptions (a ++ b) = receptions b.
Proof.
  induction 1 as [| o a Ho _ IH]; [reflexivity |].
  cbn [app receptions]. now rewrite Ho.
Qed.

Lemma settled_app a a' : settled a -> settled a' -> settled (a ++ a').
Proof.
  intros Ha Ha' b. rewrite <- app_assoc, Ha, Ha', Ha. now rewrite app_assoc.
Qed.

Lemma pick_cons {T : Type} (f : obs -> option T) o l :
  pick f (o :: l) = match f o with Some x => [x] | None => [] end ++ pick f l.
Proof. reflexivity. Qed.

Lemma pick_nil {T : Type} (f : obs -> option T) : pick f [] = [].
Proof. reflexivity. Qed.

(** Reading a trace that is written out call by call. *)
Ltac read_trace :=
  cbn [app];
  repeat first [ rewrite pick_app
               | rewrite existsb_app
               | rewrite pick_safe_printf by reflexivity
               | rewrite pick_safe_printf_reading by reflexivity
               | rewrite pick_putchars by reflexivity
               | rewrite existsb_safe_printf by reflexivity
               | rewrite existsb_safe_printf_reading by reflexivity
               | rewrite existsb_putchars by reflexivity
               | rewrite pick_cons
               | rewrite pick_nil
               | progress cbn [existsb] ];
  cbn [send_outcome delay_of receive_of received_of is_send is_receive app orb].

Section Workers.

Variables (env : Env) (pdMS_TO_TICKS : Z -> Z).

Lemma core0_calls_history i message t0 t1 sent c t2 t :
  0 <= i < 2 ^ 32 ->
  pick send_outcome (core0_calls pdMS_TO_TICKS i message t0 t1 sent c t2 t)
  = (if Z.rem i 10 =? 0 then [(i, sent)] else []) /\
  flat_map core0_log_line (pick send_outcome (core0_calls pdMS_TO_TICKS i message t0 t1 sent c t2 t))
  = core0_output i sent /\
  pick delay_of (core0_calls pdMS_TO_TICKS i message t0 t1 sent c t2 t) = [pdMS_TO_TICKS 50] /\
  existsb is_receive (core0_calls pdMS_TO_TICKS i message t0 t1 sent c t2 t) = false.
Proof.
  intros Hi.
  assert (pick send_outcome (core0_calls pdMS_TO_TICKS i message t0 t1 sent c t2 t)
          = (if Z.rem i 10 =? 0 then [(i, sent)] else [])) as Houtcome.
  { unfold core0_calls, core0_send_calls, bookkeeping_calls.
    destruct (Z.rem i 10 =? 0); [destruct sent |]; read_trace;
      cbn [core0_message message_id]; rewrite ?wrap32_small by lia; reflexivity. }
  split; [exact Houtcome | split; [| split]].
  - rewrite Houtcome. unfold core0_output, core0_log_line.
    destruct (Z.rem i 10 =? 0); [| reflexivity].
    destruct sent; cbn [flat_map fst snd andb]; rewrite ?app_nil_r; reflexivity.
  - unfold core0_calls, core0_send_calls, bookkeeping_calls.
    destruct (Z.rem i 10 =? 0); [destruct sent |]; read_trace; reflexivity.
  - unfold core0_calls, core0_send_calls, bookkeeping_calls.
    destruct (Z.rem i 10 =? 0); [destruct sent |]; read_trace; reflexivity.
Qed.

Lemma core1_calls_history r t0 t1 behind c t2 t :
  pick receive_of (core1_calls pdMS_TO_TICKS r t0 t1 behind c t2 t) = [pdMS_TO_TICKS 10] /\
  pick delay_of (core1_calls pdMS_TO_TICKS r t0 t1 behind c t2 t) = [pdMS_TO_TICKS 30] /\
  existsb is_send (core1_calls pdMS_TO_TICKS r t0 t1 behind c t2 t) = false.
Proof.
  unfold core1_calls, core1_receive_calls, bookkeeping_calls.
  destruct r as [m |]; read_trace; repeat split; reflexivity.
Qed.

(** The receptions of the calls of one iteration, and of what follows. *)
Lemma core1_calls_receptions r t0 t1 behind c t2 t b :
  receptions (core1_calls pdMS_TO_TICKS r t0 t1 behind c t2 t ++ b)
  = match r with
    | Some m => [reception_of (mkReport m t1 behind)]
    | None => []
    end ++ receptions b.
Proof.
  unfold core1_calls, core1_receive_calls, bookkeeping_calls.
  destruct r as [m |].
  - cbn [app receptions received_of clock_of]. f_equal.
    + unfold reception_of. cbn [rp_message rp_now rp_behind]. f_equal.
      unfold safe_printf_reading_calls, read_str_calls, core1_report_line,
        core1_received_line.
      destruct (c_str (data m)); reflexivity.
    + unfold safe_printf_reading_calls.
      cbn [app]. rewrite <- !app_assoc. cbn [app receptions received_of].
      rewrite receptions_quiet
        by (unfold read_str_calls; destruct (c_str (data m));
            [apply Forall_nil | apply Forall_cons; [reflexivity | apply Forall_nil]]).
      rewrite receptions_quiet; [reflexivity |].
      unfold putchars. apply Forall_forall. intros o Ho.
      apply in_map_iff in Ho as (c' & <- & _). reflexivity.
  - reflexivity.
Qed.

Lemma core1_calls_settled r t0 t1 behind c t2 t :
  settled (core1_calls pdMS_TO_TICKS r t0 t1 behind c t2 t).
Proof.
  intros b. rewrite core1_calls_receptions. f_equal.
  rewrite <- (app_nil_r (core1_calls pdMS_TO_TICKS r t0 t1 behind c t2 t)).
  rewrite core1_calls_receptions. cbn [receptions]. now rewrite app_nil_r.
Qed.

Lemma repeat_snoc {T : Type} (x : T) n : repeat x (S n) = repeat x n ++ [x].
Proof. induction n as [| n IH]; [reflexivity |]. cbn in *. now rewrite <- IH. Qed.

(** The loop of [core0_task]. *)
Lemma core0_loop_history message w1 :
  exists message' w2 calls,
    run env (for_lt 0 100 (core0_iteration pdMS_TO_TICKS) message) w1 = Done message' w2 /\
    w_trace w2 = w_trace w1 ++ calls /\
    w_stdout w2 = w_stdout w1 ++ flat_map core0_log_line (pick send_outcome calls) /\
    map fst (pick send_outcome calls) = sending_iterations 100 /\
    pick delay_of calls = repeat (pdMS_TO_TICKS 50) 100 /\
    existsb is_receive calls = false.
Proof.
  unfold for_lt.
  destruct (run_for_loop env (core0_iteration pdMS_TO_TICKS)
              (fun j _ w =>
                 exists calls,
                   w_trace w = w_trace w1 ++ calls /\
                   w_stdout w = w_stdout w1 ++ flat_map core0_log_line (pick send_outcome calls) /\
                   map fst (pick send_outcome calls) = sending_iterations j /\
                   pick delay_of calls = repeat (pdMS_TO_TICKS 50) (Z.to_nat j) /\
                   existsb is_receive calls = false)
              (Z.to_nat (100 - 0)) 0 message w1) as (message' & w2 & Hrun & calls & Hend).
  - intros j m w Hj (calls & Htrace & Hout & Hids & Hdelays & Hquiet).
    destruct (run_core0_iteration env pdMS_TO_TICKS j m w) as (t0 & t1 & sent & t2 & Hrun).
    rewrite Hrun. do 2 eexists. split; [reflexivity |].
    destruct (core0_calls_history j m t0 t1 sent (w_core0_counter w) t2 (w_core0_total_time w))
      as (Houtcome & Hlog & Hdelay & Hreceive); [cbn in Hj; lia |].
    eexists. unfold core0_after. cbn [w_trace w_stdout]. split; [| split; [| split; [| split]]].
    + rewrite Htrace, <- app_assoc. reflexivity.
    + rewrite pick_app, flat_map_app, Hlog, Hout, <- app_assoc. reflexivity.
    + rewrite pick_app, map_app, Hids, Houtcome, sending_iterations_succ by lia.
      now destruct (Z.rem j 10 =? 0).
    + rewrite pick_app, Hdelays, Hdelay.
      replace (Z.to_nat (j + 1)) with (S (Z.to_nat j)) by lia. now rewrite repeat_snoc.
    + now rewrite existsb_app, Hquiet, Hreceive.
  - exists []. rewrite !app_nil_r. repeat split.
  - exists message', w2, calls. split; [exact Hrun | exact Hend].
Qed.

(** The loop of [core1_task]. *)
Lemma core1_loop_history received_message w1 :
  exists received_message' w2 calls reports,
    run env (for_lt 0 150 (core1_iteration pdMS_TO_TICKS) received_message) w1
    = Done received_message' w2 /\
    w_trace w2 = w_trace w1 ++ calls /\
    w_stdout w2 = w_stdout w1 ++ flat_map core1_log_line reports /\
    receptions calls = map reception_of reports /\
    pick receive_of calls = repeat (pdMS_TO_TICKS 10) 150 /\
    pick delay_of calls = repeat (pdMS_TO_TICKS 30) 150 /\
    existsb is_send calls = false.
Proof.
  unfold for_lt.
  destruct (run_for_loop env (core1_iteration pdMS_TO_TICKS)
              (fun j _ w =>
                 exists calls reports,
                   w_trace w = w_trace w1 ++ calls /\
                   w_stdout w = w_stdout w1 ++ flat_map core1_log_line reports /\
                   (receptions calls = map reception_of reports /\ settled calls) /\
                   pick receive_of calls = repeat (pdMS_TO_TICKS 10) (Z.to_nat j) /\
                   pick delay_of calls = repeat (pdMS_TO_TICKS 30) (Z.to_nat j) /\
                   existsb is_send calls = false)
              (Z.to_nat (150 - 0)) 0 received_message w1)
    as (message' & w2 & Hrun & calls & reports & Htrace & Hout & (Hgot & _) & Hend).
  - intros j m w Hj
           (calls & reports & Htrace & Hout & (Hgot & Hsettled) & Hpolls & Hdelays & Hquiet).
    destruct (run_core1_iteration env pdMS_TO_TICKS j m w) as (r & t0 & t1 & behind & t2 & Hrun).
    rewrite Hrun. do 2 eexists. split; [reflexivity |].
    destruct (core1_calls_history r t0 t1 behind (w_core1_counter w) t2 (w_core1_total_time w))
      as (Hpoll & Hdelay & Hsend).
    eexists.
    exists (reports ++ match r with Some m' => [mkReport m' t1 behind] | None => [] end).
    unfold core1_after. cbn [w_trace w_stdout].
    replace (Z.to_nat (j + 1)) with (S (Z.to_nat j)) by lia.
    split; [| split; [| split; [| split; [| split]]]].
    + rewrite Htrace, <- app_assoc. reflexivity.
    + rewrite flat_map_app, Hout, <- app_assoc. f_equal. f_equal.
      unfold core1_output, core1_log_line. destruct r as [m' |]; [| reflexivity].
      cbn [flat_map rp_message rp_now rp_behind]. now rewrite app_nil_r.
    + split.
      * rewrite Hsettled, Hgot, map_app. f_equal.
        rewrite <- (app_nil_r (core1_calls _ _ _ _ _ _ _ _)), core1_calls_receptions.
        cbn [receptions]. rewrite app_nil_r. now destruct r.
      * apply settled_app; [assumption | apply core1_calls_settled].
    + now rewrite pick_app, Hpolls, Hpoll, repeat_snoc.
    + now rewrite pick_app, Hdelays, Hdelay, repeat_snoc.
    + now rewrite existsb_app, Hquiet, Hsend.
  - exists [], []. rewrite !app_nil_r. repeat split.
  - exists message', w2, calls, reports.
    split; [exact Hrun | split; [exact Htrace | split; [exact Hout | split; [exact Hgot | exact Hend]]]].
Qed.

Lemma run_core0_task_history message w0 :
  exists task_start task_end loop_calls w,
    run env (core0_task pdMS_TO_TICKS message) w0 = Done tt w /\
    w_trace w
    = w_trace w0
      ++ Obs esp_timer_get_time task_start
      :: safe_printf_calls ("Core 0 Task Started (PRO_CPU)" ++ LF)
      ++ loop_calls
      ++ Obs esp_timer_get_time task_end
      :: safe_printf_calls
           ("Core 0 Task Completed in "
            ++ fmt_llu (wrap64 (wrap64 task_end - wrap64 task_start) / 1000) ++ " ms" ++ LF)
      ++ [Obs vTaskDelete tt] /\
    w_stdout w
    = w_stdout w0
      ++ list_ascii_of_string ("Core 0 Task Started (PRO_CPU)" ++ LF)
      ++ flat_map core0_log_line (pick send_outcome loop_calls)
      ++ list_ascii_of_string
           ("Core 0 Task Completed in "
            ++ fmt_llu (wrap64 (wrap64 task_end - wrap64 task_start) / 1000) ++ " ms" ++ LF) /\
    map fst (pick send_outcome loop_calls) = sending_iterations 100 /\
    pick delay_of loop_calls = repeat (pdMS_TO_TICKS 50) 100 /\
    existsb is_receive loop_calls = false.
Proof.
  unfold core0_task. exec env. rewrite run_bind.
  match goal with |- context [run env (for_lt 0 100 _ _) ?w1] =>
    destruct (core0_loop_history message w1)
      as (message' & w2 & calls & Hrun & Htrace & Hout & Hids & Hdelays & Hquiet)
  end.
  rewrite Hrun. exec env.
  exists now, now0, calls. eexists. split; [reflexivity |].
  cbn [w_trace w_stdout] in *. rewrite Htrace, Hout.
  repeat split; try assumption.
  - rewrite <- ?app_assoc. cbn [app]. rewrite <- ?app_assoc. reflexivity.
  - rewrite <- ?app_assoc. reflexivity.
Qed.

Lemma run_core1_task_history received_message w0 :
  exists task_start task_end loop_calls reports w,
    run env (core1_task pdMS_TO_TICKS received_message) w0 = Done tt w /\
    w_trace w
    = w_trace w0
      ++ Obs esp_timer_get_time task_start
      :: safe_printf_calls ("Core 1 Task Started (APP_CPU)" ++ LF)
      ++ loop_calls
      ++ Obs esp_timer_get_time task_end
      :: safe_printf_calls
           ("Core 1 Task Completed in "
            ++ fmt_llu (wrap64 (wrap64 task_end - wrap64 task_start) / 1000) ++ " ms" ++ LF)
      ++ [Obs vTaskDelete tt] /\
    w_stdout w
    = w_stdout w0
      ++ list_ascii_of_string ("Core 1 Task Started (APP_CPU)" ++ LF)
      ++ flat_map core1_log_line reports
      ++ list_ascii_of_string
           ("Core 1 Task Completed in "
            ++ fmt_llu (wrap64 (wrap64 task_end - wrap64 task_start) / 1000) ++ " ms" ++ LF) /\
    receptions loop_calls = map reception_of reports /\
    pick receive_of loop_calls = repeat (pdMS_TO_TICKS 10) 150 /\
    pick delay_of loop_calls = repeat (pdMS_TO_TICKS 30) 150 /\
    existsb is_send loop_calls = false.
Proof.
  unfold core1_task. exec env. rewrite run_bind.
  match goal with |- context [run env (for_lt 0 150 _ _) ?w1] =>
    destruct (core1_loop_history received_message w1)
      as (message' & w2 & calls & reports & Hrun & Htrace & Hout & Hgot & Hpolls & Hdelays & Hquiet)
  end.
  rewrite Hrun. exec env.
  exists now, now0, calls, reports. eexists. split; [reflexivity |].
  cbn [w_trace w_stdout] in *. rewrite Htrace, Hout.
  repeat split; try assumption.
  - rewrite <- ?app_assoc. cbn [app]. rewrite <- ?app_assoc. reflexivity.
  - rewrite <- ?app_assoc. reflexivity.
Qed.

End Workers.

End History.

(** X7: what [core0_task] prints and calls from start to end, whatever the
    SDK answers.  The console gets the start line, then one "Core 0: Sent
    message i" line for each of the ten sends (i = 0, 10, ..., 90) that the
    queue accepted, in order, and nothing for a dropped one, then the
    completion line with the time between the first and the last clock
    reading of the task, in milliseconds.  The task sleeps
    [pdMS_TO_TICKS(50)] once in each of its 100 iterations, never receives,
    and [vTaskDelete] is its last call. *)
Theorem core0_task_logs_accepted_sends env pdMS_TO_TICKS message w0 :
  exists task_start task_end loop_calls w,
    run env (core0_task pdMS_TO_TICKS message) w0 = Done tt w /\
    w_trace w
    = w_trace w0
      ++ Obs esp_timer_get_time task_start
      :: safe_printf_calls ("Core 0 Task Started (PRO_CPU)" ++ LF)
      ++ loop_calls
      ++ Obs esp_timer_get_time task_end
      :: safe_printf_calls
           ("Core 0 Task Completed in "
            ++ fmt_llu (wrap64 (wrap64 task_end - wrap64 task_start) / 1000) ++ " ms" ++ LF)
      ++ [Obs vTaskDelete tt] /\
    w_stdout w
    = w_stdout w0
      ++ list_ascii_of_string ("Core 0 Task Started (PRO_CPU)" ++ LF)
      ++ flat_map core0_log_line (pick send_outcome loop_calls)
      ++ list_ascii_of_string
           ("Core 0 Task Completed in "
            ++ fmt_llu (wrap64 (wrap64 task_end - wrap64 task_start) / 1000) ++ " ms" ++ LF) /\
    map fst (pick send_outcome loop_calls) = [0; 10; 20; 30; 40; 50; 60; 70; 80; 90] /\
    pick delay_of loop_calls = repeat (pdMS_TO_TICKS 50) 100 /\
    existsb is_receive loop_calls = false.
Proof.
  destruct (History.run_core0_task_history env pdMS_TO_TICKS message w0)
    as (task_start & task_end & loop_calls & w & Hrun & Htrace & Hout & Hids & Hrest).
  exists task_start, task_end, loop_calls, w.
  split; [exact Hrun | split; [exact Htrace | split; [exact Hout | split; [| exact Hrest]]]].
  rewrite Hids. reflexivity.
Qed.

(** X8: what [core1_task] prints and calls from start to end, whatever the
    SDK answers.  It polls the queue once in each of its 150 iterations,
    with a timeout of [pdMS_TO_TICKS(10)], sleeps [pdMS_TO_TICKS(30)] once
    per iteration and never sends.  The console gets the start line, then
    one "Core 1: Received ..." line for each message a receive handed back,
    in the order received, and nothing for a receive that timed out, then
    the completion line; [vTaskDelete] is the last call.  The line of a
    message holds the text of its [data] (what stands in front of the first
    NUL; for a [data] with no NUL, its characters followed by what
    [vprintf] read behind the array) and, as latency, the clock reading of
    the call right after the receive minus the timestamp of the message,
    in 64-bit unsigned arithmetic. *)
Theorem core1_task_reports_each_received_message env pdMS_TO_TICKS received_message w0 :
  exists task_start task_end loop_calls reports w,
    run env (core1_task pdMS_TO_TICKS received_message) w0 = Done tt w /\
    w_trace w
    = w_trace w0
      ++ Obs esp_timer_get_time task_start
      :: safe_printf_calls ("Core 1 Task Started (APP_CPU)" ++ LF)
      ++ loop_calls
      ++ Obs esp_timer_get_time task_end
      :: safe_printf_calls
           ("Core 1 Task Completed in "
            ++ fmt_llu (wrap64 (wrap64 task_end - wrap64 task_start) / 1000) ++ " ms" ++ LF)
      ++ [Obs vTaskDelete tt] /\
    w_stdout w
    = w_stdout w0
      ++ list_ascii_of_string ("Core 1 Task Started (APP_CPU)" ++ LF)
      ++ flat_map
           (fun r =>
              list_ascii_of_string
                ("Core 1: Received '"
                 ++ match c_str (data (rp_message r)) with
                    | Some text => text
                    | None => string_of_list_ascii (data (rp_message r)) ++ rp_behind r
                    end
                 ++ "' (latency: "
                 ++ fmt_llu (wrap64 (wrap64 (rp_now r) - timestamp (rp_message r)))
                 ++ " " ++ mu ++ "s)" ++ LF))
           reports
      ++ list_ascii_of_string
           ("Core 1 Task Completed in "
            ++ fmt_llu (wrap64 (wrap64 task_end - wrap64 task_start) / 1000) ++ " ms" ++ LF) /\
    receptions loop_calls
    = map (fun r =>
             (rp_message r, Some (rp_now r),
              match c_str (data (rp_message r)) with
              | Some _ => None
              | None => Some (rp_behind r)
              end))
          reports /\
    pick receive_of loop_calls = repeat (pdMS_TO_TICKS 10) 150 /\
    pick delay_of loop_calls = repeat (pdMS_TO_TICKS 30) 150 /\
    existsb is_send loop_calls = false.
Proof.
  destruct (History.run_core1_task_history env pdMS_TO_TICKS received_message w0)
    as (task_start & task_end & loop_calls & reports & w & Hrun & Htrace & Hout & Hfacts).
  exists task_start, task_end, loop_calls, reports, w.
  split; [exact Hrun | split; [exact Htrace | split; [exact Hout | exact Hfacts]]].
Qed.

(** ** The cache test *)

Module CacheFacts.
Import Cache.
Local Open Scope cache_scope.

Lemma for_loop_inv {L : Type} (body : Z -> L -> M L) (P : Z -> L -> machine -> Prop) n :
  forall i s m,
    (forall j s m, i <= j < i + Z.of_nat n -> P j s m ->
       exists s' m', body j s m = Ok s' m' /\ P (j + 1) s' m') ->
    P i s m ->
    exists s' m', for_loop n i body s m = Ok s' m' /\ P (i + Z.of_nat n) s' m'.
Proof.
  induction n as [| n IH]; intros i s m Hbody Hstart.
  - exists s, m. cbn. now rewrite Z.add_0_r.
  - destruct (Hbody i s m ltac:(lia) Hstart) as (s1 & m1 & Hrun & Hnext).
    destruct (IH (i + 1) s1 m1) as (s2 & m2 & Hrest & Hend); [| assumption |].
    + intros j s' m' Hj. apply Hbody. lia.
    + exists s2, m2. cbn [for_loop]. unfold bind. rewrite Hrun. split; [assumption |].
      now replace (i + Z.of_nat (S n)) with (i + 1 + Z.of_nat n) by lia.
Qed.

Lemma total_app a b : total (a ++ b) = total a + total b.
Proof. unfold total. induction a as [| x a IH]; cbn; [reflexivity | lia]. Qed.

Lemma total_permutation a b : Permutation a b -> total a = total b.
Proof.
  unfold total. induction 1 as [| x a b _ IH | x y a | a b c _ IHab _ IHbc]; cbn; lia.
Qed.

Lemma select_app a l l' : select a (l ++ l') = select a l ++ select a l'.
Proof. apply flat_map_app. Qed.

Lemma get_some a i :
  0 <= i < Z.of_nat (List.length a) -> exists x, get a i = Some x.
Proof.
  intros Hi. unfold get. destruct (Z.ltb_spec i 0) as [Hneg | _]; [lia |].
  destruct (nth_error a (Z.to_nat i)) as [x |] eqn:Hnth; [now exists x |].
  apply nth_error_None in Hnth. lia.
Qed.

Lemma get_none a i : ~ 0 <= i < Z.of_nat (List.length a) -> get a i = None.
Proof.
  intros Hi. unfold get. destruct (Z.ltb_spec i 0) as [Hneg | Hpos]; [reflexivity |].
  apply nth_error_None. lia.
Qed.

Lemma wrap32_idem z : wrap32 (wrap32 z) = wrap32 z.
Proof. apply wrap32_small, wrap32_range. Qed.

Lemma wrap32_add_both a b : wrap32 (wrap32 a + b) = wrap32 (a + b).
Proof. unfold wrap32. now rewrite Z.add_mod_idemp_l by lia. Qed.

(** A pass over the words [idx 0], [idx 1], ... of an array adds them up. *)
Lemma pass_sum array a m (idx : Z -> Z) n :
  deref array m = Some a ->
  (forall i, 0 <= i < Z.of_nat n -> 0 <= idx i < Z.of_nat (List.length a)) ->
  forall sum,
    wrap32 sum = sum ->
    for_loop n 0 (fun i sum => x <- load array (idx i) ;; ret (wrap32 (sum + x))) sum m
    = Ok (wrap32 (sum + total (select a (map idx (map Z.of_nat (seq 0 n)))))) m.
Proof.
  intros Harray Hidx sum Hsum.
  destruct (for_loop_inv
              (fun i sum => x <- load array (idx i) ;; ret (wrap32 (sum + x)))
              (fun j s m' =>
                 m' = m /\
                 s = wrap32 (sum + total (select a (map idx (map Z.of_nat
                                                            (seq 0 (Z.to_nat j)))))))
              n 0 sum m) as (s' & m' & Hrun & -> & ->).
  - intros j s m' Hj [-> ->].
    destruct (get_some a (idx j)) as [x Hx]; [apply Hidx; lia |].
    exists (wrap32 (sum + total (select a (map idx (map Z.of_nat (seq 0 (Z.to_nat (j + 1)))))))),
           m.
    split; [| now split].
    unfold bind, load, ret. rewrite Harray, Hx. f_equal.
    replace (Z.to_nat (j + 1)) with (S (Z.to_nat j)) by lia.
    rewrite seq_S, !map_app, select_app, total_app. cbn [Nat.add map select flat_map].
    rewrite Z2Nat.id by lia. rewrite Hx. cbn [app total fold_right].
    rewrite wrap32_add_both. f_equal. lia.
  - split; [reflexivity |]. cbn. now rewrite Z.add_0_r.
  - rewrite Hrun. now rewrite Z.add_0_l, Nat2Z.id.
Qed.

(** Rounds that each add [T]. *)
Lemma rounds_sum (body : Z -> Z -> M Z) T m n :
  (forall i sum, wrap32 sum = sum -> body i sum m = Ok (wrap32 (sum + T)) m) ->
  forall i sum,
    wrap32 sum = sum ->
    for_loop n i body sum m = Ok (wrap32 (sum + Z.of_nat n * T)) m.
Proof.
  intros Hbody. induction n as [| n IH]; intros i sum Hsum.
  - cbn. unfold ret. now rewrite Z.add_0_r, Hsum.
  - cbn [for_loop]. unfold bind. rewrite Hbody by assumption.
    rewrite IH by apply wrap32_idem.
    rewrite wrap32_add_both. f_equal. f_equal. lia.
Qed.

Lemma select_ext a b l :
  (forall i, In i l -> get a i = get b i) -> select a l = select b l.
Proof.
  intros Hext. unfold select. induction l as [| i l IH]; [reflexivity |].
  cbn. rewrite (Hext i (or_introl eq_refl)), IH; [reflexivity |].
  intros j Hj. apply Hext. now right.
Qed.

Lemma get_app_l a b i : 0 <= i < Z.of_nat (List.length a) -> get (a ++ b) i = get a i.
Proof.
  intros Hi. unfold get. destruct (Z.ltb_spec i 0); [reflexivity |].
  apply nth_error_app1. lia.
Qed.

(** All the words of an array, in order. *)
Lemma select_all a : select a (map Z.of_nat (seq 0 (List.length a))) = a.
Proof.
  induction a as [| x a IH] using rev_ind; [reflexivity |].
  rewrite length_app, Nat.add_comm. cbn [List.length Nat.add].
  rewrite seq_S, map_app, select_app. cbn [Nat.add map].
  rewrite (select_ext (a ++ [x]) a).
  - rewrite IH. f_equal. unfold select. cbn [flat_map]. unfold get.
    destruct (Z.ltb_spec (Z.of_nat (List.length a)) 0) as [Hneg | _]; [lia |].
    rewrite Nat2Z.id, nth_error_app2, Nat.sub_diag by lia. reflexivity.
  - intros i Hi. apply in_map_iff in Hi as (k & <- & Hk). apply in_seq in Hk.
    apply get_app_l. lia.
Qed.

Lemma array_size_nat : Z.of_nat (Z.to_nat (ARRAY_SIZE - 0)) = 4096.
Proof. reflexivity. Qed.

Lemma select_indices a : Z.of_nat (List.length a) = ARRAY_SIZE -> select a indices = a.
Proof.
  intros Hlen. unfold indices. replace (Z.to_nat ARRAY_SIZE) with (List.length a) by lia.
  apply select_all.
Qed.

Section Passes.

Variable sdk : Sdk.
Variable array : array_ref.
Variable a : list Z.
Variable m : machine.
Hypothesis array_there : deref array m = Some a.
Hypothesis array_size : Z.of_nat (List.length a) = ARRAY_SIZE.

(** One pass of [measure_sequential_access]. *)
Lemma sequential_pass sum :
  wrap32 sum = sum ->
  for_lt 0 ARRAY_SIZE (fun i sum => x <- load array i ;; ret (wrap32 (sum + x))) sum m
  = Ok (wrap32 (sum + total a)) m.
Proof.
  intros Hsum. unfold for_lt.
  rewrite (pass_sum array a m (fun i => i) _ array_there) by (try assumption; unfold ARRAY_SIZE in *; lia).
  rewrite map_id. replace (Z.to_nat (ARRAY_SIZE - 0)) with (Z.to_nat ARRAY_SIZE) by reflexivity.
  fold indices. now rewrite select_indices.
Qed.

End Passes.

(** *** The index of [measure_random_access] *)

Lemma random_index_small i :
  0 <= i < 2 ^ 32 -> random_index i = (i * 2654435761) mod 4096.
Proof.
  intros Hi. unfold random_index, wrap32, ARRAY_SIZE.
  rewrite (Z.mod_small i) by assumption.
  apply Z.mod_mod_divide. exists (2 ^ 20). reflexivity.
Qed.

Lemma random_index_range i : 0 <= random_index i < ARRAY_SIZE.
Proof. unfold random_index, ARRAY_SIZE. apply Z.mod_pos_bound. lia. Qed.

(** Multiplying by 3921 undoes the multiplication by 2654435761 modulo
    4096. *)
Lemma random_index_inverse i :
  0 <= i < ARRAY_SIZE -> (random_index i * 3921) mod 4096 = i.
Proof.
  unfold ARRAY_SIZE. intros Hi. rewrite random_index_small by lia.
  rewrite Z.mul_mod_idemp_l by lia.
  replace (i * 2654435761 * 3921) with (i + i * 2541026030 * 4096) by lia.
  rewrite Z.mod_add by lia. apply Z.mod_small. lia.
Qed.

Lemma in_indices i : In i indices <-> 0 <= i < ARRAY_SIZE.
Proof.
  unfold indices. rewrite in_map_iff. split.
  - intros (k & <- & Hk). apply in_seq in Hk. lia.
  - intros Hi. exists (Z.to_nat i). split; [lia |]. apply in_seq. lia.
Qed.

Lemma indices_nodup : NoDup indices.
Proof.
  unfold indices. apply NoDup_map_NoDup_ForallPairs; [| apply seq_NoDup].
  intros x y _ _. apply Nat2Z.inj.
Qed.

(** One pass of [measure_random_access] visits every index once. *)
Lemma random_index_permutation : Permutation (map random_index indices) indices.
Proof.
  apply NoDup_Permutation_bis.
  - apply NoDup_map_NoDup_ForallPairs; [| apply indices_nodup].
    intros x y Hx Hy Heq. apply in_indices in Hx, Hy.
    rewrite <- (random_index_inverse x), <- (random_index_inverse y) by assumption.
    now rewrite Heq.
  - now rewrite length_map.
  - intros x Hx. apply in_map_iff in Hx as (i & <- & _).
    apply in_indices, random_index_range.
Qed.

Section Measures.

Variable sdk : Sdk.
Variable array : array_ref.
Variable a : list Z.

Lemma random_pass m sum :
  deref array m = Some a ->
  Z.of_nat (List.length a) = ARRAY_SIZE ->
  wrap32 sum = sum ->
  for_lt 0 ARRAY_SIZE
         (fun i sum =>
            let index := random_index i in
            x <- load array index ;; ret (wrap32 (sum + x))) sum m
  = Ok (wrap32 (sum + total a)) m.
Proof.
  intros Harray Hsize Hsum. unfold for_lt.
  rewrite (pass_sum array a m random_index _ Harray)
    by (try assumption; intros i _; rewrite Hsize; apply random_index_range).
  replace (Z.to_nat (ARRAY_SIZE - 0)) with (Z.to_nat ARRAY_SIZE) by reflexivity.
  fold indices. f_equal. f_equal. f_equal.
  rewrite <- (select_indices a Hsize) at 2.
  apply total_permutation. unfold select. apply Permutation_flat_map.
  apply random_index_permutation.
Qed.

End Measures.

Lemma bind_eq {A B : Type} (p : M A) (f : A -> M B) m r m' :
  p m = Ok r m' -> bind p f m = f r m'.
Proof. intros Hp. unfold bind. now rewrite Hp. Qed.

Lemma deref_log array c m : deref array (log c m) = deref array m.
Proof. now destruct array. Qed.

Lemma five_hundred_passes (pass : Z -> M Z) a m :
  (forall sum, wrap32 sum = sum -> pass sum m = Ok (wrap32 (sum + total a)) m) ->
  for_lt 0 TEST_RUNS (fun run sum => for_lt 0 ITERATIONS (fun iter sum => pass sum) sum) 0 m
  = Ok (wrap32 (500 * total a)) m.
Proof.
  intros Hpass. unfold for_lt.
  rewrite (rounds_sum _ (100 * total a)).
  - change (Z.of_nat (Z.to_nat (TEST_RUNS - 0))) with 5.
    replace (0 + 5 * (100 * total a)) with (500 * total a) by lia. reflexivity.
  - intros i sum Hsum. rewrite (rounds_sum _ (total a)); [| | assumption].
    + reflexivity.
    + intros j sum' Hsum'. now apply Hpass.
  - reflexivity.
Qed.

Section Specs.

Variable sdk : Sdk.

Lemma measure_sequential_access_spec array memory_type a m :
  deref array m = Some a ->
  Z.of_nat (List.length a) = ARRAY_SIZE ->
  measure_sequential_access sdk array memory_type m
  = Ok (measured_time sdk m)
       (measured sdk m
          (memory_type ++ " Sequential Access: " ++ fmt_llu (measured_time sdk m) ++ " " ++ mu
           ++ "s (sum=" ++ fmt_lu (wrap32 (500 * total a)) ++ ")" ++ LF)).
Proof.
  intros Harray Hsize. unfold measure_sequential_access.
  change (bind (esp_timer_get_time sdk) ?f m)
    with (f (sdk_clock sdk (List.length (m_calls m)))
            (log (timer_read (sdk_clock sdk (List.length (m_calls m)))) m)).
  cbv beta zeta.
  rewrite (bind_eq _ _ _ _ _
             (five_hundred_passes
                (fun sum => for_lt 0 ARRAY_SIZE
                              (fun i sum => x <- load array i ;; ret (wrap32 (sum + x))) sum)
                a _
                (fun sum Hsum => sequential_pass array a _
                                   (eq_trans (deref_log array _ m) Harray) Hsize sum Hsum))).
  unfold bind, esp_timer_get_time, printf, ret, measured, measured_time, log.
  cbn [m_calls sram_array psram_array m_console psram_freed]. rewrite length_app, Nat.add_comm.
  cbn [List.length Nat.add]. rewrite <- app_assoc. reflexivity.
Qed.

Lemma measure_random_access_spec array memory_type a m :
  deref array m = Some a ->
  Z.of_nat (List.length a) = ARRAY_SIZE ->
  measure_random_access sdk array memory_type m
  = Ok (measured_time sdk m)
       (measured sdk m
          (memory_type ++ " Random Access: " ++ fmt_llu (measured_time sdk m) ++ " " ++ mu
           ++ "s (sum=" ++ fmt_lu (wrap32 (500 * total a)) ++ ")" ++ LF)).
Proof.
  intros Harray Hsize. unfold measure_random_access.
  change (bind (esp_timer_get_time sdk) ?f m)
    with (f (sdk_clock sdk (List.length (m_calls m)))
            (log (timer_read (sdk_clock sdk (List.length (m_calls m)))) m)).
  cbv beta zeta.
  rewrite (bind_eq _ _ _ _ _
             (five_hundred_passes
                (fun sum => for_lt 0 ARRAY_SIZE
                              (fun i sum => x <- load array (random_index i) ;;
                                            ret (wrap32 (sum + x))) sum)
                a _
                (fun sum Hsum => random_pass array a _ sum
                                   (eq_trans (deref_log array _ m) Harray) Hsize Hsum))).
  unfold bind, esp_timer_get_time, printf, ret, measured, measured_time, log.
  cbn [m_calls sram_array psram_array m_console psram_freed]. rewrite length_app, Nat.add_comm.
  cbn [List.length Nat.add]. rewrite <- app_assoc. reflexivity.
Qed.

End Specs.

(** *** Passes with a stride *)

Section Strides.

Variable array : array_ref.
Variable a : list Z.
Variable m : machine.
Hypothesis array_there : deref array m = Some a.
Hypothesis array_size : Z.of_nat (List.length a) = ARRAY_SIZE.

Lemma load_ok i :
  0 <= i < ARRAY_SIZE -> exists x, get a i = Some x /\ load array i m = Ok x m.
Proof.
  intros Hi. destruct (get_some a i) as [x Hx]; [lia |].
  exists x. split; [assumption |]. unfold load. now rewrite array_there, Hx.
Qed.

Lemma stride_pass_rounds stride n : forall fuel i sum,
  (n < fuel)%nat ->
  wrap32 sum = sum ->
  (forall k, (k < n)%nat -> 0 <= i + Z.of_nat k * stride < ARRAY_SIZE) ->
  ARRAY_SIZE <= i + Z.of_nat n * stride ->
  stride_pass fuel array stride i sum m
  = Ok (wrap32 (sum + total (select a (map (fun k => i + Z.of_nat k * stride) (seq 0 n))))) m.
Proof.
  induction n as [| n IH]; intros fuel i sum Hfuel Hsum Hin Hout;
    (destruct fuel as [| fuel]; [lia |]); cbn [stride_pass].
  - destruct (Z.ltb_spec i ARRAY_SIZE) as [Hlt | _]; [lia |].
    unfold ret. cbn. now rewrite Z.add_0_r, Hsum.
  - destruct (Z.ltb_spec i ARRAY_SIZE) as [_ | Hge]; [| specialize (Hin O); lia].
    destruct (load_ok i) as (x & Hx & Hload); [specialize (Hin O); lia |].
    rewrite (bind_eq _ _ _ _ _ Hload).
    rewrite (IH fuel (i + stride) (wrap32 (sum + x))).
    + cbn [seq map]. rewrite <- seq_shift, map_map.
      change (select a (?h :: ?t))
        with ((match get a h with Some x => [x] | None => [] end) ++ select a t).
      replace (i + Z.of_nat 0 * stride) with i by lia. rewrite Hx. cbn [app].
      change (total (x :: ?l)) with (x + total l).
      rewrite (map_ext (fun k => i + stride + Z.of_nat k * stride)
                       (fun k => i + Z.of_nat (S k) * stride)) by (intros k; lia).
      rewrite wrap32_add_both. f_equal. f_equal. lia.
    + lia.
    + apply wrap32_idem.
    + intros k Hk. specialize (Hin (S k)). lia.
    + lia.
Qed.

(** A pass with a stride of at least 1 ends, and adds up the words at the
    multiples of the stride. *)
Lemma stride_pass_sum stride fuel sum :
  1 <= stride ->
  (Z.to_nat ARRAY_SIZE < fuel)%nat ->
  wrap32 sum = sum ->
  stride_pass fuel array stride 0 sum m
  = Ok (wrap32 (sum + total (select a (strided stride)))) m.
Proof.
  intros Hstride Hfuel Hsum. unfold strided.
  pose proof (Z.mul_div_le (ARRAY_SIZE - 1) stride ltac:(lia)) as Hle.
  pose proof (Z.mul_succ_div_gt (ARRAY_SIZE - 1) stride ltac:(lia)) as Hgt.
  assert (0 <= (ARRAY_SIZE - 1) / stride <= ARRAY_SIZE - 1) as Hq.
  { split; [apply Z.div_pos; unfold ARRAY_SIZE; lia |].
    apply Z.div_le_upper_bound; unfold ARRAY_SIZE in *; nia. }
  rewrite (stride_pass_rounds stride (Z.to_nat ((ARRAY_SIZE - 1) / stride + 1)) fuel 0 sum).
  - f_equal.
  - unfold ARRAY_SIZE in *. lia.
  - assumption.
  - intros k Hk. unfold ARRAY_SIZE in *. nia.
  - unfold ARRAY_SIZE in *. nia.
Qed.

(** With a stride of 0 the index stays at 0: the pass never ends. *)
Lemma stride_pass_zero fuel : forall sum, stride_pass fuel array 0 0 sum m = OutOfFuel.
Proof.
  induction fuel as [| fuel IH]; intros sum; [reflexivity |].
  cbn [stride_pass]. change (0 <? ARRAY_SIZE) with true. cbv iota.
  destruct (load_ok 0) as (x & _ & Hload); [unfold ARRAY_SIZE; lia |].
  rewrite (bind_eq _ _ _ _ _ Hload). apply IH.
Qed.

(** With a negative stride the second access is in front of the array. *)
Lemma stride_pass_negative stride fuel sum :
  stride < 0 -> stride_pass (S (S fuel)) array stride 0 sum m = Fault.
Proof.
  intros Hstride. cbn [stride_pass]. change (0 <? ARRAY_SIZE) with true. cbv iota.
  destruct (load_ok 0) as (x & _ & Hload); [unfold ARRAY_SIZE; lia |].
  rewrite (bind_eq _ _ _ _ _ Hload).
  destruct (Z.ltb_spec (0 + stride) ARRAY_SIZE) as [_ | Hge]; [| unfold ARRAY_SIZE in Hge; lia].
  unfold bind, load. rewrite array_there, get_none by lia. reflexivity.
Qed.

End Strides.

Lemma strided_one : strided 1 = indices.
Proof.
  unfold strided, indices.
  replace (Z.to_nat ((ARRAY_SIZE - 1) / 1 + 1)) with (Z.to_nat ARRAY_SIZE) by reflexivity.
  apply map_ext. intros k. lia.
Qed.

Lemma for_loop_out_of_fuel {L : Type} (body : Z -> L -> M L) n i s m :
  body i s m = OutOfFuel -> for_loop (S n) i body s m = OutOfFuel.
Proof. intros Hbody. cbn [for_loop]. unfold bind. now rewrite Hbody. Qed.

Lemma for_loop_fault {L : Type} (body : Z -> L -> M L) n i s m :
  body i s m = Fault -> for_loop (S n) i body s m = Fault.
Proof. intros Hbody. cbn [for_loop]. unfold bind. now rewrite Hbody. Qed.

Section StrideSpecs.

Variable sdk : Sdk.
Variable array : array_ref.
Variable a : list Z.
Variable m : machine.
Hypothesis array_there : deref array m = Some a.
Hypothesis array_size : Z.of_nat (List.length a) = ARRAY_SIZE.

Lemma measure_stride_access_spec fuel stride test_name :
  1 <= stride ->
  (Z.to_nat ARRAY_SIZE < fuel)%nat ->
  measure_stride_access sdk fuel array stride test_name m
  = Ok (measured_time sdk m)
       (measured sdk m
          (test_name ++ " (stride " ++ fmt_d stride ++ "): " ++ fmt_llu (measured_time sdk m)
           ++ " " ++ mu ++ "s (sum="
           ++ fmt_lu (wrap32 (500 * total (select a (strided stride)))) ++ ")" ++ LF)).
Proof.
  intros Hstride Hfuel. unfold measure_stride_access.
  change (bind (esp_timer_get_time sdk) ?f m)
    with (f (sdk_clock sdk (List.length (m_calls m)))
            (log (timer_read (sdk_clock sdk (List.length (m_calls m)))) m)).
  cbv beta zeta.
  rewrite (bind_eq _ _ _ _ _
             (five_hundred_passes
                (fun sum => stride_pass fuel array stride 0 sum)
                (select a (strided stride)) _
                (fun sum Hsum => stride_pass_sum array a _
                                   (eq_trans (deref_log array _ m) array_there) array_size
                                   stride fuel sum Hstride Hfuel Hsum))).
  unfold bind, esp_timer_get_time, printf, ret, measured, measured_time, log.
  cbn [m_calls sram_array psram_array m_console psram_freed]. rewrite length_app, Nat.add_comm.
  cbn [List.length Nat.add]. rewrite <- app_assoc. reflexivity.
Qed.

Lemma measure_stride_access_zero fuel test_name :
  measure_stride_access sdk fuel array 0 test_name m = OutOfFuel.
Proof.
  unfold measure_stride_access.
  change (bind (esp_timer_get_time sdk) ?f m)
    with (f (sdk_clock sdk (List.length (m_calls m)))
            (log (timer_read (sdk_clock sdk (List.length (m_calls m)))) m)).
  cbv beta zeta. unfold bind at 1. unfold for_lt at 1.
  change (Z.to_nat (TEST_RUNS - 0)) with 5%nat.
  rewrite for_loop_out_of_fuel; [reflexivity |].
  unfold for_lt. change (Z.to_nat (ITERATIONS - 0)) with (S 99).
  apply for_loop_out_of_fuel.
  apply (stride_pass_zero array a); [| assumption].
  now rewrite deref_log.
Qed.

Lemma measure_stride_access_negative fuel stride test_name :
  stride < 0 ->
  measure_stride_access sdk (S (S fuel)) array stride test_name m = Fault.
Proof.
  intros Hstride. unfold measure_stride_access.
  change (bind (esp_timer_get_time sdk) ?f m)
    with (f (sdk_clock sdk (List.length (m_calls m)))
            (log (timer_read (sdk_clock sdk (List.length (m_calls m)))) m)).
  cbv beta zeta. unfold bind at 1. unfold for_lt at 1.
  change (Z.to_nat (TEST_RUNS - 0)) with 5%nat.
  rewrite for_loop_fault; [reflexivity |].
  unfold for_lt. change (Z.to_nat (ITERATIONS - 0)) with (S 99).
  apply for_loop_fault.
  apply (stride_pass_negative array a); [| assumption | assumption].
  now rewrite deref_log.
Qed.

End StrideSpecs.

(** *** Filling the arrays *)

Lemma deref_with_array p b m : deref p (with_array p b m) = Some b.
Proof. now destruct p. Qed.

Lemma with_array_twice p b b' m : with_array p b' (with_array p b m) = with_array p b' m.
Proof. now destruct p. Qed.

Lemma with_array_same p a m : deref p m = Some a -> with_array p a m = m.
Proof. destruct p, m; cbn; intros Ha; [injection Ha as <- | rewrite Ha]; reflexivity. Qed.

Lemma store_with_array p i v m a a' :
  deref p m = Some a -> set a i v = Some a' -> store p i v m = Ok tt (with_array p a' m).
Proof.
  destruct p; cbn; intros Ha Hset.
  - injection Ha as <-. now rewrite Hset.
  - now rewrite Ha, Hset.
Qed.

Lemma length_pattern_prefix n :
  List.length (map pattern_at (map Z.of_nat (seq 0 n))) = n.
Proof. now rewrite !length_map, length_seq. Qed.

Lemma fill_spec p a m :
  deref p m = Some a ->
  Z.of_nat (List.length a) = ARRAY_SIZE ->
  fill p m = Ok tt (with_array p pattern m).
Proof.
  intros Harray Hsize. unfold fill, for_lt.
  destruct (for_loop_inv
              (fun i (_ : unit) => store p i (pattern_at i))
              (fun j _ m' =>
                 m' = with_array p (map pattern_at (map Z.of_nat (seq 0 (Z.to_nat j)))
                                    ++ skipn (Z.to_nat j) a) m)
              (Z.to_nat (ARRAY_SIZE - 0)) 0 tt m) as ([] & m' & Hrun & ->).
  - intros j [] m' Hj ->. exists tt. eexists. split; [| reflexivity].
    assert (0 <= j < ARRAY_SIZE) as Hj' by (unfold ARRAY_SIZE in *; lia).
    rewrite (store_with_array p j (pattern_at j) _ _
               (map pattern_at (map Z.of_nat (seq 0 (Z.to_nat (j + 1))))
                ++ skipn (Z.to_nat (j + 1)) a)
               (deref_with_array _ _ _)).
    + now rewrite with_array_twice.
    + unfold set. rewrite length_app, length_pattern_prefix, length_skipn.
      destruct (Z.leb_spec 0 j); [| lia].
      destruct (Z.ltb_spec j (Z.of_nat (Z.to_nat j + (List.length a - Z.to_nat j))));
        [| lia].
      cbn [andb]. f_equal.
      rewrite firstn_app, length_pattern_prefix, Nat.sub_diag, firstn_O, app_nil_r.
      rewrite firstn_all2 by (rewrite length_pattern_prefix; lia).
      rewrite skipn_app, length_pattern_prefix.
      rewrite (skipn_all2 (map _ _)) by (rewrite length_pattern_prefix; lia).
      replace (S (Z.to_nat j) - Z.to_nat j)%nat with 1%nat by lia.
      rewrite skipn_skipn. cbn [app].
      replace (Z.to_nat (j + 1)) with (S (Z.to_nat j)) by lia.
      rewrite seq_S, !map_app, <- app_assoc. cbn [Nat.add map app].
      rewrite Z2Nat.id by lia. reflexivity.
  - cbn. symmetry. now apply with_array_same.
  - rewrite Hrun. f_equal. f_equal.
    replace (Z.to_nat (0 + Z.of_nat (Z.to_nat (ARRAY_SIZE - 0)))) with (Z.to_nat ARRAY_SIZE)
      by reflexivity.
    rewrite skipn_all2 by lia. apply app_nil_r.
Qed.

Section Initialize.

Variable sdk : Sdk.

Lemma initialize_arrays_spec m :
  Z.of_nat (List.length (sram_array m)) = ARRAY_SIZE ->
  initialize_arrays sdk m = Ok tt (initialized sdk m).
Proof.
  intros Hsize. unfold initialize_arrays.
  change (bind (printf ?s) ?f m)
    with (f tt (mkMachine (sram_array m) (psram_array m) (psram_freed m)
                          (m_console m ++ list_ascii_of_string s) (m_calls m))).
  cbv beta.
  match goal with
  | |- bind (fill sram) _ ?m1 = _ =>
      rewrite (bind_eq _ _ m1 _ _ (fill_spec sram (sram_array m) m1 eq_refl Hsize))
  end.
  unfold with_array. cbn [sram_array psram_array m_console m_calls psram_freed].
  unfold bind at 1. unfold heap_caps_malloc at 1. cbn [m_calls].
  unfold initialized. cbv zeta.
  destruct (sdk_grant sdk (List.length (m_calls m))) eqn:Hfirst.
  - unfold bind at 1. unfold assign_psram_array. unfold log. cbn [sram_array m_console m_calls psram_freed].
    unfold bind at 1. unfold psram_array_is_set. cbn [psram_array psram_freed].
    unfold bind at 1. unfold printf at 1. cbn [sram_array psram_array m_console m_calls psram_freed].
    match goal with
    | |- fill psram ?m1 = _ => rewrite (fill_spec psram _ m1 eq_refl)
    end.
    + unfold with_array. cbn [sram_array psram_array m_console m_calls orb psram_freed].
      now rewrite <- app_assoc.
    + rewrite length_map, length_seq. reflexivity.
  - unfold bind at 1. unfold assign_psram_array. unfold log. cbn [sram_array m_console m_calls psram_freed].
    unfold bind at 1. unfold psram_array_is_set. cbn [psram_array psram_freed].
    unfold bind at 1. unfold printf at 1. cbn [sram_array psram_array m_console m_calls psram_freed].
    unfold bind at 1. unfold heap_caps_malloc at 1. cbn [m_calls].
    rewrite length_app, Nat.add_comm. cbn [List.length Nat.add].
    destruct (sdk_grant sdk (S (List.length (m_calls m)))) eqn:Hsecond.
    + unfold bind at 1. unfold assign_psram_array. unfold log.
      cbn [sram_array m_console m_calls psram_freed].
      unfold bind at 1. unfold psram_array_is_set. cbn [psram_array psram_freed].
      match goal with
      | |- fill psram ?m1 = _ => rewrite (fill_spec psram _ m1 eq_refl)
      end.
      * unfold with_array. cbn [sram_array psram_array m_console m_calls orb psram_freed].
        now rewrite <- !app_assoc.
      * rewrite length_map, length_seq. reflexivity.
    + unfold bind at 1. unfold assign_psram_array. unfold log.
      cbn [sram_array m_console m_calls psram_freed].
      unfold bind at 1. unfold psram_array_is_set. cbn [psram_array orb psram_freed]. unfold ret.
      now rewrite <- !app_assoc.
Qed.

End Initialize.

(** *** The whole test *)





Section Main.

Variable sdk : Sdk.
Variable fmt_2f : Z -> Z -> string.
Variables (reads : list Z) (n : nat) (block : option (list Z)) (freed : nat).








End Main.


Section Whole.

Variable sdk : Sdk.
Variable fmt_2f : Z -> Z -> string.





End Whole.

(** ** What the cache test measures *)

(** X9: [measure_sequential_access] on an array of [ARRAY_SIZE] words reads
    the clock twice, changes neither array and returns the difference of
    the two readings as a 64-bit value; the sum it prints is 500 times the
    sum of the words of the array, wrapped to 32 bits (5 runs of 100
    passes, each adding every word once). *)
Theorem sequential_access_sums_every_word sdk array memory_type a m :
  deref array m = Some a ->
  Z.of_nat (List.length a) = ARRAY_SIZE ->
  measure_sequential_access sdk array memory_type m
  = Ok (measured_time sdk m)
       (measured sdk m
          (memory_type ++ " Sequential Access: " ++ fmt_llu (measured_time sdk m) ++ " " ++ mu
           ++ "s (sum=" ++ fmt_lu (wrap32 (500 * total a)) ++ ")" ++ LF)).
Proof. apply measure_sequential_access_spec. Qed.

Lemma sequential_access_sums_every_word_witness :
  exists duration m',
    measure_sequential_access sdk_without_psram sram "SRAM" boot = Ok duration m'.
Proof.
  do 2 eexists.
  apply (sequential_access_sums_every_word
           sdk_without_psram sram "SRAM" (repeat 0 (Z.to_nat ARRAY_SIZE)) boot);
    reflexivity.
Defined.

(** X10: the index [(i * 2654435761U) % ARRAY_SIZE] of
    [measure_random_access] is an index of the array for every [i], and
    over one pass ([i] from 0 to [ARRAY_SIZE - 1]) it takes every index of
    the array exactly once: the pass reads the array in another order, it
    skips no word and reads none twice. *)
Theorem random_index_visits_every_index_once :
  (forall i, 0 <= random_index i < ARRAY_SIZE) /\
  Permutation (map random_index indices) indices.
Proof. split; [apply random_index_range | apply random_index_permutation]. Qed.

(** X11: [measure_random_access] never reads outside an array of
    [ARRAY_SIZE] words, and the sum it prints is the one
    [measure_sequential_access] prints for the same array: 500 times the
    sum of the words, wrapped to 32 bits.  It reads the clock twice and
    changes neither array. *)
Theorem random_access_prints_the_sequential_sum sdk array memory_type a m :
  deref array m = Some a ->
  Z.of_nat (List.length a) = ARRAY_SIZE ->
  measure_random_access sdk array memory_type m
  = Ok (measured_time sdk m)
       (measured sdk m
          (memory_type ++ " Random Access: " ++ fmt_llu (measured_time sdk m) ++ " " ++ mu
           ++ "s (sum=" ++ fmt_lu (wrap32 (500 * total a)) ++ ")" ++ LF)).
Proof. apply measure_random_access_spec. Qed.

Lemma random_access_prints_the_sequential_sum_witness :
  exists duration m',
    measure_random_access sdk_without_psram sram "SRAM" boot = Ok duration m'.
Proof.
  do 2 eexists.
  apply (random_access_prints_the_sequential_sum
           sdk_without_psram sram "SRAM" (repeat 0 (Z.to_nat ARRAY_SIZE)) boot);
    reflexivity.
Defined.

(** X12: for a stride from 1 up to [INT_MAX - (ARRAY_SIZE - 1)] (so that
    [i += stride] does not overflow), [measure_stride_access] ends, stays
    inside the array and prints 500 times the sum of the words at the
    multiples of the stride below [ARRAY_SIZE], wrapped to 32 bits; with
    the stride 1 these are all the words of the array. *)
Theorem stride_access_sums_the_multiples_of_the_stride
        sdk array test_name a m fuel stride :
  deref array m = Some a ->
  Z.of_nat (List.length a) = ARRAY_SIZE ->
  1 <= stride <= 2147483647 - (ARRAY_SIZE - 1) ->
  (Z.to_nat ARRAY_SIZE < fuel)%nat ->
  measure_stride_access sdk fuel array stride test_name m
  = Ok (measured_time sdk m)
       (measured sdk m
          (test_name ++ " (stride " ++ fmt_d stride ++ "): " ++ fmt_llu (measured_time sdk m)
           ++ " " ++ mu ++ "s (sum="
           ++ fmt_lu (wrap32 (500 * total (select a (strided stride)))) ++ ")" ++ LF)) /\
  select a (strided 1) = a.
Proof.
  intros Harray Hsize Hstride Hfuel. split.
  - apply measure_stride_access_spec; [assumption | assumption | lia | assumption].
  - rewrite strided_one. now apply select_indices.
Qed.

Lemma stride_access_sums_the_multiples_of_the_stride_witness :
  exists duration m',
    measure_stride_access sdk_without_psram 4097 sram 16 "Stride 16" boot = Ok duration m'.
Proof.
  do 2 eexists.
  apply (stride_access_sums_the_multiples_of_the_stride
           sdk_without_psram sram "Stride 16" (repeat 0 (Z.to_nat ARRAY_SIZE)) boot 4097 16);
    [reflexivity | reflexivity | unfold ARRAY_SIZE; lia | vm_compute; lia].
Defined.

(** X13: with the stride 0 [measure_stride_access] does not end: the index
    of its inner loop stays 0, so no number of rounds is enough. *)
Theorem stride_zero_never_ends sdk array test_name a m fuel :
  deref array m = Some a ->
  Z.of_nat (List.length a) = ARRAY_SIZE ->
  measure_stride_access sdk fuel array 0 test_name m = OutOfFuel.
Proof. intros Harray Hsize. now apply (measure_stride_access_zero sdk array a). Qed.

Lemma stride_zero_never_ends_witness :
  measure_stride_access sdk_without_psram 100 sram 0 "Stride 0" boot = OutOfFuel.
Proof.
  apply (stride_zero_never_ends
           sdk_without_psram sram "Stride 0" (repeat 0 (Z.to_nat ARRAY_SIZE)) boot 100);
    reflexivity.
Defined.

(** X14: with a negative stride [measure_stride_access] reads outside the
    array: after [array[0]] the inner loop reads [array[stride]], in front
    of the first word. *)
Theorem negative_stride_reads_in_front_of_the_array sdk array test_name a m fuel stride :
  deref array m = Some a ->
  Z.of_nat (List.length a) = ARRAY_SIZE ->
  stride < 0 ->
  measure_stride_access sdk (S (S fuel)) array stride test_name m = Fault.
Proof.
  intros Harray Hsize Hstride.
  now apply (measure_stride_access_negative sdk array a).
Qed.

Lemma negative_stride_reads_in_front_of_the_array_witness :
  measure_stride_access sdk_without_psram 2 sram (-1) "Stride -1" boot = Fault.
Proof.
  apply (negative_stride_reads_in_front_of_the_array
           sdk_without_psram sram "Stride -1" (repeat 0 (Z.to_nat ARRAY_SIZE)) boot 0 (-1));
    [reflexivity | reflexivity | lia].
Defined.

(** X15: [initialize_arrays] always ends.  Afterwards [sram_array] holds
    [i * 7 + 13] at every index [i].  It asks for external memory first and
    for internal memory only if that is refused; [psram_array] points to a
    block holding the same pattern (nothing of what the fresh block held is
    left) if one of the two requests was granted and is NULL otherwise.  It
    prints its heading and one line that tells whether the first request
    was granted. *)
Theorem initialize_arrays_fills_both_arrays sdk m :
  Z.of_nat (List.length (sram_array m)) = ARRAY_SIZE ->
  let first := sdk_grant sdk (List.length (m_calls m)) in
  let second := sdk_grant sdk (S (List.length (m_calls m))) in
  exists m',
    initialize_arrays sdk m = Ok tt m' /\
    sram_array m' = map (fun i => i * 7 + 13) indices /\
    psram_array m'
    = (if first || second then Some (map (fun i => i * 7 + 13) indices) else None) /\
    m_calls m'
    = m_calls m
      ++ malloc_call 16384 MALLOC_CAP_SPIRAM first
      :: (if first then [] else [malloc_call 16384 MALLOC_CAP_INTERNAL second]) /\
    m_console m'
    = m_console m
      ++ list_ascii_of_string ("Initializing test arrays..." ++ LF)
      ++ list_ascii_of_string
           (if first
            then "PSRAM array allocated successfully" ++ LF
            else "PSRAM not available, using internal memory" ++ LF).
Proof.
  intros Hsize first second. exists (initialized sdk m).
  assert (pattern = map (fun i => i * 7 + 13) indices) as Hpattern.
  { unfold pattern. apply map_ext_in. intros i Hi. apply in_indices in Hi.
    unfold pattern_at. apply wrap32_small. unfold ARRAY_SIZE in Hi. lia. }
  split; [now apply initialize_arrays_spec |].
  unfold initialized. cbn [sram_array psram_array m_calls m_console psram_freed].
  rewrite <- Hpattern. repeat split.
Qed.

Lemma initialize_arrays_fills_both_arrays_witness :
  exists m',
    initialize_arrays sdk_without_psram boot = Ok tt m' /\
    sram_array m' = map (fun i => i * 7 + 13) indices /\
    psram_array m' = Some (map (fun i => i * 7 + 13) indices) /\
    m_calls m'
    = [malloc_call 16384 MALLOC_CAP_SPIRAM false; malloc_call 16384 MALLOC_CAP_INTERNAL true] /\
    m_console m'
    = list_ascii_of_string ("Initializing test arrays..." ++ LF)
      ++ list_ascii_of_string ("PSRAM not available, using internal memory" ++ LF).
Proof.
  apply (initialize_arrays_fills_both_arrays sdk_without_psram boot). reflexivity.
Defined.



End CacheFacts.
